(** * Wheel-strategy simulator: pricing, portfolio ledger and trading-day clock

    A shallow embedding of the Python sources

    - [models/black_scholes.py]  (class [BlackScholes], [generate_strike_prices])
    - [models/position.py]       ([OptionsPosition], [StockPosition], [Portfolio])
    - [core/simulator.py]        ([WheelSimulator])

    Conventions of the embedding.

    - Python [float] values are modelled by exact rationals ([Q]); [==] on
      floats is numeric equality, as is [Qeq].  Python [int] is [Z].
    - The strike generator is the one function whose results depend on
      the rounding of double-precision arithmetic (a candidate such as
      [30 * (1 + 0.025)] falls just below a tie).  It is modelled twice:
      on exact rationals, and on IEEE 754 binary64 numbers ([Binary64]),
      which is the arithmetic the Python code runs.
    - [datetime] values are points of a totally ordered time line ([Z]).
    - [OptionsPosition] objects are mutable and shared by reference between
      the caller, [options_positions] and [closed_positions]; they live in an
      object store indexed by references.
    - A Python exception is an outcome of its own that carries the state
      reached when it was raised, so partial mutation is visible.
    - [print] calls and the wall-clock [timestamp] of a transaction record
      are not modelled.
    - Division is total ([x / 0 = 0]) and every value is a number.  The
      inputs on which Python would divide by zero or compute a value that
      is not a number (a zero strike, or a volatility that is zero or not a
      number, reaching the pricing model before expiry) play no part in
      the properties below: those about the orders of the engine that
      depend on the premium assume an order within the domain of the
      pricing model.
    - The pricing model appears twice: over [Q] with the numeric library
      left abstract ([BlackScholes]), which is what the engine calls, and
      over the real numbers with the library functions read as the
      functions they compute ([Ideal]), where put-call parity is stated. *)

From Stdlib Require Import Reals Lra ClassicalEpsilon.
From Stdlib Require Import ZArith QArith Qpower Qround Qminmax Qabs Lia Lqa DecimalString Sorted.
From Stdlib Require Import SpecFloat.
From stdpp Require Import base functions gmap strings list.

(** ** Rational helpers *)

(** [a < b] on floats, as a boolean. *)
Definition Qltb (a b : Q) : bool := negb (Qle_bool b a).

(** ** The Python runtime pieces the sources rely on *)

Module Py.

(** The [ValueError]s of the sources, told apart by their message. *)
Inductive value_error : Type :=
| InsufficientCash (available required : Q)
    (* "Insufficient cash: $.. available, $.. required" *)
| InsufficientCollateral (available required : Q)
    (* "Insufficient cash for cash-secured put: $.. available, $.. required" *)
| InsufficientCoverage (need have : Z)
    (* "Insufficient shares to sell covered call: need .., have .." *)
| NotInList
    (* "list.remove(x): x not in list" *)
| NoTradingDates.
    (* "No trading dates available" *)

Inductive exn : Type :=
| ValueError (why : value_error)
| IndexError
| TypeError.

(** Outcome of running a method on a state of type [S]. *)
Inductive outcome (S A : Type) : Type :=
| Return (a : A) (s : S)
| Raised (e : exn) (s : S).
Arguments Return {S A} a s.
Arguments Raised {S A} e s.

Definition final {S A} (o : outcome S A) : S :=
  match o with Return _ s => s | Raised _ s => s end.

Definition M (S A : Type) : Type := S → outcome S A.

Definition ret {S A} (a : A) : M S A := λ s, Return a s.
Definition bind {S A B} (m : M S A) (k : A → M S B) : M S B :=
  λ s, match m s with
       | Return a s' => k a s'
       | Raised e s' => Raised e s'
       end.
Definition raise {S A} (e : exn) : M S A := λ s, Raised e s.
Definition gets {S A} (f : S → A) : M S A := λ s, Return (f s) s.
Definition modify {S} (f : S → S) : M S unit := λ s, Return tt (f s).

(** [try: body except ValueError: handler] *)
Definition try_except_ValueError {S A} (body : M S A) (handler : value_error → M S A)
  : M S A :=
  λ s, match body s with
       | Raised (ValueError v) s' => handler v s'
       | o => o
       end.

(** Run a method of a component object stored inside a larger state. *)
Definition zoom {S T A} (get : T → S) (set : S → T → T) (m : M S A) : M T A :=
  λ t, match m (get t) with
       | Return a s => Return a (set s t)
       | Raised e s => Raised e (set s t)
       end.

(** [str(n)] for an [int]. *)
Definition str (n : Z) : string := NilZero.string_of_int (Z.to_int n).

(** [l.remove(x)]: drops the first element that is [x] or equal to it;
    [None] stands for the [ValueError] Python raises when there is none. *)
Fixpoint list_remove {A} (same : A → bool) (l : list A) : option (list A) :=
  match l with
  | [] => None
  | y :: l' => if same y then Some l'
               else match list_remove same l' with
                    | Some r => Some (y :: r)
                    | None => None
                    end
  end.

(** [l[i]] with Python's negative indices; [None] stands for [IndexError]. *)
Definition index {A} (l : list A) (i : Z) : option A :=
  let n := Z.of_nat (length l) in
  if (0 <=? i)%Z then l !! Z.to_nat i
  else if (0 <=? i + n)%Z then l !! Z.to_nat (i + n)
  else None.

(** [range(a, b)] *)
Definition range (a b : Z) : list Z :=
  (λ k : nat, (a + Z.of_nat k)%Z) <$> seq 0 (Z.to_nat (b - a)).

(** [round(x)] of a float: the nearest integer, ties to the even one. *)
Definition round (x : Q) : Z :=
  let f := Qfloor x in
  match (x - inject_Z f ?= 1 # 2)%Q with
  | Lt => f
  | Gt => (f + 1)%Z
  | Eq => if Z.even f then f else (f + 1)%Z
  end.

(** [set(l)] of numbers, listed by first occurrence (the order in which
    Python iterates a set is unspecified; [sorted] makes it irrelevant). *)
Fixpoint set (l : list Q) : list Q :=
  match l with
  | [] => []
  | x :: l' => x :: filter (λ y, negb (Qeq_bool x y)) (set l')
  end.

(** [sorted(l)]: a stable ascending sort. *)
Fixpoint insort (x : Q) (l : list Q) : list Q :=
  match l with
  | [] => [x]
  | y :: l' => if Qltb x y then x :: y :: l' else y :: insort x l'
  end.

Definition sorted (l : list Q) : list Q := foldl (λ acc x, insort x acc) [] l.

End Py.

Notation "'let!' x ':=' m 'in' k" := (Py.bind m (λ x, k))
  (at level 10, x binder, k at level 200, only parsing).
Notation "'do!' m 'in' k" := (Py.bind m (λ _, k))
  (at level 10, k at level 200, only parsing).

(** ** Position entities ([models/position.py]) *)

Inductive PositionStatus : Type :=
| OPEN | EXPIRED_WORTHLESS | ASSIGNED | CALLED_AWAY | CLOSED.

Inductive OptionType : Type := CALL | PUT.

Definition PositionStatus_eqb (a b : PositionStatus) : bool :=
  match a, b with
  | OPEN, OPEN | EXPIRED_WORTHLESS, EXPIRED_WORTHLESS | ASSIGNED, ASSIGNED
  | CALLED_AWAY, CALLED_AWAY | CLOSED, CLOSED => true
  | _, _ => false
  end.

Definition OptionType_eqb (a b : OptionType) : bool :=
  match a, b with
  | CALL, CALL | PUT, PUT => true
  | _, _ => false
  end.

Module OptionsPosition.

Record t : Type := mk {
  symbol : string;
  option_type : OptionType;
  strike : Q;
  expiration : Z;
  premium_received : Q;
  contracts : Z;
  entry_date : option Z;
  status : PositionStatus;
  exit_date : option Z;
  stock_price_at_entry : Q;
  stock_price_at_exit : Q
}.

(** The constructor call of the sources: the three defaulted fields are
    [status = OPEN], [exit_date = None], [stock_price_at_exit = 0.0].
    [entry_date] receives the engine's [current_date], which is [None]
    before [initialize]. *)
Definition new (symbol : string) (option_type : OptionType) (strike : Q)
    (expiration : Z) (premium_received : Q) (contracts : Z) (entry_date : option Z)
    (stock_price_at_entry : Q) : t :=
  mk symbol option_type strike expiration premium_received contracts
     entry_date OPEN None stock_price_at_entry 0.

Definition days_to_expiration (self : t) (current_date : Z) : Z :=
  if (expiration self <=? current_date)%Z then 0%Z
  else (expiration self - current_date)%Z.

Definition total_premium (self : t) : Q :=
  (premium_received self * inject_Z (contracts self) * 100)%Q.

Definition is_expired (self : t) (current_date : Z) : bool :=
  (expiration self <=? current_date)%Z.

(** Field assignments [position.f = v]. *)
Definition set_status (v : PositionStatus) (p : t) : t :=
  mk (symbol p) (option_type p) (strike p) (expiration p) (premium_received p)
     (contracts p) (entry_date p) v (exit_date p) (stock_price_at_entry p)
     (stock_price_at_exit p).
Definition set_exit_date (v : option Z) (p : t) : t :=
  mk (symbol p) (option_type p) (strike p) (expiration p) (premium_received p)
     (contracts p) (entry_date p) (status p) v (stock_price_at_entry p)
     (stock_price_at_exit p).
Definition set_stock_price_at_exit (v : Q) (p : t) : t :=
  mk (symbol p) (option_type p) (strike p) (expiration p) (premium_received p)
     (contracts p) (entry_date p) (status p) (exit_date p)
     (stock_price_at_entry p) v.

(** [==] on [Optional[datetime]] values. *)
Definition date_eqb (a b : option Z) : bool :=
  match a, b with
  | Some x, Some y => (x =? y)%Z
  | None, None => true
  | _, _ => false
  end.

(** The [__eq__] a dataclass generates: field by field. *)
Definition eqb (a b : t) : bool :=
  String.eqb (symbol a) (symbol b)
  && OptionType_eqb (option_type a) (option_type b)
  && Qeq_bool (strike a) (strike b)
  && (expiration a =? expiration b)%Z
  && Qeq_bool (premium_received a) (premium_received b)
  && (contracts a =? contracts b)%Z
  && date_eqb (entry_date a) (entry_date b)
  && PositionStatus_eqb (status a) (status b)
  && date_eqb (exit_date a) (exit_date b)
  && Qeq_bool (stock_price_at_entry a) (stock_price_at_entry b)
  && Qeq_bool (stock_price_at_exit a) (stock_price_at_exit b).

End OptionsPosition.

Module StockPosition.

Record t : Type := mk {
  symbol : string;
  shares : Z;
  cost_basis : Q;
  acquisition_date : Z;
  assigned_from_put : bool
}.

Definition total_cost (self : t) : Q := (inject_Z (shares self) * cost_basis self)%Q.

Definition current_value (self : t) (current_price : Q) : Q :=
  (inject_Z (shares self) * current_price)%Q.

Definition unrealized_pnl (self : t) (current_price : Q) : Q :=
  (current_value self current_price - total_cost self)%Q.

(** [stock_pos.shares -= n] *)
Definition sub_shares (n : Z) (p : t) : t :=
  mk (symbol p) (shares p - n)%Z (cost_basis p) (acquisition_date p)
     (assigned_from_put p).

End StockPosition.

(** ** The portfolio ledger ([models/position.py], class [Portfolio]) *)

(** A reference to an [OptionsPosition] object. *)
Definition ref : Type := nat.

Inductive TransactionType : Type := cash_in | cash_out.

(** An entry of [transaction_history] (without its wall-clock timestamp). *)
Record Transaction : Type := mkTransaction {
  tx_type : TransactionType;
  tx_amount : Q;
  tx_description : string
}.

Module Portfolio.

Record t : Type := mk {
  initial_capital : Q;
  cash : Q;
  stock_positions : gmap string StockPosition.t;
  options_positions : list ref;
  closed_positions : list ref;
  transaction_history : list Transaction
}.

(** The portfolio object together with the store of the option objects it
    refers to; [fresh] is the next unused reference. *)
Record world : Type := World {
  heap : ref → OptionsPosition.t;
  fresh : ref;
  self : t
}.

Definition set_cash (v : Q) (p : t) : t :=
  mk (initial_capital p) v (stock_positions p) (options_positions p)
     (closed_positions p) (transaction_history p).
Definition set_stock_positions (v : gmap string StockPosition.t) (p : t) : t :=
  mk (initial_capital p) (cash p) v (options_positions p)
     (closed_positions p) (transaction_history p).
Definition set_options_positions (v : list ref) (p : t) : t :=
  mk (initial_capital p) (cash p) (stock_positions p) v
     (closed_positions p) (transaction_history p).
Definition set_closed_positions (v : list ref) (p : t) : t :=
  mk (initial_capital p) (cash p) (stock_positions p) (options_positions p)
     v (transaction_history p).
Definition set_transaction_history (v : list Transaction) (p : t) : t :=
  mk (initial_capital p) (cash p) (stock_positions p) (options_positions p)
     (closed_positions p) v.

(** [self.f = ...] on the portfolio, and [position.f = ...] on an option. *)
Definition upd (f : t → t) : Py.M world unit :=
  Py.modify (λ w, World (heap w) (fresh w) (f (self w))).
Definition assign (position : ref) (f : OptionsPosition.t → OptionsPosition.t)
  : Py.M world unit :=
  Py.modify (λ w, World (<[position := f (heap w position)]> (heap w)) (fresh w) (self w)).
Definition deref (position : ref) : Py.M world OptionsPosition.t :=
  Py.gets (λ w, heap w position).
Definition get {A} (f : t → A) : Py.M world A := Py.gets (λ w, f (self w)).

Definition __init__ (initial_capital : Q) : t :=
  mk initial_capital initial_capital ∅ [] [] [].

Definition add_cash (amount : Q) (description : string) : Py.M world unit :=
  do! upd (λ p, set_cash (cash p + amount)%Q p) in
  upd (λ p, set_transaction_history
              (transaction_history p ++ [mkTransaction cash_in amount description]) p).

Definition remove_cash (amount : Q) (description : string) : Py.M world unit :=
  let! available := get cash in
  if Qltb available amount
  then Py.raise (Py.ValueError (Py.InsufficientCash available amount))
  else
    do! upd (λ p, set_cash (cash p - amount)%Q p) in
    upd (λ p, set_transaction_history
                (transaction_history p ++ [mkTransaction cash_out amount description]) p).

(** [self.options_positions.remove(position)]: the first entry that is the
    object itself or a position equal to it field by field. *)
Definition remove_open (position : ref) : Py.M world unit :=
  λ w, match Py.list_remove
               (λ y, Nat.eqb y position
                     || OptionsPosition.eqb (heap w y) (heap w position))
               (options_positions (self w)) with
       | Some l => Py.Return tt (World (heap w) (fresh w) (set_options_positions l (self w)))
       | None => Py.Raised (Py.ValueError Py.NotInList) w
       end.

Definition sell_put (position : ref) : Py.M world unit :=
  let! pos := deref position in
  let required_cash :=
    (OptionsPosition.strike pos * inject_Z (OptionsPosition.contracts pos) * 100)%Q in
  let! available := get cash in
  if Qltb available required_cash
  then Py.raise (Py.ValueError (Py.InsufficientCollateral available required_cash))
  else
    let premium := OptionsPosition.total_premium pos in
    do! add_cash premium
          ("Premium from selling " +:+ Py.str (OptionsPosition.contracts pos) +:+ " "
           +:+ OptionsPosition.symbol pos +:+ " put(s)") in
    upd (λ p, set_options_positions (options_positions p ++ [position]) p).

Definition sell_call (position : ref) : Py.M world unit :=
  let! pos := deref position in
  let! stock_pos := get (λ p, stock_positions p !! OptionsPosition.symbol pos) in
  let need := (OptionsPosition.contracts pos * 100)%Z in
  let uncovered :=
    match stock_pos with
    | None => true
    | Some sp => (StockPosition.shares sp <? need)%Z
    end in
  if uncovered
  then Py.raise (Py.ValueError (Py.InsufficientCoverage need
                   (match stock_pos with Some sp => StockPosition.shares sp | None => 0%Z end)))
  else
    let premium := OptionsPosition.total_premium pos in
    do! add_cash premium
          ("Premium from selling " +:+ Py.str (OptionsPosition.contracts pos) +:+ " "
           +:+ OptionsPosition.symbol pos +:+ " call(s)") in
    upd (λ p, set_options_positions (options_positions p ++ [position]) p).

Definition assign_put (position : ref) (stock_price : Q) (current_date : Z)
  : Py.M world unit :=
  let! pos := deref position in
  let cost :=
    (OptionsPosition.strike pos * inject_Z (OptionsPosition.contracts pos) * 100)%Q in
  let shares := (OptionsPosition.contracts pos * 100)%Z in
  do! remove_cash cost
        ("Put assigned: bought " +:+ Py.str shares +:+ " shares of "
         +:+ OptionsPosition.symbol pos) in
  let stock_pos :=
    StockPosition.mk (OptionsPosition.symbol pos) shares (OptionsPosition.strike pos)
                     current_date true in
  do! upd (λ p, set_stock_positions
                  (<[OptionsPosition.symbol pos := stock_pos]> (stock_positions p)) p) in
  do! assign position (OptionsPosition.set_status ASSIGNED) in
  do! assign position (OptionsPosition.set_exit_date (Some current_date)) in
  do! assign position (OptionsPosition.set_stock_price_at_exit stock_price) in
  do! upd (λ p, set_closed_positions (closed_positions p ++ [position]) p) in
  remove_open position.

Definition assign_call (position : ref) (stock_price : Q) (current_date : Z)
  : Py.M world unit :=
  let! pos := deref position in
  let proceeds :=
    (OptionsPosition.strike pos * inject_Z (OptionsPosition.contracts pos) * 100)%Q in
  let shares := (OptionsPosition.contracts pos * 100)%Z in
  let! stock_pos := get (λ p, stock_positions p !! OptionsPosition.symbol pos) in
  do! match stock_pos with
      | Some sp =>
          if (StockPosition.shares sp =? shares)%Z
          then upd (λ p, set_stock_positions
                           (delete (OptionsPosition.symbol pos) (stock_positions p)) p)
          else upd (λ p, set_stock_positions
                           (<[OptionsPosition.symbol pos := StockPosition.sub_shares shares sp]>
                              (stock_positions p)) p)
      | None => Py.ret tt
      end in
  do! add_cash proceeds
        ("Call assigned: sold " +:+ Py.str shares +:+ " shares of "
         +:+ OptionsPosition.symbol pos) in
  do! assign position (OptionsPosition.set_status CALLED_AWAY) in
  do! assign position (OptionsPosition.set_exit_date (Some current_date)) in
  do! assign position (OptionsPosition.set_stock_price_at_exit stock_price) in
  do! upd (λ p, set_closed_positions (closed_positions p ++ [position]) p) in
  remove_open position.

Definition expire_worthless (position : ref) (current_date : Z) : Py.M world unit :=
  do! assign position (OptionsPosition.set_status EXPIRED_WORTHLESS) in
  do! assign position (OptionsPosition.set_exit_date (Some current_date)) in
  do! upd (λ p, set_closed_positions (closed_positions p ++ [position]) p) in
  remove_open position.

Definition get_total_value (current_prices : gmap string Q) (w : world) : Q :=
  let stock_value :=
    map_fold (λ symbol pos acc,
                (acc + StockPosition.current_value pos (default 0%Q (current_prices !! symbol)))%Q)
             0%Q (stock_positions (self w)) in
  (cash (self w) + stock_value)%Q.

Definition get_total_premium_collected (w : world) : Q :=
  let total (l : list ref) :=
    foldl (λ acc r, (acc + OptionsPosition.total_premium (heap w r))%Q) 0%Q l in
  (total (options_positions (self w)) + total (closed_positions (self w)))%Q.

End Portfolio.

(** ** Option pricing ([models/black_scholes.py]) *)

Module BlackScholes.

Section Pricing.

(** [np.log], [np.sqrt], [np.exp] and [scipy.stats.norm.cdf] are library
    functions outside the repository. *)
Variables np_log np_sqrt np_exp norm_cdf : Q → Q.

Definition calculate_d1 (S K T r sigma : Q) : Q :=
  ((np_log (S / K) + (r + (1 # 2) * sigma ^ 2) * T) / (sigma * np_sqrt T))%Q.

Definition calculate_d2 (d1 sigma T : Q) : Q :=
  (d1 - sigma * np_sqrt T)%Q.

Definition call_price (S K T r sigma : Q) : Q :=
  if Qle_bool T 0 then Qmax (S - K) 0
  else
    let d1 := calculate_d1 S K T r sigma in
    let d2 := calculate_d2 d1 sigma T in
    let call := (S * norm_cdf d1 - K * np_exp (- r * T) * norm_cdf d2)%Q in
    Qmax call 0.

Definition put_price (S K T r sigma : Q) : Q :=
  if Qle_bool T 0 then Qmax (K - S) 0
  else
    let d1 := calculate_d1 S K T r sigma in
    let d2 := calculate_d2 d1 sigma T in
    let put := (K * np_exp (- r * T) * norm_cdf (- d2) - S * norm_cdf (- d1))%Q in
    Qmax put 0.

Definition option_price (S K T r sigma : Q) (option_type : OptionType) : Q :=
  match option_type with
  | CALL => call_price S K T r sigma
  | PUT => put_price S K T r sigma
  end.

End Pricing.

End BlackScholes.

Definition generate_strike_prices (stock_price : Q) (num_strikes : Z) (spacing_pct : Q)
  : list Q :=
  let strikes :=
    (λ i : Z,
       let strike := (stock_price * (1 + inject_Z i * spacing_pct))%Q in
       if Qltb strike 50
       then (inject_Z (Py.round (strike * 2)) / 2)%Q
       else inject_Z (Py.round strike))
    <$> Py.range (- num_strikes) (num_strikes + 1) in
  Py.sorted (Py.set strikes).

(** The candidate of index [i] of the loop of [generate_strike_prices] and
    the rounding the loop body applies to it. *)
Definition strike_candidate (stock_price spacing_pct : Q) (i : Z) : Q :=
  (stock_price * (1 + inject_Z i * spacing_pct))%Q.

Definition round_strike (strike : Q) : Q :=
  if Qltb strike 50
  then (inject_Z (Py.round (strike * 2)) / 2)%Q
  else inject_Z (Py.round strike).

(** No two entries of a list are equal as numbers. *)
Definition distinct (l : list Q) : Prop := StronglySorted (λ a b, ¬ (a == b)%Q) l.

(** Strictly ascending. *)
Definition ascending (l : list Q) : Prop := StronglySorted Qlt l.

(** [x] is the multiple of [step] nearest to [c], and the even multiple
    when [c] lies half way between two of them. *)
Definition nearest_multiple (step c x : Q) : Prop :=
  ∃ k : Z,
    (x == inject_Z k * step)%Q
    ∧ (2 * Qabs (x - c) <= step)%Q
    ∧ ((2 * Qabs (x - c) == step)%Q → Z.even k = true).

(** ** The strike generator on double-precision numbers *)

(** IEEE 754 binary64 with the operations of the standard library's
    specification of floating-point arithmetic: products, sums and
    quotients are rounded to the nearest double, ties to even, and
    overflow gives an infinity. *)
Module Float.

Definition prec : Z := 53.
Definition emax : Z := 1024.

Definition t : Type := spec_float.

Definition mul (x y : t) : t := SFmul prec emax x y.
Definition add (x y : t) : t := SFadd prec emax x y.
Definition div (x y : t) : t := SFdiv prec emax x y.

(** The double nearest to an integer (an infinity when it is out of
    range). *)
Definition of_Z (n : Z) : t := binary_normalize prec emax n 0 false.

(** A decimal literal such as [0.025]: the double nearest to [num / den],
    for [num] and [den] below [2^53]. *)
Definition literal (num : Z) (den : positive) : t := div (of_Z num) (of_Z (Z.pos den)).

Definition is_finite (x : t) : bool :=
  match x with
  | S754_zero _ | S754_finite _ _ _ => true
  | S754_infinity _ | S754_nan => false
  end.

(** The mantissa and the exponent are those of a binary64 number. *)
Definition is_double (x : t) : bool := valid_binary prec emax x.

(** The number a finite double stands for. *)
Definition to_Q (x : t) : Q :=
  match x with
  | S754_finite s m e => (inject_Z (if s then Z.neg m else Z.pos m) * 2 ^ e)%Q
  | _ => 0%Q
  end.

(** What the conversions between [int] and [float] raise. *)
Inductive conversion_error : Type :=
| IntTooLarge
    (* OverflowError "int too large to convert to float" *)
| NaNToInteger
    (* ValueError "cannot convert float NaN to integer" *)
| InfinityToInteger.
    (* OverflowError "cannot convert float infinity to integer" *)

(** The conversion of an [int] operand of a mixed operation. *)
Definition of_int (n : Z) : conversion_error + t :=
  if is_finite (of_Z n) then inr (of_Z n) else inl IntTooLarge.

(** [round(x)] of a float: the nearest integer to its exact value, ties to
    the even one. *)
Definition round (x : t) : conversion_error + Z :=
  match x with
  | S754_nan => inl NaNToInteger
  | S754_infinity _ => inl InfinityToInteger
  | _ => inr (Py.round (to_Q x))
  end.

(** [x < n] for a float and an [int]: the exact values are compared; a NaN
    is below nothing. *)
Definition ltb_int (x : t) (n : Z) : bool :=
  match x with
  | S754_nan => false
  | S754_infinity negative => negative
  | _ => Qltb (to_Q x) (inject_Z n)
  end.

End Float.

Module Binary64.

(** [stock_price * (1 + i * spacing_pct)], every operation rounded. *)
Definition strike_candidate (stock_price spacing_pct : Float.t) (i : Z) : Float.t :=
  Float.mul stock_price (Float.add (Float.of_Z 1) (Float.mul (Float.of_Z i) spacing_pct)).

(** The two rounding branches of the loop body.  [round] returns an [int];
    in the first branch the quotient of that [int] by 2 is a double again
    (it is below [2^53] in size or even), so the division is exact and the
    strike is given by its value. *)
Definition round_strike (strike : Float.t) : Float.conversion_error + Q :=
  if Float.ltb_int strike 50
  then match Float.round (Float.mul strike (Float.of_Z 2)) with
       | inr n => inr (inject_Z n / 2)%Q
       | inl e => inl e
       end
  else match Float.round strike with
       | inr n => inr (inject_Z n)
       | inl e => inl e
       end.

(** One turn of the loop. *)
Definition strike (stock_price spacing_pct : Float.t) (i : Z) : Float.conversion_error + Q :=
  match Float.of_int i with
  | inr _ => round_strike (strike_candidate stock_price spacing_pct i)
  | inl e => inl e
  end.

(** The loop: the strikes in the order of the indices, or the first
    error. *)
Fixpoint collect (body : Z → Float.conversion_error + Q) (indices : list Z)
  : Float.conversion_error + list Q :=
  match indices with
  | [] => inr []
  | i :: indices =>
      match body i with
      | inr x =>
          match collect body indices with
          | inr strikes => inr (x :: strikes)
          | inl e => inl e
          end
      | inl e => inl e
      end
  end.

Definition generate_strike_prices (stock_price : Float.t) (num_strikes : Z)
    (spacing_pct : Float.t) : Float.conversion_error + list Q :=
  match collect (strike stock_price spacing_pct)
          (Py.range (- num_strikes) (num_strikes + 1)) with
  | inr strikes => inr (Py.sorted (Py.set strikes))
  | inl e => inl e
  end.

End Binary64.

(** ** Option pricing in exact arithmetic

    The pricing model once more, over the real numbers and with the library
    functions read as the functions they compute: [np.log] is [ln],
    [np.sqrt] is [sqrt], [np.exp] is [exp] and [norm.cdf] is the standard
    normal distribution function [Phi]. *)

Module Ideal.

Local Open Scope R_scope.

(** The Gaussian bell, without its normalisation. *)
Definition gauss (t : R) : R := exp (- (t * t) / 2).

(** The area under [gauss] between [0] and [x]. *)
Definition gauss_area : R -> R :=
  epsilon (inhabits (fun _ => 0))
    (fun G => G 0 = 0 /\ forall x, derivable_pt_lim G x (gauss x)).

(** The area under [gauss] over the half line: the least upper bound of
    the areas.  (Its value is [sqrt (PI / 2)]; the proofs do not need it.) *)
Definition gauss_half_mass : R :=
  epsilon (inhabits 0) (is_lub (fun y => exists x, y = gauss_area x)).

(** The standard normal distribution function and its density. *)
Definition Phi (x : R) : R := 1 / 2 + gauss_area x / (2 * gauss_half_mass).

Definition phi (x : R) : R := gauss x / (2 * gauss_half_mass).

(** The methods of [BlackScholes], with the same text as above. *)
Definition calculate_d1 (S K T r sigma : R) : R :=
  (ln (S / K) + (r + 1 / 2 * sigma ^ 2) * T) / (sigma * sqrt T).

Definition calculate_d2 (d1 sigma T : R) : R := d1 - sigma * sqrt T.

Definition call_price (S K T r sigma : R) : R :=
  if Rle_dec T 0 then Rmax (S - K) 0
  else
    let d1 := calculate_d1 S K T r sigma in
    let d2 := calculate_d2 d1 sigma T in
    let call := S * Phi d1 - K * exp (- r * T) * Phi d2 in
    Rmax call 0.

Definition put_price (S K T r sigma : R) : R :=
  if Rle_dec T 0 then Rmax (K - S) 0
  else
    let d1 := calculate_d1 S K T r sigma in
    let d2 := calculate_d2 d1 sigma T in
    let put := K * exp (- r * T) * Phi (- d2) - S * Phi (- d1) in
    Rmax put 0.

End Ideal.

(** ** Configuration ([config.py]) *)

Module config.

Definition STOCKS : list string :=
  ["AAPL"; "MSFT"; "JNJ"; "KO"; "XOM"; "V"; "GOOG"; "AXP"; "WMT"; "PG"].
Definition INITIAL_CAPITAL : Q := 100000.
Definition RISK_FREE_RATE : Q := 45 # 1000.

End config.

(** ** The simulation engine ([core/simulator.py]) *)

(** The dictionaries [_process_expirations] appends to [expired_events]. *)
Inductive Event : Type :=
| put_assigned (symbol : string) (strike : Q) (shares : Z) (total_cost stock_price : Q)
| expired_worthless (symbol : string) (strike : Q) (option_type : OptionType)
                    (premium_kept stock_price : Q)
| call_assigned (symbol : string) (strike : Q) (shares : Z) (total_proceeds stock_price : Q).

Module WheelSimulator.

Record t : Type := mk {
  portfolio : Portfolio.world;
  current_date : option Z;
  trading_dates : list Z;
  current_date_index : Z
}.

Definition set_portfolio (v : Portfolio.world) (s : t) : t :=
  mk v (current_date s) (trading_dates s) (current_date_index s).
Definition set_current_date (v : option Z) (s : t) : t :=
  mk (portfolio s) v (trading_dates s) (current_date_index s).
Definition set_trading_dates (v : list Z) (s : t) : t :=
  mk (portfolio s) (current_date s) v (current_date_index s).
Definition set_current_date_index (v : Z) (s : t) : t :=
  mk (portfolio s) (current_date s) (trading_dates s) v.

(** A call [self.portfolio.m(...)]. *)
Definition on_portfolio {A} (m : Py.M Portfolio.world A) : Py.M t A :=
  Py.zoom portfolio set_portfolio m.

(** [OptionsPosition(...)]: a new object in the store. *)
Definition new_position (pos : OptionsPosition.t) : Py.M t ref :=
  on_portfolio
    (λ w, Py.Return (Portfolio.fresh w)
            (Portfolio.World (<[Portfolio.fresh w := pos]> (Portfolio.heap w))
                             (S (Portfolio.fresh w)) (Portfolio.self w))).

Section Engine.

(** The market data provider ([DataFetcher], backed by downloaded price
    tables) and the numeric library functions the pricing model calls. *)
Variable get_price_at_date : string → option Z → Q.
Variable calculate_historical_volatility : string → option Z → Q.
Variable get_available_dates : string → list Z.
Variables np_log np_sqrt np_exp norm_cdf : Q → Q.

Definition __init__ (objects : ref → OptionsPosition.t) : t :=
  mk (Portfolio.World objects 0%nat (Portfolio.__init__ config.INITIAL_CAPITAL))
     None [] 0.

Definition initialize : Py.M t unit :=
  let first_symbol := default String.EmptyString (config.STOCKS !! 0%nat) in
  do! Py.modify (set_trading_dates (get_available_dates first_symbol)) in
  let! dates := Py.gets trading_dates in
  match dates with
  | [] => Py.raise (Py.ValueError Py.NoTradingDates)
  | d :: _ =>
      do! Py.modify (set_current_date (Some d)) in
      Py.modify (set_current_date_index 0)
  end.

(** One turn of the loop of [_process_expirations]. *)
Definition process_position (position : ref) (expired_events : list Event)
  : Py.M t (list Event) :=
  let! pos := on_portfolio (Portfolio.deref position) in
  let! today := Py.gets current_date in
  match today with
  | None => Py.raise Py.TypeError
  | Some now =>
      if OptionsPosition.is_expired pos now then
        let stock_price := get_price_at_date (OptionsPosition.symbol pos) today in
        let symbol := OptionsPosition.symbol pos in
        let strike := OptionsPosition.strike pos in
        let contracts := OptionsPosition.contracts pos in
        match OptionsPosition.option_type pos with
        | PUT =>
            if Qltb stock_price strike then
              do! on_portfolio (Portfolio.assign_put position stock_price now) in
              Py.ret (expired_events ++
                        [put_assigned symbol strike (contracts * 100)%Z
                           (strike * inject_Z contracts * 100)%Q stock_price])%list
            else
              do! on_portfolio (Portfolio.expire_worthless position now) in
              Py.ret (expired_events ++
                        [expired_worthless symbol strike PUT
                           (OptionsPosition.total_premium pos) stock_price])%list
        | CALL =>
            if Qltb strike stock_price then
              do! on_portfolio (Portfolio.assign_call position stock_price now) in
              Py.ret (expired_events ++
                        [call_assigned symbol strike (contracts * 100)%Z
                           (strike * inject_Z contracts * 100)%Q stock_price])%list
            else
              do! on_portfolio (Portfolio.expire_worthless position now) in
              Py.ret (expired_events ++
                        [expired_worthless symbol strike CALL
                           (OptionsPosition.total_premium pos) stock_price])%list
        end
      else Py.ret expired_events
  end.

Fixpoint for_each_position (positions : list ref) (expired_events : list Event)
  : Py.M t (list Event) :=
  match positions with
  | [] => Py.ret expired_events
  | position :: rest =>
      let! expired_events := process_position position expired_events in
      for_each_position rest expired_events
  end.

(** The loop runs over a copy of [options_positions] taken on entry. *)
Definition _process_expirations : Py.M t (list Event) :=
  let! positions := on_portfolio (Portfolio.get Portfolio.options_positions) in
  for_each_position positions [].

Definition advance_day (days : Z) : Py.M t (bool * list Event) :=
  do! Py.modify (λ s, set_current_date_index (current_date_index s + days)%Z s) in
  let! index := Py.gets current_date_index in
  let! dates := Py.gets trading_dates in
  if (Z.of_nat (length dates) <=? index)%Z then
    do! Py.modify (set_current_date_index (Z.of_nat (length dates) - 1)%Z) in
    Py.ret (false, [])
  else
    match Py.index dates index with
    | None => Py.raise Py.IndexError
    | Some d =>
        do! Py.modify (set_current_date (Some d)) in
        let! expired_events := _process_expirations in
        Py.ret (true, expired_events)
    end.

Definition get_current_prices (s : t) : gmap string Q :=
  foldl (λ prices symbol,
           let price := get_price_at_date symbol (current_date s) in
           <[symbol := if Qle_bool price 0 then 0%Q else price]> prices)
        ∅ config.STOCKS.

Definition sell_put_option (symbol : string) (strike : Q)
    (days_to_expiration contracts : Z) : Py.M t bool :=
  let! today := Py.gets current_date in
  let stock_price := get_price_at_date symbol today in
  let volatility := calculate_historical_volatility symbol today in
  let T := (inject_Z days_to_expiration / 365)%Q in
  let premium :=
    BlackScholes.put_price np_log np_sqrt np_exp norm_cdf
      stock_price strike T config.RISK_FREE_RATE volatility in
  let! index := Py.gets current_date_index in
  let! dates := Py.gets trading_dates in
  let future_index := Z.min (index + days_to_expiration) (Z.of_nat (length dates) - 1) in
  match Py.index dates future_index with
  | None => Py.raise Py.IndexError
  | Some expiration =>
      let! position :=
        new_position (OptionsPosition.new symbol PUT strike expiration premium
                        contracts today stock_price) in
      Py.try_except_ValueError
        (do! on_portfolio (Portfolio.sell_put position) in Py.ret true)
        (λ _, Py.ret false)
  end.

Definition sell_call_option (symbol : string) (strike : Q)
    (days_to_expiration contracts : Z) : Py.M t bool :=
  let! today := Py.gets current_date in
  let stock_price := get_price_at_date symbol today in
  let volatility := calculate_historical_volatility symbol today in
  let T := (inject_Z days_to_expiration / 365)%Q in
  let premium :=
    BlackScholes.call_price np_log np_sqrt np_exp norm_cdf
      stock_price strike T config.RISK_FREE_RATE volatility in
  let! index := Py.gets current_date_index in
  let! dates := Py.gets trading_dates in
  let future_index := Z.min (index + days_to_expiration) (Z.of_nat (length dates) - 1) in
  match Py.index dates future_index with
  | None => Py.raise Py.IndexError
  | Some expiration =>
      let! position :=
        new_position (OptionsPosition.new symbol CALL strike expiration premium
                        contracts today stock_price) in
      Py.try_except_ValueError
        (do! on_portfolio (Portfolio.sell_call position) in Py.ret true)
        (λ _, Py.ret false)
  end.

End Engine.

End WheelSimulator.

(** ** Sequences of ledger calls *)

(** A call of one of the five state-changing methods of [Portfolio]. *)
Inductive ledger_call : Type :=
| SellPut (position : ref)
| SellCall (position : ref)
| AssignPut (position : ref) (stock_price : Q) (current_date : Z)
| AssignCall (position : ref) (stock_price : Q) (current_date : Z)
| ExpireWorthless (position : ref) (current_date : Z).

Definition callee (c : ledger_call) : ref :=
  match c with
  | SellPut p | SellCall p | AssignPut p _ _ | AssignCall p _ _ | ExpireWorthless p _ => p
  end.

Definition perform (c : ledger_call) : Py.M Portfolio.world unit :=
  match c with
  | SellPut p => Portfolio.sell_put p
  | SellCall p => Portfolio.sell_call p
  | AssignPut p price date => Portfolio.assign_put p price date
  | AssignCall p price date => Portfolio.assign_call p price date
  | ExpireWorthless p date => Portfolio.expire_worthless p date
  end.

(** The caller goes on after a rejected call, from the state it left. *)
Definition run (calls : list ledger_call) (w : Portfolio.world) : Portfolio.world :=
  foldl (λ w c, Py.final (perform c w)) w calls.

(** The amounts of a contract are not negative (the data model asks for
    [strike > 0] and [contracts >= 1]; a premium is a price received). *)
Definition nonneg_terms (pos : OptionsPosition.t) : Prop :=
  (0 <= OptionsPosition.strike pos)%Q
  ∧ (0 <= OptionsPosition.contracts pos)%Z
  ∧ (0 <= OptionsPosition.premium_received pos)%Q.

(** The terms of a contract that the ledger never assigns to. *)
Definition terms (pos : OptionsPosition.t) : Q * Z * Q :=
  (OptionsPosition.strike pos, OptionsPosition.contracts pos,
   OptionsPosition.premium_received pos).

Definition cash_ok (w : Portfolio.world) : Prop :=
  (0 <= Portfolio.cash (Portfolio.self w))%Q.

(** [w'] is a state a method may leave [w] in: cash stays non-negative and
    no contract changes its terms. *)
Definition keeps (w w' : Portfolio.world) : Prop :=
  (cash_ok w → cash_ok w')
  ∧ ∀ r, terms (Portfolio.heap w' r) = terms (Portfolio.heap w r).

(** A caller that advances the clock several times in a row and collects
    what each call returns. *)
Fixpoint advance_days (get_price_at_date : string → option Z → Q) (steps : list Z)
  : Py.M WheelSimulator.t (list (bool * list Event)) :=
  match steps with
  | [] => Py.ret []
  | days :: steps =>
      let! result := WheelSimulator.advance_day get_price_at_date days in
      let! results := advance_days get_price_at_date steps in
      Py.ret (result :: results)
  end.

(** ** Vocabulary of the clock properties *)

(** The state an overshooting [advance_day] leaves: only the index moves. *)
Definition clamped (s : WheelSimulator.t) : WheelSimulator.t :=
  WheelSimulator.mk (WheelSimulator.portfolio s) (WheelSimulator.current_date s)
     (WheelSimulator.trading_dates s)
     (Z.of_nat (length (WheelSimulator.trading_dates s)) - 1).

(** Two engine states agree on the clock. *)
Definition same_clock (s s' : WheelSimulator.t) : Prop :=
  WheelSimulator.current_date s' = WheelSimulator.current_date s
  ∧ WheelSimulator.trading_dates s' = WheelSimulator.trading_dates s
  ∧ WheelSimulator.current_date_index s' = WheelSimulator.current_date_index s.

(** The current date is the trading date stored at the current index. *)
Definition in_step (s : WheelSimulator.t) : Prop :=
  WheelSimulator.current_date s
  = Py.index (WheelSimulator.trading_dates s) (WheelSimulator.current_date_index s).

(** ** Sample data *)

Module Example.

(** One put, struck at 50, and one call, struck at 55, on the same symbol;
    both expire on day 10 and were sold on day 0 for 2 a share. *)
Definition put_50 : OptionsPosition.t :=
  OptionsPosition.new "XYZ" PUT 50 10 2 1 (Some 0%Z) 52.
Definition call_55 : OptionsPosition.t :=
  OptionsPosition.new "XYZ" CALL 55 10 2 1 (Some 0%Z) 52.

Definition objects (r : ref) : OptionsPosition.t :=
  match r with
  | O => put_50
  | _ => call_55
  end.

Definition world (cash : Q) (holdings : gmap string StockPosition.t)
    (open : list ref) : Portfolio.world :=
  Portfolio.World objects 2 (Portfolio.mk cash cash holdings open [] []).

Definition xyz (shares : Z) (cost_basis : Q) : StockPosition.t :=
  StockPosition.mk "XYZ" shares cost_basis 0 false.

(** Sell the put, have it assigned at 45, then try to expire it. *)
Definition calls : list ledger_call :=
  [SellPut 0; AssignPut 0 45 10; ExpireWorthless 0 10].

(** An engine on its second trading date out of four, and flat prices. *)
Definition engine : WheelSimulator.t :=
  WheelSimulator.mk (world 10000 ∅ []) (Some 1%Z) [0; 1; 2; 10]%Z 1.

Definition prices (symbol : string) (date : option Z) : Q := 45.

End Example.

(** ** Vocabulary of the further properties *)

(** The amount a transaction moves, with its sign, and the net amount a
    log records. *)
Definition signed_amount (t : Transaction) : Q :=
  match tx_type t with
  | cash_in => tx_amount t
  | cash_out => (- tx_amount t)%Q
  end.

Definition log_balance (log : list Transaction) : Q :=
  foldr (λ t acc, (signed_amount t + acc)%Q) 0%Q log.

(** [w'] continues the books of [w]: the same initial capital, the closed
    list and the log only extended, and the cash moved by what the new log
    entries record. *)
Definition continues (w w' : Portfolio.world) : Prop :=
  Portfolio.initial_capital (Portfolio.self w') = Portfolio.initial_capital (Portfolio.self w)
  ∧ Portfolio.closed_positions (Portfolio.self w)
    `prefix_of` Portfolio.closed_positions (Portfolio.self w')
  ∧ ∃ entries,
      Portfolio.transaction_history (Portfolio.self w')
      = Portfolio.transaction_history (Portfolio.self w) ++ entries
      ∧ (Portfolio.cash (Portfolio.self w')
         == Portfolio.cash (Portfolio.self w) + log_balance entries)%Q.

(** The calls that close a position. *)
Definition closes (c : ledger_call) : bool :=
  match c with
  | AssignPut _ _ _ | AssignCall _ _ _ | ExpireWorthless _ _ => true
  | SellPut _ | SellCall _ => false
  end.

(** The fields of a contract that are fixed at the sale. *)
Definition contract (pos : OptionsPosition.t) : string * OptionType * Q * Z * Q * Z :=
  (OptionsPosition.symbol pos, OptionsPosition.option_type pos, OptionsPosition.strike pos,
   OptionsPosition.expiration pos, OptionsPosition.premium_received pos,
   OptionsPosition.contracts pos).

(** The lists of a ledger are in order: no position is listed twice, the
    open ones have status [OPEN], the closed ones another status, and all
    are objects that have been created. *)
Definition well_formed (w : Portfolio.world) : Prop :=
  NoDup (Portfolio.options_positions (Portfolio.self w)
         ++ Portfolio.closed_positions (Portfolio.self w))
  ∧ (∀ r, r ∈ Portfolio.options_positions (Portfolio.self w) →
       OptionsPosition.status (Portfolio.heap w r) = OPEN)
  ∧ (∀ r, r ∈ Portfolio.closed_positions (Portfolio.self w) →
       OptionsPosition.status (Portfolio.heap w r) ≠ OPEN)
  ∧ (∀ r, r ∈ Portfolio.options_positions (Portfolio.self w)
            ++ Portfolio.closed_positions (Portfolio.self w) →
       (r < Portfolio.fresh w)%nat).

(** [position.is_expired(now)] for a position of the store. *)
Definition expired_at (w : Portfolio.world) (now : Z) (r : ref) : bool :=
  OptionsPosition.is_expired (Portfolio.heap w r) now.

(** The ledger call by which [_process_expirations] resolves an expired
    position, and the event it reports for it. *)
Definition resolution (get_price_at_date : string → option Z → Q)
    (w : Portfolio.world) (position : ref) (now : Z) : ledger_call :=
  let pos := Portfolio.heap w position in
  let stock_price := get_price_at_date (OptionsPosition.symbol pos) (Some now) in
  match OptionsPosition.option_type pos with
  | PUT => if Qltb stock_price (OptionsPosition.strike pos)
           then AssignPut position stock_price now
           else ExpireWorthless position now
  | CALL => if Qltb (OptionsPosition.strike pos) stock_price
            then AssignCall position stock_price now
            else ExpireWorthless position now
  end.

Definition resolution_event (get_price_at_date : string → option Z → Q)
    (w : Portfolio.world) (position : ref) (now : Z) : Event :=
  let pos := Portfolio.heap w position in
  let stock_price := get_price_at_date (OptionsPosition.symbol pos) (Some now) in
  let symbol := OptionsPosition.symbol pos in
  let strike := OptionsPosition.strike pos in
  let contracts := OptionsPosition.contracts pos in
  match OptionsPosition.option_type pos with
  | PUT => if Qltb stock_price strike
           then put_assigned symbol strike (contracts * 100)%Z
                  (strike * inject_Z contracts * 100)%Q stock_price
           else expired_worthless symbol strike PUT
                  (OptionsPosition.total_premium pos) stock_price
  | CALL => if Qltb strike stock_price
            then call_assigned symbol strike (contracts * 100)%Z
                   (strike * inject_Z contracts * 100)%Q stock_price
            else expired_worthless symbol strike CALL
                   (OptionsPosition.total_premium pos) stock_price
  end.

(** The store after [OptionsPosition(...)] has created an object. *)
Definition allocate (pos : OptionsPosition.t) (w : Portfolio.world) : Portfolio.world :=
  Portfolio.World (<[Portfolio.fresh w := pos]> (Portfolio.heap w))
    (S (Portfolio.fresh w)) (Portfolio.self w).

(** The cash is not negative and the open contracts have amounts that are
    not negative. *)
Definition funded (w : Portfolio.world) : Prop :=
  cash_ok w
  ∧ ∀ r, r ∈ Portfolio.options_positions (Portfolio.self w) →
      nonneg_terms (Portfolio.heap w r).

(** ** Sessions *)

(** A call of one of the state-changing methods of [WheelSimulator]. *)
Inductive engine_call : Type :=
| Initialize
| AdvanceDay (days : Z)
| SellPutOption (symbol : string) (strike : Q) (days_to_expiration contracts : Z)
| SellCallOption (symbol : string) (strike : Q) (days_to_expiration contracts : Z).

Section Session.

Variable get_price_at_date : string → option Z → Q.
Variable calculate_historical_volatility : string → option Z → Q.
Variable get_available_dates : string → list Z.
Variables np_log np_sqrt np_exp norm_cdf : Q → Q.

(** The contract [sell_put_option] and [sell_call_option] write for an
    order, once the expiration date is known. *)
Definition ordered_contract (s : WheelSimulator.t) (option_type : OptionType)
    (symbol : string) (strike : Q) (days_to_expiration contracts expiration : Z)
  : OptionsPosition.t :=
  let today := WheelSimulator.current_date s in
  let stock_price := get_price_at_date symbol today in
  let volatility := calculate_historical_volatility symbol today in
  OptionsPosition.new symbol option_type strike expiration
    (BlackScholes.option_price np_log np_sqrt np_exp norm_cdf stock_price strike
       (inject_Z days_to_expiration / 365)%Q config.RISK_FREE_RATE volatility option_type)
    contracts today stock_price.

(** The index of the expiration date of an order. *)
Definition future_index (s : WheelSimulator.t) (days_to_expiration : Z) : Z :=
  Z.min (WheelSimulator.current_date_index s + days_to_expiration)
        (Z.of_nat (length (WheelSimulator.trading_dates s)) - 1).

(** An order is within the domain of the pricing model: either nothing
    is left to expiry, so that the price is the intrinsic value, or the
    stock price, the strike and the volatility are positive numbers.
    Outside of it the Python code does not compute a number: a strike of 0
    makes [S / K] raise [ZeroDivisionError], which neither order method
    catches, and a volatility that is not a number (the estimate of the
    data provider on the second trading date, a standard deviation of one
    return) makes the premium, and then the cash, not a number. *)
Definition priceable (s : WheelSimulator.t) (symbol : string) (strike : Q)
    (days_to_expiration : Z) : Prop :=
  (days_to_expiration <= 0)%Z
  ∨ ((0 < get_price_at_date symbol (WheelSimulator.current_date s))%Q
     ∧ (0 < strike)%Q
     ∧ (0 < calculate_historical_volatility symbol (WheelSimulator.current_date s))%Q).

(** An order asks for a strike and a number of contracts that are not
    negative and can be priced in the state it is made in. *)
Definition sane (c : engine_call) (s : WheelSimulator.t) : Prop :=
  match c with
  | SellPutOption symbol strike days_to_expiration contracts
  | SellCallOption symbol strike days_to_expiration contracts =>
      (0 <= strike)%Q ∧ (0 <= contracts)%Z ∧ priceable s symbol strike days_to_expiration
  | Initialize | AdvanceDay _ => True
  end.

(** The state a call leaves, whether it returns or raises. *)
Definition engine_step (c : engine_call) (s : WheelSimulator.t) : WheelSimulator.t :=
  match c with
  | Initialize => Py.final (WheelSimulator.initialize get_available_dates s)
  | AdvanceDay days => Py.final (WheelSimulator.advance_day get_price_at_date days s)
  | SellPutOption symbol strike days_to_expiration contracts =>
      Py.final (WheelSimulator.sell_put_option get_price_at_date
                  calculate_historical_volatility np_log np_sqrt np_exp norm_cdf
                  symbol strike days_to_expiration contracts s)
  | SellCallOption symbol strike days_to_expiration contracts =>
      Py.final (WheelSimulator.sell_call_option get_price_at_date
                  calculate_historical_volatility np_log np_sqrt np_exp norm_cdf
                  symbol strike days_to_expiration contracts s)
  end.

(** The caller goes on after a call that raised, from the state it left. *)
Definition session (calls : list engine_call) (s : WheelSimulator.t) : WheelSimulator.t :=
  foldl (λ s c, engine_step c s) s calls.


End Session.

(** ** More sample data *)

Module Sample.

(** The sample engine with some cash and some of the two sample contracts
    open; it stands on day 1 of the dates 0, 1, 2, 10. *)
Definition engine (cash : Q) (open : list ref) : WheelSimulator.t :=
  WheelSimulator.mk (Example.world cash ∅ open) (Some 1%Z) [0; 1; 2; 10]%Z 1.

End Sample.

(** * Properties *)

(** ** Comparisons and the Python runtime *)

Lemma Qltb_true (a b : Q) : Qltb a b = true ↔ (a < b)%Q.
Proof.
  unfold Qltb. rewrite negb_true_iff, <- not_true_iff_false, Qle_bool_iff.
  split; [apply Qnot_le_lt | apply Qlt_not_le].
Qed.

Lemma Qltb_false (a b : Q) : Qltb a b = false ↔ (b <= a)%Q.
Proof. unfold Qltb. rewrite negb_false_iff. apply Qle_bool_iff. Qed.

Lemma Qltb_spec (a b : Q) : reflect (a < b)%Q (Qltb a b).
Proof.
  destruct (Qltb a b) eqn:E; constructor.
  - by apply Qltb_true.
  - apply Qltb_false in E. by apply Qle_not_lt.
Qed.

Lemma list_remove_first {A} (same : A → bool) (l1 l2 : list A) (x : A) :
  (∀ y, y ∈ l1 → same y = false) → same x = true →
  Py.list_remove same (l1 ++ x :: l2) = Some (l1 ++ l2).
Proof.
  intros Hl1 Hx. induction l1 as [|y l1 IH]; simpl.
  - by rewrite Hx.
  - rewrite (Hl1 y) by set_solver. rewrite IH; [done|].
    intros z Hz. apply Hl1. set_solver.
Qed.

(** ** Rejected put sales *)

Section SellPut.

Import Portfolio.

(** C2. With less cash than [strike * contracts * 100], [sell_put] raises
    the "insufficient cash for cash-secured put" error and the state it
    leaves is the state it was called in: cash, open and closed positions,
    stock holdings, transaction log and every option object are as before. *)
Theorem sell_put_insufficient_collateral (w : world) (position : ref) :
  let pos := heap w position in
  let required := (OptionsPosition.strike pos * inject_Z (OptionsPosition.contracts pos) * 100)%Q in
  (cash (self w) < required)%Q →
  sell_put position w
  = Py.Raised (Py.ValueError (Py.InsufficientCollateral (cash (self w)) required)) w.
Proof.
  intros pos required Hlt.
  unfold sell_put, Py.bind, deref, get, Py.gets. fold pos. fold required.
  apply Qltb_true in Hlt. by rewrite Hlt.
Qed.

Lemma sell_put_insufficient_collateral_witness :
  (1000 < 50 * inject_Z 1 * 100)%Q
  ∧ sell_put 0 (Example.world 1000 ∅ [])
    = Py.Raised (Py.ValueError (Py.InsufficientCollateral 1000 (50 * inject_Z 1 * 100)))
        (Example.world 1000 ∅ []).
Proof.
  split; [reflexivity|].
  apply (sell_put_insufficient_collateral (Example.world 1000 ∅ []) 0%nat). reflexivity.
Defined.

End SellPut.

Lemma OptionsPosition_eqb_status (a b : OptionsPosition.t) :
  OptionsPosition.eqb a b = true → OptionsPosition.status a = OptionsPosition.status b.
Proof.
  unfold OptionsPosition.eqb. rewrite !andb_true_iff.
  intros [[[[_ H] _] _] _]. by destruct (OptionsPosition.status a), (OptionsPosition.status b).
Qed.

Section AssignPut.

Import Portfolio.

(** Closing a position that sits in the open list, once its status has been
    moved away from [OPEN], takes out its first occurrence. *)
Lemma remove_open_closed (w : world) (position : ref) (before after : list ref) :
  options_positions (self w) = before ++ position :: after →
  position ∉ before →
  (∀ r, r ∈ before → OptionsPosition.status (heap w r) = OPEN) →
  OptionsPosition.status (heap w position) ≠ OPEN →
  remove_open position w
  = Py.Return tt (World (heap w) (fresh w) (set_options_positions (before ++ after) (self w))).
Proof.
  intros Hl Hnot Hopen Hst. unfold remove_open. rewrite Hl.
  rewrite list_remove_first; [done| |].
  - intros y Hy. apply orb_false_iff. split.
    + apply Nat.eqb_neq. intros ->. done.
    + apply not_true_iff_false. intros E%OptionsPosition_eqb_status.
      rewrite Hopen in E by done. done.
  - by rewrite Nat.eqb_refl.
Qed.

(** C3. [assign_put] on a position of the open list (whose entries all
    have status [OPEN]): with [cash >= strike * contracts * 100] it debits
    exactly that amount, makes the holding of the symbol
    [contracts * 100] shares at cost basis [strike] flagged as assigned from
    a put (whatever was held before), marks the object [ASSIGNED] with the
    exit date and price, takes it out of the open list and appends it to the
    closed list; with less cash it raises the "insufficient cash" error and
    changes nothing.  The fields of the closed object are given one by one:
    status [ASSIGNED], exit date the date of the call, exit price the price
    of the call, and the eight other fields as they were. *)
Theorem assign_put_spec (w : world) (position : ref) (stock_price : Q) (current_date : Z) :
  let pos := heap w position in
  let cost := (OptionsPosition.strike pos * inject_Z (OptionsPosition.contracts pos) * 100)%Q in
  position ∈ options_positions (self w) →
  (∀ r, r ∈ options_positions (self w) → OptionsPosition.status (heap w r) = OPEN) →
  ((cost <= cash (self w))%Q →
   ∃ w' before after,
     assign_put position stock_price current_date w = Py.Return tt w'
     ∧ cash (self w') = (cash (self w) - cost)%Q
     ∧ stock_positions (self w')
       = <[OptionsPosition.symbol pos :=
             StockPosition.mk (OptionsPosition.symbol pos)
               (OptionsPosition.contracts pos * 100) (OptionsPosition.strike pos)
               current_date true]> (stock_positions (self w))
     ∧ heap w' position
       = OptionsPosition.set_stock_price_at_exit stock_price
           (OptionsPosition.set_exit_date (Some current_date)
              (OptionsPosition.set_status ASSIGNED pos))
     ∧ (∀ r, r ≠ position → heap w' r = heap w r)
     ∧ options_positions (self w) = before ++ position :: after
     ∧ (position ∉ before)
     ∧ options_positions (self w') = before ++ after
     ∧ closed_positions (self w') = closed_positions (self w) ++ [position]
     ∧ OptionsPosition.status (heap w' position) = ASSIGNED
     ∧ OptionsPosition.exit_date (heap w' position) = Some current_date
     ∧ OptionsPosition.stock_price_at_exit (heap w' position) = stock_price
     ∧ OptionsPosition.symbol (heap w' position) = OptionsPosition.symbol pos
     ∧ OptionsPosition.option_type (heap w' position) = OptionsPosition.option_type pos
     ∧ OptionsPosition.strike (heap w' position) = OptionsPosition.strike pos
     ∧ OptionsPosition.expiration (heap w' position) = OptionsPosition.expiration pos
     ∧ OptionsPosition.premium_received (heap w' position)
       = OptionsPosition.premium_received pos
     ∧ OptionsPosition.contracts (heap w' position) = OptionsPosition.contracts pos
     ∧ OptionsPosition.entry_date (heap w' position) = OptionsPosition.entry_date pos
     ∧ OptionsPosition.stock_price_at_entry (heap w' position)
       = OptionsPosition.stock_price_at_entry pos)
  ∧ ((cash (self w) < cost)%Q →
     assign_put position stock_price current_date w
     = Py.Raised (Py.ValueError (Py.InsufficientCash (cash (self w)) cost)) w).
Proof.
  intros pos cost Hin Hopen. split.
  - intros Hcash. apply Qltb_false in Hcash.
    destruct (list_elem_of_split_l _ _ Hin) as (before & after & Hl & Hnot).
    eexists _, before, after.
    unfold assign_put, remove_cash, Py.bind, deref, get, Py.gets, upd, assign, Py.modify.
    fold pos. fold cost. rewrite Hcash. cbn [self heap fresh].
    erewrite remove_open_closed; cbn [self heap fresh options_positions set_closed_positions
      set_stock_positions set_transaction_history set_cash]; try done.
    + split; [reflexivity|]. cbn.
      rewrite !fn_lookup_insert.
      repeat split; try done.
      intros r Hr. by rewrite !fn_lookup_insert_ne.
    + intros r Hr. rewrite !fn_lookup_insert_ne by (intros ->; done).
      apply Hopen. rewrite Hl. set_solver.
    + by rewrite !fn_lookup_insert.
  - intros Hcash. apply Qltb_true in Hcash.
    unfold assign_put, remove_cash, Py.bind, deref, get, Py.gets.
    fold pos. fold cost. by rewrite Hcash.
Qed.

Lemma assign_put_spec_witness :
  ∃ w', assign_put 0 45 10 (Example.world 10000 ∅ [0%nat]) = Py.Return tt w'
        ∧ cash (self w') = (10000 - 50 * inject_Z 1 * 100)%Q
        ∧ stock_positions (self w') = {[ "XYZ" := StockPosition.mk "XYZ" 100 50 10 true ]}
        ∧ OptionsPosition.status (heap w' 0%nat) = ASSIGNED
        ∧ OptionsPosition.exit_date (heap w' 0%nat) = Some 10%Z
        ∧ OptionsPosition.stock_price_at_exit (heap w' 0%nat) = 45%Q
        ∧ closed_positions (self w') = [0%nat].
Proof.
  destruct (assign_put_spec (Example.world 10000 ∅ [0%nat]) 0%nat 45 10) as [H _].
  - apply list_elem_of_here.
  - intros r Hr. apply list_elem_of_singleton in Hr. rewrite Hr. reflexivity.
  - destruct H as (w' & before & after & Hrun & Hcash & Hstock & _ & _ & _ & _ & _ & Hclosed
                   & Hstatus & Hdate & Hprice & _).
    + discriminate.
    + exists w'. repeat split; assumption.
Defined.

End AssignPut.

(** ** Cash never goes negative *)

Section CashInvariant.

Import Portfolio.

Lemma keeps_refl w : keeps w w.
Proof. by split. Qed.

Lemma keeps_trans w1 w2 w3 : keeps w1 w2 → keeps w2 w3 → keeps w1 w3.
Proof.
  intros [H1 T1] [H2 T2]. split; [auto|]. intros r. by rewrite T2, T1.
Qed.

Lemma remove_open_keeps position w : keeps w (Py.final (remove_open position w)).
Proof. unfold remove_open. case_match; [by split | apply keeps_refl]. Qed.

Lemma nonneg_amount (pos : OptionsPosition.t) (x : Q) :
  (0 <= x)%Q → (0 <= OptionsPosition.contracts pos)%Z →
  (0 <= x * inject_Z (OptionsPosition.contracts pos) * 100)%Q.
Proof.
  intros Hx Hc. assert (0 <= inject_Z (OptionsPosition.contracts pos))%Q.
  { change 0%Q with (inject_Z 0). by rewrite <- Zle_Qle. }
  apply Qmult_le_0_compat; [|lra]. by apply Qmult_le_0_compat.
Qed.

Ltac same_terms p r :=
  simpl; destruct (decide (p = r)) as [->|];
  [by rewrite !fn_lookup_insert | by rewrite !fn_lookup_insert_ne].

Ltac step_py :=
  unfold sell_put, sell_call, assign_put, assign_call, expire_worthless,
    add_cash, remove_cash, Py.bind, deref, get, upd, assign, Py.gets, Py.modify,
    Py.ret, Py.raise.

Lemma perform_keeps (c : ledger_call) (w : world) :
  nonneg_terms (heap w (callee c)) → keeps w (Py.final (perform c w)).
Proof.
  intros (Hs & Hc & Hp).
  destruct c as [p|p|p price date|p price date|p date]; simpl in *; step_py.
  - destruct (Qltb _ _); simpl; [apply keeps_refl|].
    split; [|done]. unfold cash_ok; simpl. intros H.
    pose proof (nonneg_amount _ _ Hp Hc). unfold OptionsPosition.total_premium. lra.
  - destruct (match _ with None => true | Some _ => _ end); simpl; [apply keeps_refl|].
    split; [|done]. unfold cash_ok; simpl. intros H.
    pose proof (nonneg_amount _ _ Hp Hc). unfold OptionsPosition.total_premium. lra.
  - destruct (Qltb _ _) eqn:E; simpl; [apply keeps_refl|].
    eapply keeps_trans; [|apply remove_open_keeps].
    apply Qltb_false in E. split.
    + unfold cash_ok; simpl. lra.
    + intros r. same_terms p r.
  - pose proof (nonneg_amount _ _ Hs Hc).
    destruct (stock_positions (self w) !! _) as [sp|]; [destruct (_ =? _)%Z|]; simpl;
      (eapply keeps_trans; [|apply remove_open_keeps]);
      (split; [unfold cash_ok; simpl; lra | intros r; same_terms p r]).
  - eapply keeps_trans; [|apply remove_open_keeps].
    split; [done|]. intros r. same_terms p r.
Qed.

Lemma run_keeps (calls : list ledger_call) (w : world) :
  (∀ c, c ∈ calls → nonneg_terms (heap w (callee c))) → keeps w (run calls w).
Proof.
  revert w. induction calls as [|c calls IH]; intros w Hok; [apply keeps_refl|].
  assert (keeps w (Py.final (perform c w))) as Hstep
    by (apply perform_keeps, Hok; set_solver).
  eapply keeps_trans; [exact Hstep|]. apply IH.
  intros c' Hc'. destruct Hstep as [_ Hterms].
  assert (nonneg_terms (heap w (callee c'))) as (Hs & Hc & Hp) by (apply Hok; set_solver).
  specialize (Hterms (callee c')). unfold terms in Hterms.
  injection Hterms as E1 E2 E3. unfold nonneg_terms. by rewrite E1, E2, E3.
Qed.

(** C1. Starting from a non-negative initial capital, the cash balance is
    non-negative after every prefix of every sequence of [sell_put],
    [sell_call], [assign_put], [assign_call] and [expire_worthless] calls on
    contracts whose strike, contract count and premium are not negative.
    A rejected call is allowed in the sequence: it leaves the cash as it
    was. *)
Theorem cash_never_negative (objects : ref → OptionsPosition.t) (next : ref)
    (initial_capital : Q) (calls : list ledger_call) (n : nat) :
  (0 <= initial_capital)%Q →
  (∀ c, c ∈ calls → nonneg_terms (objects (callee c))) →
  (0 <= cash (self (run (take n calls) (World objects next (__init__ initial_capital)))))%Q.
Proof.
  intros Hcap Hok.
  apply (run_keeps (take n calls) (World objects next (__init__ initial_capital))).
  - intros c Hc. apply Hok. by apply (subseteq_take n calls).
  - exact Hcap.
Qed.

Lemma cash_never_negative_witness :
  (0 <= cash (self (run (take 2%nat Example.calls)
                        (World Example.objects 2%nat (__init__ 10000)))))%Q.
Proof.
  apply (cash_never_negative Example.objects 2 10000 Example.calls 2).
  - discriminate.
  - intros c _. destruct (callee c); repeat split; discriminate.
Defined.

End CashInvariant.

(** ** Pricing at or after expiry *)

(** C4. With [T <= 0] the price is the intrinsic value, [max(S - K, 0)] for
    a call and [max(K - S, 0)] for a put, and it is the same for every rate,
    volatility, non-positive time and every behaviour of the numeric
    library: only the side, [S] and [K] matter. *)
Theorem expired_price_is_intrinsic
    (np_log np_sqrt np_exp norm_cdf : Q → Q) (S K T r sigma : Q) :
  (T <= 0)%Q →
  BlackScholes.call_price np_log np_sqrt np_exp norm_cdf S K T r sigma = Qmax (S - K) 0
  ∧ BlackScholes.put_price np_log np_sqrt np_exp norm_cdf S K T r sigma = Qmax (K - S) 0
  ∧ ∀ (np_log' np_sqrt' np_exp' norm_cdf' : Q → Q) (T' r' sigma' : Q)
      (option_type : OptionType),
      (T' <= 0)%Q →
      BlackScholes.option_price np_log' np_sqrt' np_exp' norm_cdf' S K T' r' sigma' option_type
      = BlackScholes.option_price np_log np_sqrt np_exp norm_cdf S K T r sigma option_type.
Proof.
  intros HT. apply Qle_bool_iff in HT.
  unfold BlackScholes.call_price, BlackScholes.put_price. rewrite HT.
  repeat split. intros ? ? ? ? T' r' sigma' [] HT'; apply Qle_bool_iff in HT'; simpl;
    unfold BlackScholes.call_price, BlackScholes.put_price; by rewrite HT, HT'.
Qed.

Lemma expired_price_is_intrinsic_witness :
  BlackScholes.call_price Qinv Qinv Qinv Qinv 52 50 0 (45 # 1000) (3 # 10) = 2%Q
  ∧ BlackScholes.put_price Qinv Qinv Qinv Qinv 52 50 0 (45 # 1000) (3 # 10) = 0%Q.
Proof.
  destruct (expired_price_is_intrinsic Qinv Qinv Qinv Qinv 52 50 0 (45 # 1000) (3 # 10))
    as (Hcall & Hput & _).
  - discriminate.
  - split; [exact Hcall | exact Hput].
Defined.

(** The floor at zero makes every premium the engine charges non-negative. *)
Lemma option_price_nonneg (np_log np_sqrt np_exp norm_cdf : Q → Q)
    (S K T r sigma : Q) (option_type : OptionType) :
  (0 <= BlackScholes.option_price np_log np_sqrt np_exp norm_cdf S K T r sigma option_type)%Q.
Proof.
  destruct option_type; simpl;
    unfold BlackScholes.call_price, BlackScholes.put_price;
    destruct (Qle_bool T 0); apply Q.le_max_r.
Qed.

(** ** The clock at the end of the trading dates *)

Section Clock.

Import WheelSimulator.

Variable get_price_at_date : string → option Z → Q.

Lemma advance_day_overshoot (s : t) (days : Z) :
  (Z.of_nat (length (trading_dates s)) <= current_date_index s + days)%Z →
  advance_day get_price_at_date days s = Py.Return (false, []) (clamped s).
Proof.
  intros H. unfold advance_day, Py.bind, Py.modify, Py.gets; simpl.
  apply Z.leb_le in H. by rewrite H.
Qed.

Lemma advance_days_clamped (s : t) (steps : list Z) :
  Forall (λ days, 1 <= days)%Z steps →
  advance_days get_price_at_date steps (clamped s)
  = Py.Return ((λ _, (false, [])) <$> steps) (clamped s).
Proof.
  induction 1 as [|days steps Hdays _ IH]; [done|].
  simpl. unfold Py.bind. rewrite advance_day_overshoot by (simpl; lia).
  change (clamped (clamped s)) with (clamped s). by rewrite IH.
Qed.

(** C6. When [current_date_index + n] reaches the number of trading dates,
    [advance_day n] raises nothing: it returns [False] with an empty event
    list, leaves the portfolio, the current date and the dates untouched and
    sets the index to [len - 1], which lies in [[0, len-1]] for a non-empty
    calendar; every further advance of at least one day returns [False] with
    no events again and changes nothing. *)
Theorem advance_day_past_end (s : t) (n : Z) (steps : list Z) :
  (Z.of_nat (length (trading_dates s)) <= current_date_index s + n)%Z →
  Forall (λ days, 1 <= days)%Z steps →
  advance_day get_price_at_date n s = Py.Return (false, []) (clamped s)
  ∧ portfolio (clamped s) = portfolio s
  ∧ current_date (clamped s) = current_date s
  ∧ trading_dates (clamped s) = trading_dates s
  ∧ (trading_dates s ≠ [] →
     (0 <= current_date_index (clamped s) <= Z.of_nat (length (trading_dates s)) - 1)%Z)
  ∧ advance_days get_price_at_date (n :: steps) s
    = Py.Return ((false, []) :: ((λ _, (false, [])) <$> steps)) (clamped s).
Proof.
  intros Hn Hsteps. repeat split.
  - by apply advance_day_overshoot.
  - simpl. destruct (trading_dates s); [done|simpl; lia].
  - done.
  - simpl. unfold Py.bind. rewrite advance_day_overshoot by done.
    by rewrite advance_days_clamped.
Qed.

End Clock.

Lemma advance_day_past_end_witness :
  advance_days Example.prices [5; 1; 3]%Z Example.engine
  = Py.Return [(false, []); (false, []); (false, [])] (clamped Example.engine).
Proof.
  destruct (advance_day_past_end Example.prices Example.engine 5 [1; 3]%Z)
    as (_ & _ & _ & _ & _ & H).
  - simpl. lia.
  - repeat constructor; lia.
  - exact H.
Defined.

Section StaleDate.

Import WheelSimulator.

Variable get_price_at_date : string → option Z → Q.

Lemma same_clock_refl s : same_clock s s.
Proof. done. Qed.

Lemma same_clock_trans s1 s2 s3 : same_clock s1 s2 → same_clock s2 s3 → same_clock s1 s3.
Proof. intros (?&?&?) (?&?&?). repeat split; congruence. Qed.

Lemma on_portfolio_clock {A} (m : Py.M Portfolio.world A) (s : t) :
  same_clock s (Py.final (on_portfolio m s)).
Proof. unfold on_portfolio, Py.zoom. by destruct (m (portfolio s)). Qed.

Lemma bind_ret_clock {A} (m : Py.M t unit) (a : A) (s : t) :
  same_clock s (Py.final (m s)) → same_clock s (Py.final (Py.bind m (λ _, Py.ret a) s)).
Proof. unfold Py.bind. by destruct (m s). Qed.

Lemma process_position_clock (position : ref) (events : list Event) (s : t) :
  same_clock s (Py.final (process_position get_price_at_date position events s)).
Proof.
  unfold process_position. unfold Py.bind at 1. unfold on_portfolio at 1, Py.zoom.
  cbn [Portfolio.deref Py.gets]. unfold Py.bind at 1, Py.gets.
  assert (set_portfolio (portfolio s) s = s) as -> by by destruct s.
  destruct (current_date s); [|done].
  destruct (OptionsPosition.is_expired _ _); [|done].
  destruct (OptionsPosition.option_type _); destruct (Qltb _ _);
    apply bind_ret_clock, on_portfolio_clock.
Qed.

Lemma for_each_position_clock (positions : list ref) (events : list Event) (s : t) :
  same_clock s (Py.final (for_each_position get_price_at_date positions events s)).
Proof.
  revert events s. induction positions as [|p positions IH]; intros events s; [done|].
  simpl. unfold Py.bind.
  pose proof (process_position_clock p events s) as H.
  destruct (process_position get_price_at_date p events s) as [events' s'|e s']; [|done].
  eapply same_clock_trans; [exact H|apply IH].
Qed.

Lemma process_expirations_clock (s : t) :
  same_clock s (Py.final (_process_expirations get_price_at_date s)).
Proof.
  unfold _process_expirations, Py.bind, on_portfolio, Py.zoom; simpl.
  assert (set_portfolio (portfolio s) s = s) as -> by by destruct s.
  apply for_each_position_clock.
Qed.

(** An advance that lands on a date brings the current date back in step
    with the index, also when an assignment fails on the way. *)
Lemma advance_day_in_range (s : t) (days : Z) :
  (current_date_index s + days < Z.of_nat (length (trading_dates s)))%Z →
  is_Some (Py.index (trading_dates s) (current_date_index s + days)) →
  in_step (Py.final (advance_day get_price_at_date days s)).
Proof.
  intros Hlt [d Hd]. unfold advance_day, Py.bind, Py.modify, Py.gets; simpl.
  apply Z.leb_gt in Hlt. rewrite Hlt, Hd.
  set (s1 := set_current_date (Some d) _).
  pose proof (process_expirations_clock s1) as (Hdate & Hdates & Hidx).
  destruct (_process_expirations get_price_at_date s1) as [events s2|e s2];
    unfold in_step; simpl in *; by rewrite Hdate, Hdates, Hidx.
Qed.

(** C9. An [advance_day n] that overshoots the last trading date returns
    [False] with no events, sets the index to [len - 1] and touches neither
    the current date nor the portfolio.  If the clock was in step at an
    index [0 <= i < len - 1] of a calendar without repeated dates, the
    current date now differs from the date stored at the index; the next
    advance that lands on a date (it has to step by [0] or backwards) puts
    them in step again. *)
Theorem advance_day_overshoot_stale_date (s : t) (n : Z) :
  (Z.of_nat (length (trading_dates s)) <= current_date_index s + n)%Z →
  advance_day get_price_at_date n s = Py.Return (false, []) (clamped s)
  ∧ current_date_index (clamped s) = (Z.of_nat (length (trading_dates s)) - 1)%Z
  ∧ current_date (clamped s) = current_date s
  ∧ portfolio (clamped s) = portfolio s
  ∧ ((0 <= current_date_index s < Z.of_nat (length (trading_dates s)) - 1)%Z →
     NoDup (trading_dates s) → in_step s → ¬ in_step (clamped s))
  ∧ (∀ days,
       (days <= 0)%Z →
       is_Some (Py.index (trading_dates s) (Z.of_nat (length (trading_dates s)) - 1 + days)) →
       in_step (Py.final (advance_day get_price_at_date days (clamped s)))).
Proof.
  intros Hn. split; [by apply advance_day_overshoot|]. repeat split.
  - intros Hidx Hnodup Hstep Hstale. unfold in_step, clamped in *; simpl in *.
    rewrite Hstep in Hstale. unfold Py.index in Hstale.
    destruct (Z.leb_spec 0 (current_date_index s)); [|lia].
    destruct (Z.leb_spec 0 (Z.of_nat (length (trading_dates s)) - 1)); [|lia].
    destruct (trading_dates s !! Z.to_nat (current_date_index s)) as [d|] eqn:Hd.
    + symmetry in Hstale.
      pose proof (NoDup_lookup _ _ _ _ Hnodup Hd Hstale). lia.
    + apply lookup_ge_None in Hd. lia.
  - intros days Hdays Hsome. apply advance_day_in_range; simpl; [lia|done].
Qed.

End StaleDate.

Lemma advance_day_overshoot_stale_date_witness :
  WheelSimulator.advance_day Example.prices 5 Example.engine
  = Py.Return (false, []) (clamped Example.engine)
  ∧ WheelSimulator.current_date (clamped Example.engine) = Some 1%Z
  ∧ Py.index (WheelSimulator.trading_dates (clamped Example.engine))
             (WheelSimulator.current_date_index (clamped Example.engine)) = Some 10%Z
  ∧ ¬ in_step (clamped Example.engine).
Proof.
  destruct (advance_day_overshoot_stale_date Example.prices Example.engine 5)
    as (Hrun & _ & _ & _ & Hstale & _).
  - simpl. lia.
  - split; [exact Hrun|]. split; [reflexivity|]. split; [reflexivity|]. apply Hstale.
    + simpl. lia.
    + apply (bool_decide_unpack _). reflexivity.
    + reflexivity.
Defined.

(** ** Call assignment does not look at the coverage *)

Section AssignCall.

Import Portfolio.

(** C10. [assign_call] on a position of the open list succeeds when the
    symbol has no holding or a holding of another size than
    [contracts * 100]: cash is credited with [strike * contracts * 100], the
    object is marked [CALLED_AWAY] with exit date and price and moves from
    the open to the closed list.  An absent holding stays absent; a holding
    of another size is decremented by [contracts * 100], below zero when it
    was smaller. *)
Theorem assign_call_without_coverage (w : world) (position : ref) (stock_price : Q)
    (current_date : Z) :
  let pos := heap w position in
  let shares := (OptionsPosition.contracts pos * 100)%Z in
  let proceeds := (OptionsPosition.strike pos * inject_Z (OptionsPosition.contracts pos) * 100)%Q in
  let holding := stock_positions (self w) !! OptionsPosition.symbol pos in
  position ∈ options_positions (self w) →
  (∀ r, r ∈ options_positions (self w) → OptionsPosition.status (heap w r) = OPEN) →
  (∀ sp, holding = Some sp → StockPosition.shares sp ≠ shares) →
  ∃ w' before after,
    assign_call position stock_price current_date w = Py.Return tt w'
    ∧ cash (self w') = (cash (self w) + proceeds)%Q
    ∧ heap w' position
      = OptionsPosition.set_stock_price_at_exit stock_price
          (OptionsPosition.set_exit_date (Some current_date)
             (OptionsPosition.set_status CALLED_AWAY pos))
    ∧ options_positions (self w) = before ++ position :: after
    ∧ (position ∉ before)
    ∧ options_positions (self w') = before ++ after
    ∧ closed_positions (self w') = closed_positions (self w) ++ [position]
    ∧ stock_positions (self w')
      = match holding with
        | Some sp => <[OptionsPosition.symbol pos := StockPosition.sub_shares shares sp]>
                       (stock_positions (self w))
        | None => stock_positions (self w)
        end
    ∧ (∀ sp, holding = Some sp → (StockPosition.shares sp < shares)%Z →
       ∃ sp', stock_positions (self w') !! OptionsPosition.symbol pos = Some sp'
              ∧ StockPosition.shares sp' = (StockPosition.shares sp - shares)%Z
              ∧ (StockPosition.shares sp' < 0)%Z).
Proof.
  intros pos shares proceeds holding Hin Hopen Hsize.
  destruct (list_elem_of_split_l _ _ Hin) as (before & after & Hl & Hnot).
  assert (∀ r, r ∈ before → OptionsPosition.status (heap w r) = OPEN) as Hbefore.
  { intros r Hr. apply Hopen. rewrite Hl. set_solver. }
  unfold assign_call, add_cash, Py.bind, deref, get, Py.gets, upd, assign, Py.modify, Py.ret.
  fold pos. fold shares. fold proceeds. fold holding.
  destruct holding as [sp|] eqn:Hhold.
  - specialize (Hsize sp eq_refl). apply Z.eqb_neq in Hsize. rewrite Hsize.
    cbn [self heap fresh].
    eexists _, before, after.
    erewrite remove_open_closed; cbn [self heap fresh options_positions set_closed_positions
      set_stock_positions set_transaction_history set_cash]; try done.
    + split; [reflexivity|]. cbn. rewrite !fn_lookup_insert.
      repeat split; try done.
      intros sp0 [= <-] Hlt. exists (StockPosition.sub_shares shares sp).
      rewrite lookup_insert_eq. simpl. repeat split. lia.
    + intros r Hr. rewrite !fn_lookup_insert_ne by (intros ->; done). by apply Hbefore.
    + by rewrite !fn_lookup_insert.
  - cbn [self heap fresh].
    eexists _, before, after.
    erewrite remove_open_closed; cbn [self heap fresh options_positions set_closed_positions
      set_stock_positions set_transaction_history set_cash]; try done.
    + split; [reflexivity|]. cbn. rewrite !fn_lookup_insert. repeat split; done.
    + intros r Hr. rewrite !fn_lookup_insert_ne by (intros ->; done). by apply Hbefore.
    + by rewrite !fn_lookup_insert.
Qed.

Lemma assign_call_without_coverage_witness :
  ∃ w', assign_call 1 60 10 (Example.world 10000 {[ "XYZ" := Example.xyz 50 40 ]} [1%nat])
        = Py.Return tt w'
        ∧ cash (self w') = (10000 + 55 * inject_Z 1 * 100)%Q
        ∧ OptionsPosition.status (heap w' 1%nat) = CALLED_AWAY
        ∧ closed_positions (self w') = [1%nat]
        ∧ stock_positions (self w') = {[ "XYZ" := Example.xyz (-50) 40 ]}.
Proof.
  destruct (assign_call_without_coverage
              (Example.world 10000 {[ "XYZ" := Example.xyz 50 40 ]} [1%nat]) 1%nat 60 10)
    as (w' & before & after & Hrun & Hcash & Hobj & _ & _ & _ & Hclosed & Hstock & _).
  - apply list_elem_of_here.
  - intros r Hr. apply list_elem_of_singleton in Hr. rewrite Hr. reflexivity.
  - intros sp. simpl. rewrite lookup_singleton_eq. intros [= <-]. discriminate.
  - exists w'. rewrite Hobj, Hstock. simpl. rewrite lookup_singleton_eq.
    split; [exact Hrun|]. split; [exact Hcash|]. split; [reflexivity|].
    split; [exact Hclosed|]. apply insert_singleton_eq.
Defined.

End AssignCall.

(** ** Holdings after a put assignment *)

Section Holdings.

Import Portfolio.

Lemma remove_open_holdings (position : ref) (w : world) :
  stock_positions (self (Py.final (remove_open position w))) = stock_positions (self w).
Proof. unfold remove_open. by case_match. Qed.

(** The holdings [assign_put] leaves when the cash covers the cost, whether
    or not the position is found in the open list afterwards. *)
Lemma assign_put_holdings (w : world) (position : ref) (stock_price : Q) (current_date : Z) :
  let pos := heap w position in
  (OptionsPosition.strike pos * inject_Z (OptionsPosition.contracts pos) * 100
   <= cash (self w))%Q →
  stock_positions (self (Py.final (assign_put position stock_price current_date w)))
  = <[OptionsPosition.symbol pos :=
        StockPosition.mk (OptionsPosition.symbol pos) (OptionsPosition.contracts pos * 100)
          (OptionsPosition.strike pos) current_date true]> (stock_positions (self w)).
Proof.
  intros pos Hcash. apply Qltb_false in Hcash.
  unfold assign_put, remove_cash, Py.bind, deref, get, Py.gets, upd, assign, Py.modify.
  fold pos. rewrite Hcash. cbn [self heap fresh]. by rewrite remove_open_holdings.
Qed.

(** C7, as the code has it.  The holdings are a finite map, so a symbol has
    at most one holding.  A put assignment that the cash covers stores the
    new lot ([contracts * 100] shares at cost basis [strike]) under the
    symbol in place of whatever was held there: the previous holding is
    replaced, not added to; the holdings of other symbols stay as they
    were. *)
Theorem assign_put_replaces_holding (w : world) (position : ref) (stock_price : Q)
    (current_date : Z) :
  let pos := heap w position in
  let w' := Py.final (assign_put position stock_price current_date w) in
  (OptionsPosition.strike pos * inject_Z (OptionsPosition.contracts pos) * 100
   <= cash (self w))%Q →
  stock_positions (self w') !! OptionsPosition.symbol pos
  = Some (StockPosition.mk (OptionsPosition.symbol pos) (OptionsPosition.contracts pos * 100)
            (OptionsPosition.strike pos) current_date true)
  ∧ (∀ symbol, symbol ≠ OptionsPosition.symbol pos →
       stock_positions (self w') !! symbol = stock_positions (self w) !! symbol)
  ∧ NoDup (map_to_list (stock_positions (self w'))).*1.
Proof.
  intros pos w' Hcash. unfold w'. rewrite assign_put_holdings by done. fold pos.
  split; [apply lookup_insert_eq|]. split.
  - intros symbol Hne. by apply lookup_insert_ne.
  - apply NoDup_fst_map_to_list.
Qed.

Lemma assign_put_replaces_holding_witness :
  stock_positions
    (self (Py.final (assign_put 0 45 10
                       (Example.world 10000 {[ "XYZ" := Example.xyz 100 40 ]} [0%nat]))))
  !! "XYZ"
  = Some (StockPosition.mk "XYZ" 100 50 10 true).
Proof.
  destruct (assign_put_replaces_holding
              (Example.world 10000 {[ "XYZ" := Example.xyz 100 40 ]} [0%nat]) 0%nat 45 10)
    as (H & _ & _).
  - discriminate.
  - exact H.
Defined.

(** The claim as the specification words it: a put assigned on a symbol
    that is already held adds its shares to the holding.  The code keeps
    100 shares where 100 were held and 100 were bought. *)
Lemma holdings_merged_counterexample :
  ¬ (∀ (w : world) (position : ref) (stock_price : Q) (current_date : Z)
       (held : StockPosition.t),
       let pos := heap w position in
       (OptionsPosition.strike pos * inject_Z (OptionsPosition.contracts pos) * 100
        <= cash (self w))%Q →
       stock_positions (self w) !! OptionsPosition.symbol pos = Some held →
       ∃ merged,
         stock_positions (self (Py.final (assign_put position stock_price current_date w)))
         !! OptionsPosition.symbol pos = Some merged
         ∧ StockPosition.shares merged
           = (StockPosition.shares held + OptionsPosition.contracts pos * 100)%Z).
Proof.
  intros Hmerge.
  destruct (Hmerge (Example.world 10000 {[ "XYZ" := Example.xyz 100 40 ]} [0%nat])
              0%nat 45%Q 10%Z (Example.xyz 100 40)) as (merged & Hlook & Hshares).
  - discriminate.
  - apply lookup_singleton_eq.
  - rewrite assign_put_holdings in Hlook by discriminate.
    simpl in Hlook. rewrite lookup_insert_eq in Hlook.
    injection Hlook as <-. discriminate.
Qed.

End Holdings.

(** ** The strike ladder *)

Section Strikes.

Lemma round_nearest (x : Q) :
  (inject_Z (Py.round x) - (1 # 2) <= x <= inject_Z (Py.round x) + (1 # 2))%Q.
Proof.
  unfold Py.round. pose proof (Qfloor_le x) as Hlo. pose proof (Qlt_floor x) as Hhi.
  rewrite inject_Z_plus in Hhi. change (inject_Z 1) with 1%Q in Hhi.
  destruct (Qcompare_spec (x - inject_Z (Qfloor x)) (1 # 2)) as [He|Hl|Hg];
    [destruct (Z.even (Qfloor x))|..];
    rewrite ?inject_Z_plus; change (inject_Z 1) with 1%Q; lra.
Qed.

Lemma range_elem (a b i : Z) : i ∈ Py.range a b ↔ (a <= i < b)%Z.
Proof.
  unfold Py.range. rewrite list_elem_of_fmap. split.
  - intros (k & -> & Hk). apply elem_of_seq in Hk. lia.
  - intros H. exists (Z.to_nat (i - a)). split; [lia|]. apply elem_of_seq. lia.
Qed.

Lemma range_length (a b : Z) : length (Py.range a b) = Z.to_nat (b - a).
Proof. unfold Py.range. by rewrite length_fmap, length_seq. Qed.

Lemma set_elem (l : list Q) (x : Q) : x ∈ Py.set l → x ∈ l.
Proof.
  revert x. induction l as [|y l IH]; intros x; simpl; [done|].
  rewrite elem_of_cons, list_elem_of_filter. intros [->|[_ H]]; [left|right; auto].
Qed.

Lemma set_complete (l : list Q) (x : Q) : x ∈ l → ∃ y, y ∈ Py.set l ∧ (y == x)%Q.
Proof.
  induction l as [|z l IH]; simpl; [by intros ?%elem_of_nil|].
  intros [->|H]%elem_of_cons.
  - exists z. split; [left|reflexivity].
  - destruct (IH H) as (y & Hy & Hyx).
    destruct (Qeq_bool z y) eqn:E.
    + exists z. split; [left|]. apply Qeq_bool_iff in E. by rewrite E.
    + exists y. split; [|done]. right. apply list_elem_of_filter. split; [|done].
      by rewrite E.
Qed.

Lemma set_distinct (l : list Q) : distinct (Py.set l).
Proof.
  unfold distinct. induction l as [|z l IH]; simpl; constructor.
  - clear -IH. induction IH as [|a m Hm IHm Ha]; simpl; [constructor|].
    rewrite filter_cons. case_decide; [|done].
    constructor; [done|]. clear -Ha. induction Ha as [|b m Hb Hm IHm]; simpl; [constructor|].
    rewrite filter_cons. case_decide; [constructor|]; done.
  - apply Forall_forall. intros y [Hy _]%list_elem_of_filter Hzy.
    apply Qeq_bool_iff in Hzy. by rewrite Hzy in Hy.
Qed.

Lemma set_length (l : list Q) : (length (Py.set l) <= length l)%nat.
Proof.
  induction l as [|z l IH]; simpl; [done|].
  pose proof (length_filter (λ y : Q, negb (Qeq_bool z y)) (Py.set l)). lia.
Qed.

Lemma insort_perm (x : Q) (l : list Q) : Py.insort x l ≡ₚ x :: l.
Proof.
  induction l as [|y l IH]; simpl; [done|].
  destruct (Qltb x y); [done|]. rewrite IH. apply perm_swap.
Qed.

Lemma insort_ascending (x : Q) (l : list Q) :
  ascending l → Forall (λ y, ¬ (x == y)%Q) l → ascending (Py.insort x l).
Proof.
  unfold ascending. induction 1 as [|y l Hl IH Hy]; intros Hx; simpl.
  - repeat constructor.
  - apply Forall_cons in Hx as [Hxy Hx].
    destruct (Qltb_spec x y) as [Hlt|Hge].
    + constructor; [by constructor|]. constructor; [done|].
      eapply Forall_impl; [exact Hy|]. intros z Hz. simpl in Hz. lra.
    + assert (y < x)%Q as Hyx.
      { apply Qnot_lt_le in Hge. apply Qle_lteq in Hge as [?|E]; [done|].
        by symmetry in E. }
      constructor; [by apply IH|].
      rewrite insort_perm. by constructor.
Qed.

Lemma sorted_from (acc l : list Q) :
  ascending acc → distinct l →
  Forall (λ x, Forall (λ y, ¬ (x == y)%Q) acc) l →
  ascending (foldl (λ acc x, Py.insort x acc) acc l)
  ∧ foldl (λ acc x, Py.insort x acc) acc l ≡ₚ l ++ acc.
Proof.
  revert acc. induction l as [|x l IH]; intros acc Hacc Hl Hfresh; simpl; [done|].
  apply StronglySorted_inv in Hl as [Hl Hx].
  apply Forall_cons in Hfresh as [Hxacc Hfresh].
  destruct (IH (Py.insort x acc)) as [Hs Hp].
  - by apply insort_ascending.
  - done.
  - apply Forall_forall. intros z Hz.
    rewrite insort_perm. constructor.
    + rewrite Forall_forall in Hx. intros E. apply (Hx z Hz). by symmetry.
    + rewrite Forall_forall in Hfresh. by apply Hfresh.
  - split; [done|]. rewrite Hp, insort_perm. by rewrite Permutation_middle.
Qed.

Lemma sorted_distinct (l : list Q) :
  distinct l → ascending (Py.sorted l) ∧ Py.sorted l ≡ₚ l.
Proof.
  intros Hl. destruct (sorted_from [] l) as [Hs Hp]; [constructor|done| |].
  - apply Forall_forall. intros; constructor.
  - split; [done|]. by rewrite app_nil_r in Hp.
Qed.

Lemma generate_strike_prices_unfold (stock_price : Q) (num_strikes : Z) (spacing_pct : Q) :
  generate_strike_prices stock_price num_strikes spacing_pct
  = Py.sorted (Py.set ((λ i, round_strike (strike_candidate stock_price spacing_pct i))
                         <$> Py.range (- num_strikes) (num_strikes + 1))).
Proof. reflexivity. Qed.



Lemma round_proper (x y : Q) : (x == y)%Q → Py.round x = Py.round y.
Proof.
  intros E. unfold Py.round.
  assert (Qfloor x = Qfloor y) as -> by by apply Qfloor_comp.
  assert ((x - inject_Z (Qfloor y) ?= 1 # 2)%Q = (y - inject_Z (Qfloor y) ?= 1 # 2)%Q) as ->;
    [|done].
  apply Qcompare_comp; [by rewrite E|reflexivity].
Qed.

(** A tie goes to the even neighbour. *)
Lemma round_tie (x : Q) :
  (Qabs (inject_Z (Py.round x) - x) == 1 # 2)%Q → Z.even (Py.round x) = true.
Proof.
  unfold Py.round. pose proof (Qfloor_le x) as Hlo. pose proof (Qlt_floor x) as Hhi.
  rewrite inject_Z_plus in Hhi. change (inject_Z 1) with 1%Q in Hhi.
  destruct (Qcompare_spec (x - inject_Z (Qfloor x)) (1 # 2)) as [He|Hl|Hg].
  - intros _. destruct (Z.even (Qfloor x)) eqn:E; [done|].
    rewrite Z.even_add, E. reflexivity.
  - intros Habs. rewrite Qabs_neg in Habs by lra. lra.
  - rewrite inject_Z_plus. change (inject_Z 1) with 1%Q.
    intros Habs. rewrite Qabs_pos in Habs by lra. lra.
Qed.

(** *** Facts of double-precision arithmetic *)

Lemma mul_finite (x y : Float.t) :
  Float.is_finite (Float.mul x y) = true →
  Float.is_finite x = true ∧ Float.is_finite y = true.
Proof. by destruct x as [sx|sx| |sx mx ex], y as [sy|sy| |sy my ey]. Qed.

Lemma add_finite (x y : Float.t) :
  Float.is_finite (Float.add x y) = true →
  Float.is_finite x = true ∧ Float.is_finite y = true.
Proof.
  destruct x as [sx|sx| |sx mx ex], y as [sy|sy| |sy my ey]; try done.
  by destruct sx, sy.
Qed.

Lemma shift_52 (m : positive) :
  SpecFloat.iter_pos shr_1 52
    {| shr_m := Z.pos (Pos.iter xO m 52); shr_r := false; shr_s := false |}
  = {| shr_m := Z.pos m; shr_r := false; shr_s := false |}.
Proof. reflexivity. Qed.

Lemma shift_51 (m : positive) :
  SpecFloat.iter_pos shr_1 51
    {| shr_m := Z.pos (Pos.iter xO m 52); shr_r := false; shr_s := false |}
  = {| shr_m := Z.pos m~0; shr_r := false; shr_s := false |}.
Proof. reflexivity. Qed.

(** The operations return doubles: the mantissa a rounding leaves has
    at most 53 digits and the exponent [fexp] asks for. *)

Lemma iter_pos_nat {A : Type} (f : A → A) (p : positive) (x : A) :
  SpecFloat.iter_pos f p x = Nat.iter (Pos.to_nat p) f x.
Proof.
  revert x. induction p as [p IH|p IH|]; intros x.
  - change (SpecFloat.iter_pos f p~1 x)
      with (SpecFloat.iter_pos f p (SpecFloat.iter_pos f p (f x))).
    rewrite !IH, Pos2Nat.inj_xI.
    replace (S (2 * Pos.to_nat p)) with (Pos.to_nat p + (Pos.to_nat p + 1))%nat by lia.
    rewrite !Nat.iter_add. reflexivity.
  - change (SpecFloat.iter_pos f p~0 x)
      with (SpecFloat.iter_pos f p (SpecFloat.iter_pos f p x)).
    rewrite !IH, Pos2Nat.inj_xO.
    replace (2 * Pos.to_nat p)%nat with (Pos.to_nat p + Pos.to_nat p)%nat by lia.
    by rewrite Nat.iter_add.
  - reflexivity.
Qed.

Lemma digits_log2 (m : Z) : (0 < m)%Z → Zdigits2 m = (Z.log2 m + 1)%Z.
Proof.
  destruct m as [|p|p]; try lia. intros _. simpl.
  induction p as [p IH|p IH|]; simpl; [| |done].
  - rewrite Pos2Z.inj_succ, IH. destruct p; simpl; lia.
  - rewrite Pos2Z.inj_succ, IH. destruct p; simpl; lia.
Qed.

Lemma digits_nonneg (m : Z) : (0 <= Zdigits2 m)%Z.
Proof. destruct m; simpl; lia. Qed.

Lemma digits_mono (m n : Z) : (0 <= m <= n)%Z → (Zdigits2 m <= Zdigits2 n)%Z.
Proof.
  intros [Hm Hmn]. destruct (Z.eq_dec m 0%Z) as [->|Hpos].
  - apply digits_nonneg.
  - rewrite !digits_log2 by lia. pose proof (Z.log2_le_mono m n Hmn). lia.
Qed.

Lemma digits_div2 (m : Z) : (0 <= m)%Z → Zdigits2 (Z.div2 m) = Z.max 0 (Zdigits2 m - 1)%Z.
Proof. destruct m as [|[p|p|]|]; simpl; lia. Qed.

Lemma shr_1_m (r : shr_record) : (0 <= shr_m r)%Z → shr_m (shr_1 r) = Z.div2 (shr_m r).
Proof. destruct r as [[|[p|p|]|p] b s]; simpl; try done; lia. Qed.

Lemma shr_iter (k : nat) (r : shr_record) :
  (0 <= shr_m r)%Z →
  (0 <= shr_m (Nat.iter k shr_1 r))%Z
  ∧ Zdigits2 (shr_m (Nat.iter k shr_1 r)) = Z.max 0 (Zdigits2 (shr_m r) - Z.of_nat k)%Z.
Proof.
  intros Hr. induction k as [|k [IH1 IH2]]; simpl.
  - pose proof (digits_nonneg (shr_m r)). lia.
  - rewrite shr_1_m by done. split.
    + by apply Z.div2_nonneg.
    + rewrite digits_div2 by done. lia.
Qed.

Lemma shr_record_of_loc_m (m : Z) (l : location) : shr_m (shr_record_of_loc m l) = m.
Proof. by destruct l as [|[]]. Qed.

(** Shifting to the exponent [fexp] asks for leaves a canonical pair. *)
Lemma shr_fexp_canonical (m e : Z) (l : location) :
  (0 <= m)%Z →
  (e <= fexp Float.prec Float.emax (Zdigits2 m + e))%Z →
  let '(r, e') := shr_fexp Float.prec Float.emax m e l in
  (0 <= shr_m r)%Z ∧ fexp Float.prec Float.emax (Zdigits2 (shr_m r) + e') = e'.
Proof.
  intros Hm He. unfold shr_fexp, shr.
  destruct (fexp Float.prec Float.emax (Zdigits2 m + e) - e)%Z as [|n|n] eqn:Hn; [|  |lia].
  - rewrite shr_record_of_loc_m. split; [done|lia].
  - rewrite iter_pos_nat.
    destruct (shr_iter (Pos.to_nat n) (shr_record_of_loc m l)) as [H1 H2];
      [by rewrite shr_record_of_loc_m|].
    rewrite shr_record_of_loc_m in H2. split; [done|]. rewrite H2.
    revert He Hn. unfold fexp, emin, Float.prec, Float.emax.
    pose proof (digits_nonneg m). lia.
Qed.

Lemma round_nearest_even_above (m : Z) (l : location) :
  (m <= round_nearest_even m l)%Z.
Proof. destruct l as [|[]]; simpl; try lia. destruct (Z.even m); lia. Qed.

Lemma fexp_mono (a b : Z) :
  (a <= b)%Z → (fexp Float.prec Float.emax a <= fexp Float.prec Float.emax b)%Z.
Proof. unfold fexp. lia. Qed.

(** Rounding returns a double. *)
Lemma binary_round_aux_valid (s : bool) (m e : Z) (l : location) :
  (0 <= m)%Z →
  (e <= fexp Float.prec Float.emax (Zdigits2 m + e))%Z →
  Float.is_double (binary_round_aux Float.prec Float.emax s m e l) = true.
Proof.
  intros Hm He. unfold binary_round_aux.
  pose proof (shr_fexp_canonical m e l Hm He) as H1.
  destruct (shr_fexp Float.prec Float.emax m e l) as [r1 e1]. destruct H1 as [Hr1 He1].
  set (m2 := round_nearest_even (shr_m r1) (loc_of_shr_record r1)).
  pose proof (round_nearest_even_above (shr_m r1) (loc_of_shr_record r1)) as Hup. fold m2 in Hup.
  assert (e1 <= fexp Float.prec Float.emax (Zdigits2 m2 + e1))%Z as He2.
  { rewrite <- He1 at 1. apply fexp_mono.
    pose proof (digits_mono (shr_m r1) m2). lia. }
  pose proof (shr_fexp_canonical m2 e1 loc_Exact ltac:(lia) He2) as H2.
  destruct (shr_fexp Float.prec Float.emax m2 e1 loc_Exact) as [r3 e3]. destruct H2 as [Hr3 He3].
  destruct (shr_m r3) as [|q|q] eqn:Hq; [done| |lia].
  destruct (Z.leb e3 (Float.emax - Float.prec)) eqn:Hle; [|done].
  unfold Float.is_double, valid_binary, bounded, canonical_mantissa.
  rewrite Hle, andb_true_r. apply Z.eqb_eq. exact He3.
Qed.

Lemma digits_shl (m : positive) (d : positive) :
  digits2_pos (Pos.iter xO m d) = (digits2_pos m + d)%positive.
Proof.
  induction d as [|d IH] using Pos.peano_ind.
  - simpl. lia.
  - rewrite Pos.iter_succ. simpl. rewrite IH. lia.
Qed.

Lemma binary_normalize_valid (m e : Z) (szero : bool) :
  Float.is_double (binary_normalize Float.prec Float.emax m e szero) = true.
Proof.
  assert (∀ s p, Float.is_double (binary_round Float.prec Float.emax s p e) = true) as H.
  { intros s p. unfold binary_round, shl_align.
    destruct (fexp Float.prec Float.emax (Z.pos (digits2_pos p) + e) - e)%Z as [|d|d] eqn:Hd;
      apply binary_round_aux_valid; try done; cbn [Zdigits2]; try lia.
    rewrite digits_shl.
    replace (Z.pos (digits2_pos p + d) + fexp Float.prec Float.emax (Z.pos (digits2_pos p) + e))%Z
      with (Z.pos (digits2_pos p) + e)%Z by lia.
    lia. }
  destruct m; [done|apply H..].
Qed.

Lemma of_Z_valid (n : Z) : Float.is_double (Float.of_Z n) = true.
Proof. apply binary_normalize_valid. Qed.

Lemma add_valid (x y : Float.t) :
  Float.is_double x = true → Float.is_double y = true →
  Float.is_double (Float.add x y) = true.
Proof.
  destruct x as [sx|sx| |sx mx ex], y as [sy|sy| |sy my ey]; try done;
    try (by destruct sx, sy).
  intros _ _. apply binary_normalize_valid.
Qed.

Lemma mul_valid (x y : Float.t) :
  Float.is_double x = true → Float.is_double y = true →
  Float.is_double (Float.mul x y) = true.
Proof.
  destruct x as [sx|sx| |sx mx ex], y as [sy|sy| |sy my ey]; try done.
  unfold Float.is_double, valid_binary, bounded, canonical_mantissa.
  intros [Hx _]%andb_prop [Hy _]%andb_prop.
  apply Z.eqb_eq in Hx, Hy.
  apply binary_round_aux_valid; [done|].
  pose proof (digits_log2 (Z.pos mx) ltac:(done)) as Dx.
  pose proof (digits_log2 (Z.pos my) ltac:(done)) as Dy.
  pose proof (digits_log2 (Z.pos (mx * my)) ltac:(done)) as Dxy.
  pose proof (Z.log2_mul_below (Z.pos mx) (Z.pos my) ltac:(done) ltac:(done)) as Hlog.
  pose proof (Z.log2_nonneg (Z.pos mx)). pose proof (Z.log2_nonneg (Z.pos my)).
  rewrite Pos2Z.inj_mul in Dxy. simpl Zdigits2 in *.
  revert Hx Hy. unfold fexp, emin, Float.prec, Float.emax. lia.
Qed.

Lemma strike_candidate_valid (stock_price spacing_pct : Float.t) (i : Z) :
  Float.is_double stock_price = true → Float.is_double spacing_pct = true →
  Float.is_double (Binary64.strike_candidate stock_price spacing_pct i) = true.
Proof.
  intros Hprice Hspacing. unfold Binary64.strike_candidate.
  apply mul_valid; [done|]. apply add_valid; [apply of_Z_valid|].
  apply mul_valid; [apply of_Z_valid|done].
Qed.

(** Doubling a double is exact as long as it does not overflow. *)
Lemma double_exact (c : Float.t) :
  Float.is_double c = true →
  Float.is_finite (Float.mul c (Float.of_Z 2)) = true →
  (Float.to_Q (Float.mul c (Float.of_Z 2)) == 2 * Float.to_Q c)%Q.
Proof.
  destruct c as [s|s| |s m e]; try done.
  unfold Float.is_double, valid_binary, bounded, canonical_mantissa, fexp, emin.
  intros [Hcan He]%andb_prop. apply Z.eqb_eq in Hcan. apply Z.leb_le in He.
  change (Float.of_Z 2) with (S754_finite false 4503599627370496 (-51)).
  unfold Float.mul, SFmul, Float.prec, Float.emax in *.
  rewrite Pos.mul_comm.
  unfold binary_round_aux, shr_fexp, fexp, emin.
  set (d := Z.pos (digits2_pos m)) in *.
  assert (Zdigits2 (Z.pos (4503599627370496 * m)) = d + 52)%Z as ->.
  { change (4503599627370496 * m)%positive with (Pos.iter xO m 52).
    cbn. unfold d. lia. }
  change (4503599627370496 * m)%positive with (Pos.iter xO m 52).
  assert (xorb s false = s) as -> by by destruct s.
  destruct (Z.le_gt_cases (- 1074) (d + e - 53)) as [Hnormal|Hsub].
  - replace ((d + 52 + (e + -51) - 53) `max` (3 - 1024 - 53) - (e + -51))%Z with 52%Z by lia.
    cbn [shr shr_record_of_loc]. rewrite shift_52.
    cbn [loc_of_shr_record round_nearest_even shr_m shr_r shr_s Zdigits2 shr_record_of_loc].
    fold d.
    replace ((d + (e + -51 + 52) - 53) `max` (3 - 1024 - 53) - (e + -51 + 52))%Z
      with 0%Z by lia.
    cbn [shr shr_m].
    destruct (Z.leb _ _); [|done]. intros _.
    unfold Float.to_Q. replace (e + -51 + 52)%Z with (e + 1)%Z by lia.
    rewrite Qpower_plus by done. change (2 ^ 1)%Q with 2%Q. ring.
  - replace ((d + 52 + (e + -51) - 53) `max` (3 - 1024 - 53) - (e + -51))%Z with 51%Z by lia.
    cbn [shr shr_record_of_loc]. rewrite shift_51.
    cbn [loc_of_shr_record round_nearest_even shr_m shr_r shr_s Zdigits2 shr_record_of_loc
         digits2_pos].
    fold d.
    replace ((Z.pos (Pos.succ (digits2_pos m)) + (e + -51 + 51) - 53) `max` (3 - 1024 - 53)
             - (e + -51 + 51))%Z with 0%Z by lia.
    cbn [shr shr_m].
    destruct (Z.leb _ _); [|done]. intros _.
    unfold Float.to_Q. replace (e + -51 + 51)%Z with e by lia.
    assert (inject_Z (if s then Z.neg m~0 else Z.pos m~0)
            == 2 * inject_Z (if s then Z.neg m else Z.pos m))%Q as ->; [|ring].
    destruct s; unfold inject_Z, Qeq; simpl; lia.
Qed.

Lemma round_finite (x : Float.t) :
  Float.is_finite x = true → Float.round x = inr (Py.round (Float.to_Q x)).
Proof. by destruct x. Qed.

Lemma ltb_int_finite (x : Float.t) (n : Z) :
  Float.is_finite x = true → Float.ltb_int x n = Qltb (Float.to_Q x) (inject_Z n).
Proof. by destruct x. Qed.

(** *** The two rounding branches *)

Lemma round_strike_below_50_double (c : Float.t) :
  Float.is_double c = true →
  Float.is_finite (Float.mul c (Float.of_Z 2)) = true →
  (Float.to_Q c < 50)%Q →
  ∃ k : Z,
    Binary64.round_strike c = inr (inject_Z k / 2)%Q
    ∧ (Qabs (inject_Z k / 2 - Float.to_Q c) <= 1 # 4)%Q
    ∧ ((Qabs (inject_Z k / 2 - Float.to_Q c) == 1 # 4)%Q → Z.even k = true).
Proof.
  intros Hdouble Hfinite Hlow.
  destruct (mul_finite _ _ Hfinite) as [Hc _].
  pose proof (double_exact c Hdouble Hfinite) as Hexact.
  unfold Binary64.round_strike.
  rewrite (ltb_int_finite c 50 Hc), (round_finite _ Hfinite).
  apply Qltb_true in Hlow. change (inject_Z 50) with 50%Q. rewrite Hlow.
  rewrite (round_proper _ _ Hexact).
  set (k := Py.round (2 * Float.to_Q c)). exists k. split; [done|].
  pose proof (round_nearest (2 * Float.to_Q c)) as Hnear. fold k in Hnear.
  assert (inject_Z k / 2 - Float.to_Q c == (inject_Z k - 2 * Float.to_Q c) * (1 # 2))%Q as E.
  { unfold Qdiv. change (/ 2)%Q with (1 # 2)%Q. ring. }
  split.
  - apply Qabs_Qle_condition. rewrite E. split; lra.
  - intros Htie. apply round_tie. fold k.
    rewrite E, Qabs_Qmult in Htie. change (Qabs (1 # 2)) with (1 # 2)%Q in Htie.
    set (a := Qabs (inject_Z k - 2 * Float.to_Q c)) in *. lra.
Qed.

Lemma round_strike_from_50_double (c : Float.t) :
  Float.is_finite c = true →
  (50 <= Float.to_Q c)%Q →
  ∃ k : Z,
    Binary64.round_strike c = inr (inject_Z k)
    ∧ (Qabs (inject_Z k - Float.to_Q c) <= 1 # 2)%Q
    ∧ ((Qabs (inject_Z k - Float.to_Q c) == 1 # 2)%Q → Z.even k = true).
Proof.
  intros Hc Hhigh. unfold Binary64.round_strike.
  rewrite (ltb_int_finite c 50 Hc), (round_finite _ Hc).
  apply Qltb_false in Hhigh. change (inject_Z 50) with 50%Q. rewrite Hhigh.
  exists (Py.round (Float.to_Q c)). split; [done|].
  pose proof (round_nearest (Float.to_Q c)). split.
  - apply Qabs_Qle_condition. split; lra.
  - apply round_tie.
Qed.

Lemma round_strike_nearest (c : Float.t) (r : Q) :
  Float.is_double c = true →
  Float.is_finite (Float.mul c (Float.of_Z 2)) = true →
  Binary64.round_strike c = inr r →
  ((Float.to_Q c < 50)%Q → nearest_multiple (1 # 2) (Float.to_Q c) r)
  ∧ ((50 <= Float.to_Q c)%Q → nearest_multiple 1 (Float.to_Q c) r).
Proof.
  intros Hdouble Hfinite Hr. split; intros Hc.
  - destruct (round_strike_below_50_double c Hdouble Hfinite Hc) as (k & Hk & Hnear & Htie).
    rewrite Hk in Hr. injection Hr as <-. exists k. split; [|split].
    + unfold Qdiv. change (/ 2)%Q with (1 # 2)%Q. reflexivity.
    + lra.
    + intros H. apply Htie. lra.
  - destruct (mul_finite _ _ Hfinite) as [Hfin _].
    destruct (round_strike_from_50_double c Hfin Hc) as (k & Hk & Hnear & Htie).
    rewrite Hk in Hr. injection Hr as <-. exists k. split; [|split].
    + ring.
    + lra.
    + intros H. apply Htie. lra.
Qed.

(** *** The loop *)

Lemma collect_spec (body : Z → Float.conversion_error + Q) (indices : list Z)
    (strikes : list Q) :
  Binary64.collect body indices = inr strikes →
  Forall2 (λ i x, body i = inr x) indices strikes.
Proof.
  revert strikes. induction indices as [|i indices IH]; intros strikes; simpl.
  - intros [= <-]. constructor.
  - destruct (body i) as [e|x] eqn:Hi; [done|].
    destruct (Binary64.collect body indices) as [e|rest]; [done|].
    intros [= <-]. constructor; [done|by apply IH].
Qed.

Lemma collect_returns (body : Z → Float.conversion_error + Q) (indices : list Z) :
  (∀ i, i ∈ indices → ∃ x, body i = inr x) →
  ∃ strikes, Binary64.collect body indices = inr strikes.
Proof.
  induction indices as [|i indices IH]; intros Hbody; simpl; [by eexists|].
  destruct (Hbody i) as [x ->]; [left|].
  destruct IH as [rest ->]; [|by eexists].
  intros j Hj. apply Hbody. by right.
Qed.

Lemma strike_returns (stock_price spacing_pct : Float.t) (i : Z) :
  Float.is_finite
    (Float.mul (Binary64.strike_candidate stock_price spacing_pct i) (Float.of_Z 2)) = true →
  ∃ x, Binary64.strike stock_price spacing_pct i = inr x.
Proof.
  intros Hfinite. destruct (mul_finite _ _ Hfinite) as [Hc _].
  assert (Float.is_finite (Float.of_Z i) = true) as Hi.
  { unfold Binary64.strike_candidate in Hc.
    apply mul_finite in Hc as [_ Hc]. apply add_finite in Hc as [_ Hc].
    by apply mul_finite in Hc as [Hc _]. }
  unfold Binary64.strike, Float.of_int. rewrite Hi.
  unfold Binary64.round_strike.
  rewrite (round_finite _ Hfinite), (round_finite _ Hc).
  destruct (Float.ltb_int _ 50); by eexists.
Qed.

Lemma strike_round_strike (stock_price spacing_pct : Float.t) (i : Z) (x : Q) :
  Binary64.strike stock_price spacing_pct i = inr x →
  Binary64.round_strike (Binary64.strike_candidate stock_price spacing_pct i) = inr x.
Proof. unfold Binary64.strike. by destruct (Float.of_int i). Qed.

(** C8, as the code runs it.  The arguments are doubles and the candidates
    are computed in double-precision arithmetic,
    [stock_price * (1 + i * spacing_pct)] with every product and sum rounded
    to the nearest double.  For [n >= 0] the loop visits the [2n + 1]
    indices [-n .. n]; when every candidate can be doubled without overflow
    the call returns, and the result lists, in strictly ascending order and
    without repetition, exactly the roundings of the candidates.  A
    candidate below 50 is rounded to the multiple of one half nearest to
    its exact value, a candidate from 50 on to the nearest whole number, and
    a candidate half way between two of them goes to the even multiple, as
    [round] does.  For [(100, 3, 0.025)] the ladder is 92, 95, 98, 100, 102,
    105, 108; for [(30, 1, 0.025)] it is 29, 30, 30.5, because the double
    [30 * 1.025] lies below 30.75. *)
Theorem generate_strike_prices_ladder (stock_price spacing_pct : Float.t) (num_strikes : Z) :
  (0 <= num_strikes)%Z →
  Float.is_double stock_price = true →
  Float.is_double spacing_pct = true →
  let candidate := Binary64.strike_candidate stock_price spacing_pct in
  (∀ i, (- num_strikes <= i <= num_strikes)%Z →
        Float.is_finite (Float.mul (candidate i) (Float.of_Z 2)) = true) →
  length (Py.range (- num_strikes) (num_strikes + 1)) = Z.to_nat (2 * num_strikes + 1)
  ∧ (∃ strikes,
       Binary64.generate_strike_prices stock_price num_strikes spacing_pct = inr strikes
       ∧ (∀ i, (- num_strikes <= i <= num_strikes)%Z →
            ∃ x r,
              x ∈ strikes
              ∧ (x == r)%Q
              ∧ Binary64.round_strike (candidate i) = inr r
              ∧ ((Float.to_Q (candidate i) < 50)%Q →
                 nearest_multiple (1 # 2) (Float.to_Q (candidate i)) r)
              ∧ ((50 <= Float.to_Q (candidate i))%Q →
                 nearest_multiple 1 (Float.to_Q (candidate i)) r))
       ∧ (∀ x, x ∈ strikes →
            ∃ i, (- num_strikes <= i <= num_strikes)%Z
                 ∧ Binary64.round_strike (candidate i) = inr x)
       ∧ ascending strikes
       ∧ (length strikes <= Z.to_nat (2 * num_strikes + 1))%nat)
  ∧ Binary64.generate_strike_prices (Float.of_Z 100) 3 (Float.literal 25 1000)
    = inr [92; 95; 98; 100; 102; 105; 108]%Q
  ∧ Binary64.generate_strike_prices (Float.of_Z 30) 1 (Float.literal 25 1000)
    = inr [58 # 2; 60 # 2; 61 # 2]%Q.
Proof.
  intros Hn Hprice Hspacing candidate Hfinite.
  split; [rewrite range_length; f_equal; lia|].
  split; [|split; by vm_compute].
  destruct (collect_returns (Binary64.strike stock_price spacing_pct)
              (Py.range (- num_strikes) (num_strikes + 1))) as [rounded Hrun].
  { intros i Hi%range_elem. apply strike_returns, Hfinite. lia. }
  pose proof (collect_spec _ _ _ Hrun) as Hall.
  destruct (sorted_distinct (Py.set rounded)) as [Hasc Hperm]; [apply set_distinct|].
  exists (Py.sorted (Py.set rounded)).
  unfold Binary64.generate_strike_prices. rewrite Hrun. split; [done|].
  split; [|split; [|split; [done|]]].
  - intros i Hi.
    assert (i ∈ Py.range (- num_strikes) (num_strikes + 1)) as Hin by (apply range_elem; lia).
    apply list_elem_of_lookup in Hin as [k Hk].
    destruct (Forall2_lookup_l _ _ _ _ _ Hall Hk) as (r & Hr & Hbody).
    destruct (set_complete rounded r) as (y & Hy & Hyr); [by eapply list_elem_of_lookup_2|].
    apply strike_round_strike in Hbody.
    exists y, r. split; [by rewrite Hperm|]. split; [done|]. split; [done|].
    apply round_strike_nearest; [|by apply Hfinite|done].
    by apply strike_candidate_valid.
  - intros x Hx. rewrite Hperm in Hx. apply set_elem in Hx.
    apply list_elem_of_lookup in Hx as [k Hk].
    destruct (Forall2_lookup_r _ _ _ _ _ Hall Hk) as (i & Hi & Hbody).
    apply list_elem_of_lookup_2, range_elem in Hi.
    exists i. split; [lia|]. by apply strike_round_strike.
  - rewrite Hperm. etrans; [apply set_length|].
    rewrite <- (Forall2_length _ _ _ Hall), range_length. lia.
Qed.

Lemma generate_strike_prices_ladder_witness :
  ∃ strikes,
    Binary64.generate_strike_prices (Float.of_Z 30) 1 (Float.literal 25 1000) = inr strikes
    ∧ ascending strikes
    ∧ strikes = [58 # 2; 60 # 2; 61 # 2]%Q
    ∧ ∃ x, x ∈ strikes
           ∧ nearest_multiple (1 # 2)
               (Float.to_Q (Binary64.strike_candidate (Float.of_Z 30) (Float.literal 25 1000) 1))
               x.
Proof.
  destruct (generate_strike_prices_ladder (Float.of_Z 30) (Float.literal 25 1000) 1)
    as (_ & (strikes & Hrun & Hall & _ & Hasc & _) & _ & Hex).
  - discriminate.
  - reflexivity.
  - reflexivity.
  - intros i Hi.
    assert (i = -1 ∨ i = 0 ∨ i = 1)%Z as [->|[->| ->]] by lia; reflexivity.
  - exists strikes. split; [exact Hrun|]. split; [exact Hasc|].
    split; [rewrite Hrun in Hex; by injection Hex|].
    destruct (Hall 1%Z) as (x & r & Hx & Hxr & _ & Hbelow & _); [lia|].
    exists x. split; [exact Hx|].
    destruct Hbelow as (k & Hk & Hnear & Htie); [reflexivity|].
    exists k. split; [by rewrite Hxr|]. split.
    + by rewrite Hxr.
    + rewrite Hxr. exact Htie.
Defined.

(** The ladder the specification gives for [(100, 3, 0.025)] has 97 and 107
    where the code has 98 and 108: the candidates 97.5 and 107.5 are doubles
    and ties, and go to the even neighbour. *)
Lemma strikes_100_counterexample :
  ¬ ∃ strikes,
      Binary64.generate_strike_prices (Float.of_Z 100) 3 (Float.literal 25 1000) = inr strikes
      ∧ Forall2 Qeq strikes [92; 95; 97; 100; 102; 105; 107]%Q.
Proof.
  intros (strikes & Hrun & H).
  change (Binary64.generate_strike_prices (Float.of_Z 100) 3 (Float.literal 25 1000))
    with (@inr Float.conversion_error _ [92; 95; 98; 100; 102; 105; 108]%Q) in Hrun.
  injection Hrun as <-.
  apply Forall2_cons in H as [_ H]. apply Forall2_cons in H as [_ H].
  apply Forall2_cons in H as [H _]. discriminate.
Qed.

End Strikes.

(** ** The engine in front of the ledger *)

Section EngineCalls.

Import WheelSimulator.

Variable get_price_at_date : string → option Z → Q.
Variable calculate_historical_volatility : string → option Z → Q.
Variables np_log np_sqrt np_exp norm_cdf : Q → Q.

(** A put order the cash does not cover: [sell_put_option] catches the
    error of the ledger and returns [False]; the portfolio object, the
    option objects that existed and the clock are as before (the rejected
    contract is left behind as an unreferenced object). *)
Lemma sell_put_option_rejected (s : t) (symbol : string) (strike : Q)
    (days_to_expiration contracts expiration : Z) :
  Py.index (trading_dates s)
    (Z.min (current_date_index s + days_to_expiration)
           (Z.of_nat (length (trading_dates s)) - 1)) = Some expiration →
  (Portfolio.cash (Portfolio.self (portfolio s)) < strike * inject_Z contracts * 100)%Q →
  ∃ s',
    sell_put_option get_price_at_date calculate_historical_volatility
      np_log np_sqrt np_exp norm_cdf symbol strike days_to_expiration contracts s
    = Py.Return false s'
    ∧ Portfolio.self (portfolio s') = Portfolio.self (portfolio s)
    ∧ (∀ r, r ≠ Portfolio.fresh (portfolio s) →
         Portfolio.heap (portfolio s') r = Portfolio.heap (portfolio s) r)
    ∧ same_clock s s'.
Proof.
  intros Hidx Hcash. apply Qltb_true in Hcash.
  unfold sell_put_option, Py.bind, Py.gets. rewrite Hidx.
  unfold new_position, on_portfolio, Py.zoom, Py.try_except_ValueError, Py.bind.
  cbn [portfolio set_portfolio Portfolio.fresh Portfolio.heap Portfolio.self].
  unfold Portfolio.sell_put, Py.bind, Portfolio.deref, Portfolio.get, Py.gets.
  cbn [Portfolio.fresh Portfolio.heap Portfolio.self].
  rewrite fn_lookup_insert. cbn [OptionsPosition.new OptionsPosition.strike
    OptionsPosition.contracts]. rewrite Hcash.
  eexists. split; [reflexivity|]. cbn. repeat split.
  intros r Hr. by rewrite fn_lookup_insert_ne.
Qed.

(** An expired call with the spot above the strike goes straight to
    [assign_call]: the engine does not look at the holdings either. *)
Lemma process_position_call_in_the_money (s : t) (position : ref)
    (expired_events : list Event) (now : Z) :
  let pos := Portfolio.heap (portfolio s) position in
  let stock_price := get_price_at_date (OptionsPosition.symbol pos) (Some now) in
  current_date s = Some now →
  OptionsPosition.option_type pos = CALL →
  (OptionsPosition.expiration pos <= now)%Z →
  (OptionsPosition.strike pos < stock_price)%Q →
  process_position get_price_at_date position expired_events s
  = Py.bind (on_portfolio (Portfolio.assign_call position stock_price now))
      (λ _, Py.ret (expired_events ++
                      [call_assigned (OptionsPosition.symbol pos) (OptionsPosition.strike pos)
                         (OptionsPosition.contracts pos * 100)
                         (OptionsPosition.strike pos * inject_Z (OptionsPosition.contracts pos) * 100)
                         stock_price])) s.
Proof.
  intros pos stock_price Hnow Hcall Hexp Hitm.
  apply Qltb_true in Hitm. apply Z.leb_le in Hexp.
  unfold process_position. unfold Py.bind at 1. unfold on_portfolio at 1, Py.zoom.
  cbn [Portfolio.deref Py.gets]. unfold Py.bind at 1, Py.gets.
  assert (set_portfolio (portfolio s) s = s) as -> by by destruct s.
  rewrite Hnow. fold pos. unfold OptionsPosition.is_expired. rewrite Hexp, Hcall.
  fold stock_price. by rewrite Hitm.
Qed.

End EngineCalls.

(** * Further properties of the ledger *)

Section LedgerCalls.

Import Portfolio.

Lemma list_remove_absent {A} (same : A → bool) (l : list A) :
  (∀ y, y ∈ l → same y = false) → Py.list_remove same l = None.
Proof.
  induction l as [|y l IH]; intros H; simpl; [done|].
  rewrite (H y) by set_solver. rewrite IH; [done|]. intros z Hz. apply H. set_solver.
Qed.

(** A position that is not in the open list, once its status has left
    [OPEN], is not found there. *)
Lemma remove_open_absent (w : world) (position : ref) :
  position ∉ options_positions (self w) →
  (∀ r, r ∈ options_positions (self w) → OptionsPosition.status (heap w r) = OPEN) →
  OptionsPosition.status (heap w position) ≠ OPEN →
  remove_open position w = Py.Raised (Py.ValueError Py.NotInList) w.
Proof.
  intros Hnot Hopen Hst. unfold remove_open.
  rewrite list_remove_absent; [done|].
  intros y Hy. apply orb_false_iff. split.
  - apply Nat.eqb_neq. intros ->. done.
  - apply not_true_iff_false. intros E%OptionsPosition_eqb_status.
    rewrite Hopen in E by done. done.
Qed.

(** What an accepted [sell_put] leaves, for reuse. *)
Lemma sell_put_run (w : world) (position : ref) :
  (OptionsPosition.strike (heap w position)
   * inject_Z (OptionsPosition.contracts (heap w position)) * 100 <= cash (self w))%Q →
  ∃ w', sell_put position w = Py.Return tt w'
        ∧ cash (self w') = (cash (self w) + OptionsPosition.total_premium (heap w position))%Q
        ∧ options_positions (self w') = options_positions (self w) ++ [position]
        ∧ heap w' = heap w.
Proof.
  intros Hcash. apply Qltb_false in Hcash.
  unfold sell_put, add_cash, Py.bind, deref, get, Py.gets, upd, Py.modify.
  rewrite Hcash. cbn [self heap fresh]. eexists. split; [reflexivity|]. by cbn.
Qed.

(** X1. A put the cash covers is accepted: the premium is credited and
    logged as one [cash_in] entry, the position joins the end of the open
    list, and holdings, closed positions and option objects stay as they
    were. *)
Theorem sell_put_accepted (w : world) (position : ref) :
  let pos := heap w position in
  let premium := OptionsPosition.total_premium pos in
  (OptionsPosition.strike pos * inject_Z (OptionsPosition.contracts pos) * 100
   <= cash (self w))%Q →
  ∃ w', sell_put position w = Py.Return tt w'
        ∧ cash (self w') = (cash (self w) + premium)%Q
        ∧ options_positions (self w') = options_positions (self w) ++ [position]
        ∧ closed_positions (self w') = closed_positions (self w)
        ∧ stock_positions (self w') = stock_positions (self w)
        ∧ heap w' = heap w
        ∧ ∃ description,
            transaction_history (self w')
            = transaction_history (self w) ++ [mkTransaction cash_in premium description].
Proof.
  intros pos premium Hcash. apply Qltb_false in Hcash.
  unfold sell_put, add_cash, Py.bind, deref, get, Py.gets, upd, Py.modify.
  fold pos. rewrite Hcash. cbn [self heap fresh]. eexists. split; [reflexivity|].
  cbn. repeat split. by eexists.
Qed.

Lemma sell_put_accepted_witness :
  ∃ w', sell_put 0 (Example.world 10000 ∅ []) = Py.Return tt w'
        ∧ cash (self w') = (10000 + 2 * inject_Z 1 * 100)%Q
        ∧ options_positions (self w') = [0%nat].
Proof.
  destruct (sell_put_accepted (Example.world 10000 ∅ []) 0%nat)
    as (w' & Hrun & Hcash & Hopen & _).
  - discriminate.
  - exists w'. repeat split; assumption.
Defined.

(** X2. [sell_call] accepts a call exactly when the symbol is held with at
    least [contracts * 100] shares.  Accepted, it credits and logs the
    premium and appends the position, leaving the holdings untouched;
    otherwise it raises the "insufficient shares" error, reporting the
    shares needed and held (0 when nothing is held), and changes nothing. *)
Theorem sell_call_spec (w : world) (position : ref) :
  let pos := heap w position in
  let need := (OptionsPosition.contracts pos * 100)%Z in
  let premium := OptionsPosition.total_premium pos in
  let held :=
    match stock_positions (self w) !! OptionsPosition.symbol pos with
    | Some sp => StockPosition.shares sp
    | None => 0%Z
    end in
  (is_Some (stock_positions (self w) !! OptionsPosition.symbol pos) ∧ (need <= held)%Z →
   ∃ w', sell_call position w = Py.Return tt w'
         ∧ cash (self w') = (cash (self w) + premium)%Q
         ∧ options_positions (self w') = options_positions (self w) ++ [position]
         ∧ stock_positions (self w') = stock_positions (self w)
         ∧ closed_positions (self w') = closed_positions (self w)
         ∧ heap w' = heap w)
  ∧ (¬ (is_Some (stock_positions (self w) !! OptionsPosition.symbol pos) ∧ (need <= held)%Z) →
     sell_call position w
     = Py.Raised (Py.ValueError (Py.InsufficientCoverage need held)) w).
Proof.
  intros pos need premium held.
  unfold sell_call, add_cash, Py.bind, deref, get, Py.gets, upd, Py.modify, Py.raise.
  fold pos. fold need. unfold held.
  destruct (stock_positions (self w) !! OptionsPosition.symbol pos) as [sp|]; split.
  - intros [_ Hle]. apply Z.ltb_ge in Hle. rewrite Hle. cbn [self heap fresh].
    eexists. split; [reflexivity|]. by cbn.
  - intros Hno. assert (StockPosition.shares sp < need)%Z as Hlt.
    { apply Z.nle_gt. intros Hle. apply Hno. split; [by eexists|done]. }
    apply Z.ltb_lt in Hlt. by rewrite Hlt.
  - intros [[? [=]] _].
  - done.
Qed.

Lemma sell_call_spec_witness :
  sell_call 1 (Example.world 10000 {[ "XYZ" := Example.xyz 50 40 ]} [])
  = Py.Raised (Py.ValueError (Py.InsufficientCoverage 100 50))
      (Example.world 10000 {[ "XYZ" := Example.xyz 50 40 ]} []).
Proof.
  destruct (sell_call_spec (Example.world 10000 {[ "XYZ" := Example.xyz 50 40 ]} []) 1%nat)
    as [_ H].
  apply H. intros [_ Hle]. revert Hle. simpl. rewrite lookup_singleton_eq. simpl. lia.
Defined.

(** X3. Collateral is checked, not reserved: when two puts are each
    covered by the cash on their own and the first premium is not negative,
    both are accepted one after the other, whatever their sum requires. *)
Theorem collateral_not_reserved (w : world) (first second : ref) :
  let required (r : ref) :=
    (OptionsPosition.strike (heap w r) * inject_Z (OptionsPosition.contracts (heap w r)) * 100)%Q in
  (required first <= cash (self w))%Q →
  (required second <= cash (self w))%Q →
  (0 <= OptionsPosition.total_premium (heap w first))%Q →
  ∃ w1 w2, sell_put first w = Py.Return tt w1
           ∧ sell_put second w1 = Py.Return tt w2
           ∧ options_positions (self w2) = options_positions (self w) ++ [first; second].
Proof.
  intros required H1 H2 Hprem.
  destruct (sell_put_run w first H1) as (w1 & Hrun1 & Hc1 & Ho1 & Hh1).
  destruct (sell_put_run w1 second) as (w2 & Hrun2 & _ & Ho2 & _).
  { rewrite Hh1, Hc1. unfold required in H2. lra. }
  exists w1, w2. repeat split; [done..|]. by rewrite Ho2, Ho1, <- app_assoc.
Qed.

Lemma collateral_not_reserved_witness :
  ∃ w1 w2, sell_put 0 (Example.world 6000 ∅ []) = Py.Return tt w1
           ∧ sell_put 1 w1 = Py.Return tt w2
           ∧ options_positions (self w2) = [0%nat; 1%nat].
Proof.
  destruct (collateral_not_reserved (Example.world 6000 ∅ []) 0%nat 1%nat)
    as (w1 & w2 & H); [discriminate..|]. by exists w1, w2.
Defined.

(** X4. A call assigned against a holding of exactly [contracts * 100]
    shares takes the symbol out of the holdings altogether (no entry with 0
    shares stays behind), credits [strike * contracts * 100], marks the
    position [CALLED_AWAY] and moves it from the open to the closed list. *)
Theorem assign_call_exact_holding (w : world) (position : ref) (stock_price : Q)
    (current_date : Z) (held : StockPosition.t) :
  let pos := heap w position in
  position ∈ options_positions (self w) →
  (∀ r, r ∈ options_positions (self w) → OptionsPosition.status (heap w r) = OPEN) →
  stock_positions (self w) !! OptionsPosition.symbol pos = Some held →
  StockPosition.shares held = (OptionsPosition.contracts pos * 100)%Z →
  ∃ w' before after,
    assign_call position stock_price current_date w = Py.Return tt w'
    ∧ stock_positions (self w') = delete (OptionsPosition.symbol pos) (stock_positions (self w))
    ∧ stock_positions (self w') !! OptionsPosition.symbol pos = None
    ∧ cash (self w')
      = (cash (self w)
         + OptionsPosition.strike pos * inject_Z (OptionsPosition.contracts pos) * 100)%Q
    ∧ OptionsPosition.status (heap w' position) = CALLED_AWAY
    ∧ options_positions (self w) = before ++ position :: after
    ∧ (position ∉ before)
    ∧ options_positions (self w') = before ++ after
    ∧ closed_positions (self w') = closed_positions (self w) ++ [position].
Proof.
  intros pos Hin Hopen Hheld Hshares.
  destruct (list_elem_of_split_l _ _ Hin) as (before & after & Hl & Hnot).
  assert (∀ r, r ∈ before → OptionsPosition.status (heap w r) = OPEN) as Hbefore.
  { intros r Hr. apply Hopen. rewrite Hl. set_solver. }
  apply Z.eqb_eq in Hshares.
  unfold assign_call, add_cash, Py.bind, deref, get, Py.gets, upd, assign, Py.modify, Py.ret.
  fold pos. rewrite Hheld, Hshares. cbn [self heap fresh].
  eexists _, before, after.
  erewrite remove_open_closed; cbn [self heap fresh options_positions set_closed_positions
    set_stock_positions set_transaction_history set_cash]; try done.
  - split; [reflexivity|]. cbn. rewrite !fn_lookup_insert, lookup_delete_eq.
    repeat split; done.
  - intros r Hr. rewrite !fn_lookup_insert_ne by (intros ->; done). by apply Hbefore.
  - by rewrite !fn_lookup_insert.
Qed.

Lemma assign_call_exact_holding_witness :
  ∃ w', assign_call 1 60 10 (Example.world 10000 {[ "XYZ" := Example.xyz 100 40 ]} [1%nat])
        = Py.Return tt w'
        ∧ stock_positions (self w') !! "XYZ" = None
        ∧ closed_positions (self w') = [1%nat].
Proof.
  destruct (assign_call_exact_holding
              (Example.world 10000 {[ "XYZ" := Example.xyz 100 40 ]} [1%nat]) 1%nat 60 10
              (Example.xyz 100 40))
    as (w' & before & after & Hrun & _ & Hnone & _ & _ & _ & _ & _ & Hclosed).
  - apply list_elem_of_here.
  - intros r Hr. apply list_elem_of_singleton in Hr. rewrite Hr. reflexivity.
  - apply lookup_singleton_eq.
  - reflexivity.
  - exists w'. repeat split; assumption.
Defined.

(** X5. An open position that expires worthless moves no money: cash,
    holdings and transaction log are as before.  The object gets status
    [EXPIRED_WORTHLESS] and the exit date, keeps its exit price, leaves the
    open list and joins the end of the closed list.  The fields of the
    closed object are given one by one: status [EXPIRED_WORTHLESS], exit
    date the date of the call, and every other field as it was. *)
Theorem expire_worthless_spec (w : world) (position : ref) (current_date : Z) :
  position ∈ options_positions (self w) →
  (∀ r, r ∈ options_positions (self w) → OptionsPosition.status (heap w r) = OPEN) →
  ∃ w' before after,
    expire_worthless position current_date w = Py.Return tt w'
    ∧ cash (self w') = cash (self w)
    ∧ stock_positions (self w') = stock_positions (self w)
    ∧ transaction_history (self w') = transaction_history (self w)
    ∧ heap w' position
      = OptionsPosition.set_exit_date (Some current_date)
          (OptionsPosition.set_status EXPIRED_WORTHLESS (heap w position))
    ∧ (∀ r, r ≠ position → heap w' r = heap w r)
    ∧ options_positions (self w) = before ++ position :: after
    ∧ (position ∉ before)
    ∧ options_positions (self w') = before ++ after
    ∧ closed_positions (self w') = closed_positions (self w) ++ [position]
    ∧ OptionsPosition.status (heap w' position) = EXPIRED_WORTHLESS
    ∧ OptionsPosition.exit_date (heap w' position) = Some current_date
    ∧ OptionsPosition.stock_price_at_exit (heap w' position)
      = OptionsPosition.stock_price_at_exit (heap w position)
    ∧ contract (heap w' position) = contract (heap w position)
    ∧ OptionsPosition.entry_date (heap w' position)
      = OptionsPosition.entry_date (heap w position)
    ∧ OptionsPosition.stock_price_at_entry (heap w' position)
      = OptionsPosition.stock_price_at_entry (heap w position).
Proof.
  intros Hin Hopen.
  destruct (list_elem_of_split_l _ _ Hin) as (before & after & Hl & Hnot).
  assert (∀ r, r ∈ before → OptionsPosition.status (heap w r) = OPEN) as Hbefore.
  { intros r Hr. apply Hopen. rewrite Hl. set_solver. }
  unfold expire_worthless, Py.bind, upd, assign, Py.modify. cbn [self heap fresh].
  eexists _, before, after.
  erewrite remove_open_closed; cbn [self heap fresh options_positions set_closed_positions]; try done.
  - split; [reflexivity|]. cbn. rewrite !fn_lookup_insert.
    repeat split; try done. intros r Hr. by rewrite !fn_lookup_insert_ne.
  - intros r Hr. rewrite !fn_lookup_insert_ne by (intros ->; done). by apply Hbefore.
  - by rewrite !fn_lookup_insert.
Qed.

Lemma expire_worthless_spec_witness :
  ∃ w', expire_worthless 0 10 (Example.world 10000 ∅ [0%nat]) = Py.Return tt w'
        ∧ cash (self w') = 10000%Q
        ∧ OptionsPosition.status (heap w' 0%nat) = EXPIRED_WORTHLESS
        ∧ OptionsPosition.exit_date (heap w' 0%nat) = Some 10%Z
        ∧ options_positions (self w') = []
        ∧ closed_positions (self w') = [0%nat].
Proof.
  destruct (expire_worthless_spec (Example.world 10000 ∅ [0%nat]) 0%nat 10)
    as (w' & before & after & Hrun & Hcash & _ & _ & _ & _ & Hl & Hnot & Hopen & Hclosed
        & Hstatus & Hdate & _).
  - apply list_elem_of_here.
  - intros r Hr. apply list_elem_of_singleton in Hr. rewrite Hr. reflexivity.
  - exists w'. repeat split; try assumption.
    rewrite Hopen. simpl in Hl. destruct before as [|b before].
    + injection Hl as <-. reflexivity.
    + injection Hl as _ Hrest. by destruct before.
Defined.

(** X6. Assigning a put that is not in the open list fails, but only at the
    very end: [list.remove] raises after the cash has been debited, the
    holding stored, the object marked [ASSIGNED] and appended to the closed
    list.  The error leaves that partial update behind. *)
Theorem assign_put_not_open (w : world) (position : ref) (stock_price : Q)
    (current_date : Z) :
  let pos := heap w position in
  let cost := (OptionsPosition.strike pos * inject_Z (OptionsPosition.contracts pos) * 100)%Q in
  position ∉ options_positions (self w) →
  (∀ r, r ∈ options_positions (self w) → OptionsPosition.status (heap w r) = OPEN) →
  (cost <= cash (self w))%Q →
  ∃ w', assign_put position stock_price current_date w
        = Py.Raised (Py.ValueError Py.NotInList) w'
        ∧ cash (self w') = (cash (self w) - cost)%Q
        ∧ is_Some (stock_positions (self w') !! OptionsPosition.symbol pos)
        ∧ OptionsPosition.status (heap w' position) = ASSIGNED
        ∧ closed_positions (self w') = closed_positions (self w) ++ [position]
        ∧ options_positions (self w') = options_positions (self w).
Proof.
  intros pos cost Hnot Hopen Hcash. apply Qltb_false in Hcash.
  unfold assign_put, remove_cash, Py.bind, deref, get, Py.gets, upd, assign, Py.modify.
  fold pos. fold cost. rewrite Hcash. cbn [self heap fresh].
  erewrite remove_open_absent; cbn [self heap fresh options_positions set_closed_positions
    set_stock_positions set_transaction_history set_cash]; try done.
  - eexists. split; [reflexivity|]. cbn. rewrite !fn_lookup_insert, lookup_insert_eq.
    repeat split; done.
  - intros r Hr. rewrite !fn_lookup_insert_ne by (intros ->; done). by apply Hopen.
  - by rewrite !fn_lookup_insert.
Qed.

Lemma assign_put_not_open_witness :
  ∃ w', assign_put 0 45 10 (Example.world 10000 ∅ [])
        = Py.Raised (Py.ValueError Py.NotInList) w'
        ∧ cash (self w') = (10000 - 50 * inject_Z 1 * 100)%Q
        ∧ closed_positions (self w') = [0%nat].
Proof.
  destruct (assign_put_not_open (Example.world 10000 ∅ []) 0%nat 45 10)
    as (w' & Hrun & Hcash & _ & _ & Hclosed & _).
  - apply not_elem_of_nil.
  - intros r Hr. by apply elem_of_nil in Hr.
  - discriminate.
  - exists w'. repeat split; assumption.
Defined.

End LedgerCalls.

(** ** The books over a sequence of calls *)

Section Books.

Import Portfolio.

Lemma log_balance_app (l k : list Transaction) :
  (log_balance (l ++ k) == log_balance l + log_balance k)%Q.
Proof.
  induction l as [|t l IH]; simpl; [lra|]. rewrite IH. lra.
Qed.

Lemma continues_refl (w : world) : continues w w.
Proof.
  split; [done|]. split; [done|]. exists []. rewrite app_nil_r. split; [done|simpl; lra].
Qed.

Lemma continues_trans (w1 w2 w3 : world) :
  continues w1 w2 → continues w2 w3 → continues w1 w3.
Proof.
  intros (Hi1 & Hc1 & e1 & Hh1 & Hb1) (Hi2 & Hc2 & e2 & Hh2 & Hb2).
  split; [congruence|]. split; [by etrans|].
  exists (e1 ++ e2). split; [by rewrite Hh2, Hh1, app_assoc|].
  rewrite log_balance_app, Hb2, Hb1. lra.
Qed.

Lemma remove_open_continues (position : ref) (w : world) :
  continues w (Py.final (remove_open position w)).
Proof.
  unfold remove_open. case_match; [|apply continues_refl].
  split; [done|]. split; [done|]. exists []. rewrite app_nil_r. split; [done|simpl; lra].
Qed.

Ltac books :=
  split; [done|]; split; [try done; by apply prefix_app_r|];
  first [ by (exists []; rewrite app_nil_r; split; [done|simpl; lra])
        | by (eexists [_]; split; [reflexivity|simpl; unfold signed_amount; simpl; lra]) ].

Lemma perform_continues (c : ledger_call) (w : world) :
  continues w (Py.final (perform c w)).
Proof.
  destruct c as [p|p|p price date|p price date|p date]; simpl;
    unfold sell_put, sell_call, assign_put, assign_call, expire_worthless,
      add_cash, remove_cash, Py.bind, deref, get, upd, assign, Py.gets, Py.modify,
      Py.ret, Py.raise.
  - destruct (Qltb _ _); simpl; [apply continues_refl|]. books.
  - destruct (match _ with None => true | Some _ => _ end); simpl; [apply continues_refl|].
    books.
  - destruct (Qltb _ _); simpl; [apply continues_refl|].
    eapply continues_trans; [|apply remove_open_continues]. books.
  - destruct (stock_positions (self w) !! _) as [sp|]; [destruct (_ =? _)%Z|]; simpl;
      (eapply continues_trans; [|apply remove_open_continues]); books.
  - eapply continues_trans; [|apply remove_open_continues]. books.
Qed.

Lemma run_continues (calls : list ledger_call) (w : world) : continues w (run calls w).
Proof.
  revert w. induction calls as [|c calls IH]; intros w; [apply continues_refl|].
  eapply continues_trans; [apply perform_continues|apply IH].
Qed.

(** X7. The transaction log accounts for the cash: after any sequence of
    ledger calls on a new portfolio, accepted or rejected, the cash equals
    the initial capital plus the logged inflows minus the logged outflows,
    and [initial_capital] still holds the starting amount. *)
Theorem cash_matches_log (objects : ref → OptionsPosition.t) (next : ref)
    (capital : Q) (calls : list ledger_call) :
  let w := run calls (World objects next (__init__ capital)) in
  (cash (self w) == capital + log_balance (transaction_history (self w)))%Q
  ∧ initial_capital (self w) = capital.
Proof.
  intros w. destruct (run_continues calls (World objects next (__init__ capital)))
    as (Hinit & _ & entries & Hlog & Hcash).
  fold w in Hinit, Hlog, Hcash. simpl in *. split; [|done]. by rewrite Hlog.
Qed.

(** X8. The closed list and the transaction log only grow: after any
    sequence of ledger calls from any state, the earlier closed list and
    the earlier log are prefixes of the later ones. *)
Theorem closed_and_log_append_only (w : world) (calls : list ledger_call) :
  closed_positions (self w) `prefix_of` closed_positions (self (run calls w))
  ∧ transaction_history (self w) `prefix_of` transaction_history (self (run calls w)).
Proof.
  destruct (run_continues calls w) as (_ & Hclosed & entries & Hlog & _).
  split; [done|]. rewrite Hlog. by apply prefix_app_r.
Qed.

End Books.

(** ** Valuation *)

Section Valuation.

Import Portfolio.

(** X9. A holding without a price counts for nothing: when the price table
    has no entry for any symbol held, the total value is the cash. *)
Theorem total_value_without_prices (current_prices : gmap string Q) (w : world) :
  (∀ symbol, is_Some (stock_positions (self w) !! symbol) → current_prices !! symbol = None) →
  (get_total_value current_prices w == cash (self w))%Q.
Proof.
  intros Hnone. unfold get_total_value.
  enough (map_fold (λ symbol pos acc,
             (acc + StockPosition.current_value pos (default 0%Q (current_prices !! symbol)))%Q)
            0%Q (stock_positions (self w)) == 0)%Q as -> by lra.
  revert Hnone. generalize (stock_positions (self w)).
  apply (map_fold_weak_ind
           (λ r m, (∀ symbol, is_Some (m !! symbol) → current_prices !! symbol = None)
                   → (r == 0)%Q)).
  - reflexivity.
  - intros i x m r Hi IH Hm. rewrite IH.
    + rewrite (Hm i) by (rewrite lookup_insert_eq; by eexists). simpl.
      unfold StockPosition.current_value. lra.
    + intros symbol Hs. apply Hm. destruct (decide (i = symbol)) as [->|].
      * rewrite lookup_insert_eq. by eexists.
      * by rewrite lookup_insert_ne.
Qed.

Lemma total_value_without_prices_witness :
  (get_total_value ∅ (Example.world 10000 {[ "XYZ" := Example.xyz 100 40 ]} []) == 10000)%Q.
Proof.
  apply (total_value_without_prices ∅
           (Example.world 10000 {[ "XYZ" := Example.xyz 100 40 ]} [])).
  intros symbol _. apply lookup_empty.
Defined.

Lemma assign_put_cash (w : world) (position : ref) (stock_price : Q) (current_date : Z) :
  let pos := heap w position in
  let cost := (OptionsPosition.strike pos * inject_Z (OptionsPosition.contracts pos) * 100)%Q in
  (cost <= cash (self w))%Q →
  cash (self (Py.final (assign_put position stock_price current_date w)))
  = (cash (self w) - cost)%Q.
Proof.
  intros pos cost Hcash. apply Qltb_false in Hcash.
  unfold assign_put, remove_cash, Py.bind, deref, get, Py.gets, upd, assign, Py.modify.
  fold pos. fold cost. rewrite Hcash. cbn [self heap fresh].
  unfold remove_open. by case_match.
Qed.

(** X10. A put assigned on a symbol that was not held changes the total
    value by [shares * (price - strike)], where [price] is the table's
    price of the symbol (0 when it has none): the cash paid is replaced by
    the shares at their current price, so the assignment is value neutral
    at the strike. *)
Theorem assign_put_total_value (current_prices : gmap string Q) (w : world)
    (position : ref) (stock_price : Q) (current_date : Z) :
  let pos := heap w position in
  let shares := (OptionsPosition.contracts pos * 100)%Z in
  let price := default 0%Q (current_prices !! OptionsPosition.symbol pos) in
  (OptionsPosition.strike pos * inject_Z (OptionsPosition.contracts pos) * 100
   <= cash (self w))%Q →
  stock_positions (self w) !! OptionsPosition.symbol pos = None →
  (get_total_value current_prices (Py.final (assign_put position stock_price current_date w))
   == get_total_value current_prices w
      + inject_Z shares * (price - OptionsPosition.strike pos))%Q.
Proof.
  intros pos shares price Hcash Hnone. unfold get_total_value.
  rewrite assign_put_cash, assign_put_holdings by done. fold pos.
  rewrite (map_fold_insert Qeq); [| |by intros; lra|done].
  - unfold StockPosition.current_value. simpl. fold price. unfold shares.
    rewrite inject_Z_mult. change (inject_Z 100) with 100%Q. lra.
  - intros j z a b Hab. by rewrite Hab.
Qed.

Lemma assign_put_total_value_witness :
  (get_total_value {[ "XYZ" := 50%Q ]}
     (Py.final (assign_put 0%nat 45 10%Z (Example.world 10000 ∅ [0%nat])))
   == get_total_value {[ "XYZ" := 50%Q ]} (Example.world 10000 ∅ [0%nat])
      + inject_Z (1 * 100) * (default 0%Q (({[ "XYZ" := 50%Q ]} : gmap string Q) !! "XYZ") - 50))%Q.
Proof.
  apply (assign_put_total_value {[ "XYZ" := 50%Q ]} (Example.world 10000 ∅ [0%nat])
           0%nat 45 10).
  - discriminate.
  - apply lookup_empty.
Defined.

Lemma premium_sum_from (h : ref → OptionsPosition.t) (l : list ref) (a : Q) :
  (foldl (λ acc r, acc + OptionsPosition.total_premium (h r)) a l
   == a + foldl (λ acc r, acc + OptionsPosition.total_premium (h r)) 0 l)%Q.
Proof.
  revert a. induction l as [|r l IH]; intros a; simpl; [lra|].
  rewrite IH, (IH (0 + _)%Q). lra.
Qed.

Lemma premium_sum_app (h : ref → OptionsPosition.t) (l k : list ref) :
  (foldl (λ acc r, acc + OptionsPosition.total_premium (h r)) 0 (l ++ k)
   == foldl (λ acc r, acc + OptionsPosition.total_premium (h r)) 0 l
      + foldl (λ acc r, acc + OptionsPosition.total_premium (h r)) 0 k)%Q.
Proof. rewrite foldl_app. apply premium_sum_from. Qed.

Lemma premium_sum_ext (h h' : ref → OptionsPosition.t) (l : list ref) (a : Q) :
  (∀ r, OptionsPosition.total_premium (h' r) = OptionsPosition.total_premium (h r)) →
  foldl (λ acc r, acc + OptionsPosition.total_premium (h' r))%Q a l
  = foldl (λ acc r, acc + OptionsPosition.total_premium (h r))%Q a l.
Proof.
  intros H. revert a. induction l as [|r l IH]; intros a; simpl; [done|]. by rewrite H, IH.
Qed.

(** What a closing call that returns has done to the two lists, and that it
    left every premium alone. *)
Lemma closing_moves (c : ledger_call) (w w' : world) :
  closes c = true →
  callee c ∈ options_positions (self w) →
  (∀ r, r ∈ options_positions (self w) → OptionsPosition.status (heap w r) = OPEN) →
  perform c w = Py.Return tt w' →
  ∃ before after,
    options_positions (self w) = before ++ callee c :: after
    ∧ options_positions (self w') = before ++ after
    ∧ closed_positions (self w') = closed_positions (self w) ++ [callee c]
    ∧ ∀ r, OptionsPosition.total_premium (heap w' r) = OptionsPosition.total_premium (heap w r).
Proof.
  intros Hc Hin Hopen.
  destruct (list_elem_of_split_l _ _ Hin) as (before & after & Hl & Hnot).
  assert (∀ r, r ∈ before → OptionsPosition.status (heap w r) = OPEN) as Hbefore.
  { intros r Hr. apply Hopen. rewrite Hl. set_solver. }
  assert (∀ (h : ref → OptionsPosition.t) p r f,
            (∀ x, OptionsPosition.total_premium (f x) = OptionsPosition.total_premium x) →
            OptionsPosition.total_premium (<[p := f (h p)]> h r)
            = OptionsPosition.total_premium (h r)) as Hins.
  { intros h p r f Hf. destruct (decide (p = r)) as [->|];
      [by rewrite fn_lookup_insert | by rewrite fn_lookup_insert_ne]. }
  destruct c as [p|p|p price date|p price date|p date]; try discriminate; simpl in *;
    unfold assign_put, assign_call, expire_worthless, add_cash, remove_cash, Py.bind,
      deref, get, upd, assign, Py.gets, Py.modify, Py.ret, Py.raise.
  - destruct (Qltb _ _); [discriminate|]. cbn [self heap fresh].
    erewrite remove_open_closed; cbn [self heap fresh options_positions set_closed_positions
      set_stock_positions set_transaction_history set_cash]; try done.
    + intros [= <-]. exists before, after. cbn. repeat split; try done.
      intros r. by rewrite !Hins.
    + intros r Hr. rewrite !fn_lookup_insert_ne by (intros ->; done). by apply Hbefore.
    + by rewrite !fn_lookup_insert.
  - destruct (stock_positions (self w) !! _) as [sp|]; [destruct (_ =? _)%Z|];
      cbn [self heap fresh];
      (erewrite remove_open_closed; cbn [self heap fresh options_positions set_closed_positions
         set_stock_positions set_transaction_history set_cash]; try done;
       [ intros [= <-]; exists before, after; cbn; repeat split; try done;
         intros r; by rewrite !Hins
       | intros r Hr; rewrite !fn_lookup_insert_ne by (intros ->; done); by apply Hbefore
       | by rewrite !fn_lookup_insert ]).
  - cbn [self heap fresh].
    erewrite remove_open_closed; cbn [self heap fresh options_positions set_closed_positions];
      try done.
    + intros [= <-]. exists before, after. cbn. repeat split; try done.
      intros r. by rewrite !Hins.
    + intros r Hr. rewrite !fn_lookup_insert_ne by (intros ->; done). by apply Hbefore.
    + by rewrite !fn_lookup_insert.
Qed.

(** X11. The premium collected is booked at the sale and stays: an accepted
    put sale raises [get_total_premium_collected] by the premium of the
    position, and closing an open position by assignment or expiry leaves
    the total as it was. *)
Theorem premium_collected_spec (w w' : world) (c : ledger_call) :
  (∀ r, r ∈ options_positions (self w) → OptionsPosition.status (heap w r) = OPEN) →
  perform c w = Py.Return tt w' →
  (closes c = true → callee c ∈ options_positions (self w) →
   (get_total_premium_collected w' == get_total_premium_collected w)%Q)
  ∧ (∀ p, c = SellPut p →
     (get_total_premium_collected w'
      == get_total_premium_collected w + OptionsPosition.total_premium (heap w p))%Q).
Proof.
  intros Hopen Hrun. split.
  - intros Hc Hin.
    destruct (closing_moves c w w' Hc Hin Hopen Hrun) as (before & after & Hl & Hl' & Hcl & Hprem).
    unfold get_total_premium_collected. rewrite Hl, Hl', Hcl.
    rewrite !(premium_sum_ext (heap w) (heap w')) by done.
    change (callee c :: after) with ([callee c] ++ after).
    rewrite !premium_sum_app. lra.
  - intros p ->. simpl in Hrun.
    destruct (Qltb_spec (cash (self w))
                (OptionsPosition.strike (heap w p) * inject_Z (OptionsPosition.contracts (heap w p)) * 100))
      as [Hlt|Hge].
    + unfold sell_put, Py.bind, deref, get, Py.gets in Hrun. apply Qltb_true in Hlt.
      rewrite Hlt in Hrun. discriminate.
    + apply Qnot_lt_le in Hge. destruct (sell_put_run w p Hge) as (w1 & Hrun1 & _ & Ho & Hh).
      rewrite Hrun in Hrun1. injection Hrun1 as <-.
      assert (closed_positions (self w') = closed_positions (self w)) as Hcl.
      { revert Hrun. unfold sell_put, add_cash, Py.bind, deref, get, Py.gets, upd, Py.modify.
        apply Qltb_false in Hge. rewrite Hge. by intros [= <-]. }
      unfold get_total_premium_collected. rewrite Ho, Hcl, Hh.
      rewrite premium_sum_app. simpl. lra.
Qed.

Lemma premium_collected_spec_witness :
  ∃ w', perform (ExpireWorthless 0 10) (Example.world 10000 ∅ [0%nat]) = Py.Return tt w'
        ∧ (get_total_premium_collected w'
           == get_total_premium_collected (Example.world 10000 ∅ [0%nat]))%Q.
Proof.
  eexists. split; [reflexivity|].
  eapply (premium_collected_spec (Example.world 10000 ∅ [0%nat]) _ (ExpireWorthless 0 10)).
  - intros r Hr. apply list_elem_of_singleton in Hr. rewrite Hr. reflexivity.
  - reflexivity.
  - reflexivity.
  - apply list_elem_of_here.
Defined.

End Valuation.

(** ** More on the strike ladder *)

Section StrikeLadder.

Lemma round_strike_proper (x y : Q) : (x == y)%Q → round_strike x = round_strike y.
Proof.
  intros E. unfold round_strike, Qltb.
  assert (Qle_bool 50 x = Qle_bool 50 y) as ->.
  { apply eq_true_iff_eq. rewrite !Qle_bool_iff. by rewrite E. }
  rewrite (round_proper x y E), (round_proper (x * 2) (y * 2)); [done|by rewrite E].
Qed.


(** X12. The two smallest ladders.  A negative [num_strikes] makes the loop
    range empty and the result is the empty list; [num_strikes = 0] gives
    the one strike obtained by rounding the stock price itself. *)
Theorem generate_strike_prices_degenerate (stock_price spacing_pct : Q) (num_strikes : Z) :
  ((num_strikes < 0)%Z → generate_strike_prices stock_price num_strikes spacing_pct = [])
  ∧ generate_strike_prices stock_price 0 spacing_pct = [round_strike stock_price].
Proof.
  split.
  - intros Hn. rewrite generate_strike_prices_unfold. unfold Py.range.
    by replace (Z.to_nat (num_strikes + 1 - - num_strikes)) with 0%nat by lia.
  - rewrite generate_strike_prices_unfold.
    change (Py.range (- 0) (0 + 1)) with [0%Z].
    change (Py.sorted (Py.set ((λ i, round_strike (strike_candidate stock_price spacing_pct i))
                                 <$> [0%Z])))
      with [round_strike (strike_candidate stock_price spacing_pct 0)].
    f_equal. apply round_strike_proper. unfold strike_candidate. simpl. ring.
Qed.

Lemma generate_strike_prices_degenerate_witness :
  generate_strike_prices 100 (-1) (25 # 1000) = []
  ∧ generate_strike_prices 100 0 (25 # 1000) = [round_strike 100].
Proof.
  destruct (generate_strike_prices_degenerate 100 (25 # 1000) (-1)) as [Hempty Hone].
  split; [apply Hempty; reflexivity | exact Hone].
Defined.



End StrikeLadder.

(** * Further properties of the engine *)

(** ** What closing a position does to a ledger in order *)

Section Closing.

Import Portfolio.

Lemma closing_effect (c : ledger_call) (w : world) (before after : list ref) :
  closes c = true →
  options_positions (self w) = before ++ callee c :: after →
  callee c ∉ before →
  (∀ r, r ∈ before → OptionsPosition.status (heap w r) = OPEN) →
  match perform c w with
  | Py.Return _ w' =>
      options_positions (self w') = before ++ after
      ∧ closed_positions (self w') = closed_positions (self w) ++ [callee c]
      ∧ fresh w' = fresh w
      ∧ (∀ r, r ≠ callee c → heap w' r = heap w r)
      ∧ OptionsPosition.status (heap w' (callee c)) ≠ OPEN
      ∧ contract (heap w' (callee c)) = contract (heap w (callee c))
  | Py.Raised e w' =>
      w' = w
      ∧ ∃ available required, e = Py.ValueError (Py.InsufficientCash available required)
  end.
Proof.
  intros Hc Hl Hnot Hbefore.
  destruct c as [p|p|p price date|p price date|p date]; try discriminate; simpl in *;
    unfold assign_put, assign_call, expire_worthless, add_cash, remove_cash, Py.bind,
      deref, get, upd, assign, Py.gets, Py.modify, Py.ret, Py.raise.
  - destruct (Qltb _ _); [by eauto|]. cbn [self heap fresh].
    erewrite remove_open_closed; cbn [self heap fresh options_positions set_closed_positions
      set_stock_positions set_transaction_history set_cash]; try done.
    + cbn. repeat split; try done.
      * intros r Hr. by rewrite !fn_lookup_insert_ne.
      * by rewrite !fn_lookup_insert.
      * by rewrite !fn_lookup_insert.
    + intros r Hr. rewrite !fn_lookup_insert_ne by (intros ->; done). by apply Hbefore.
    + by rewrite !fn_lookup_insert.
  - destruct (stock_positions (self w) !! _) as [sp|]; [destruct (_ =? _)%Z|];
      cbn [self heap fresh];
      (erewrite remove_open_closed; cbn [self heap fresh options_positions set_closed_positions
         set_stock_positions set_transaction_history set_cash]; try done;
       [ cbn; repeat split; try done;
         [ intros r Hr; by rewrite !fn_lookup_insert_ne
         | by rewrite !fn_lookup_insert
         | by rewrite !fn_lookup_insert ]
       | intros r Hr; rewrite !fn_lookup_insert_ne by (intros ->; done); by apply Hbefore
       | by rewrite !fn_lookup_insert ]).
  - cbn [self heap fresh].
    erewrite remove_open_closed; cbn [self heap fresh options_positions set_closed_positions];
      try done.
    + cbn. repeat split; try done.
      * intros r Hr. by rewrite !fn_lookup_insert_ne.
      * by rewrite !fn_lookup_insert.
      * by rewrite !fn_lookup_insert.
    + intros r Hr. rewrite !fn_lookup_insert_ne by (intros ->; done). by apply Hbefore.
    + by rewrite !fn_lookup_insert.
Qed.

Lemma closing_in_order (c : ledger_call) (w : world) (kept rest : list ref) :
  closes c = true →
  options_positions (self w) = kept ++ callee c :: rest →
  well_formed w →
  match perform c w with
  | Py.Return _ w' =>
      well_formed w'
      ∧ options_positions (self w') = kept ++ rest
      ∧ closed_positions (self w') = closed_positions (self w) ++ [callee c]
      ∧ fresh w' = fresh w
      ∧ (∀ r, contract (heap w' r) = contract (heap w r))
  | Py.Raised e w' =>
      w' = w
      ∧ ∃ available required, e = Py.ValueError (Py.InsufficientCash available required)
  end.
Proof.
  intros Hc Hl (Hnd & Hopen & Hclosed & Hbound). rewrite Hl in *.
  assert ((callee c ∉ kept) ∧ (callee c ∉ rest) ∧ (callee c ∉ closed_positions (self w)))
    as (Hk & Hr & Hcl).
  { apply NoDup_app in Hnd as (Hnd & Hdis & _).
    apply NoDup_app in Hnd as (_ & Hkr & Hrest). apply NoDup_cons in Hrest as [Hrest _].
    split; [|split; [done|]].
    - intros Hin. apply (Hkr _ Hin). left.
    - apply Hdis. set_solver. }
  pose proof (closing_effect c w kept rest Hc Hl Hk) as H.
  destruct (perform c w) as [[] w'|e w']; [|apply H; intros; apply Hopen; set_solver].
  destruct H as (Ho & Hc' & Hf & Hh & Hst & Hct); [intros; apply Hopen; set_solver|].
  assert ((kept ++ rest) ++ closed_positions (self w) ++ [callee c]
          ≡ₚ (kept ++ callee c :: rest) ++ closed_positions (self w)) as Hperm.
  { rewrite app_assoc, <- Permutation_cons_append, <- Permutation_middle. done. }
  split; [|split; [done|split; [done|split; [done|]]]].
  - unfold well_formed. rewrite Ho, Hc', Hf, Hperm. split; [done|]. split; [|split].
    + intros r Hr'. rewrite Hh; [apply Hopen; set_solver|]. intros ->. set_solver.
    + intros r [Hr'| ->%list_elem_of_singleton]%elem_of_app; [|done].
      rewrite Hh; [by apply Hclosed|]. by intros ->.
    + intros r Hr'. apply Hbound. set_solver.
  - intros r. destruct (decide (r = callee c)) as [->|Hne]; [done|]. by rewrite Hh.
Qed.

End Closing.

(** ** The expiration loop *)

Lemma index_in_range {A} (l : list A) (i : Z) :
  (i < Z.of_nat (length l))%Z → Py.index l i = None → (i < - Z.of_nat (length l))%Z.
Proof.
  intros Hlt. unfold Py.index.
  destruct (Z.leb_spec 0 i) as [Hi|Hi].
  - intros Hn%lookup_ge_None. lia.
  - destruct (Z.leb_spec 0 (i + Z.of_nat (length l))) as [Hj|Hj]; [|lia].
    intros Hn%lookup_ge_None. lia.
Qed.

Lemma resolution_event_contract (get_price_at_date : string → option Z → Q)
    (w w' : Portfolio.world) (r : ref) (now : Z) :
  contract (Portfolio.heap w' r) = contract (Portfolio.heap w r) →
  resolution_event get_price_at_date w' r now = resolution_event get_price_at_date w r now.
Proof.
  unfold contract, resolution_event, OptionsPosition.total_premium.
  intros [= -> -> -> _ -> ->]. done.
Qed.

Lemma expired_at_contract (w w' : Portfolio.world) (r : ref) (now : Z) :
  contract (Portfolio.heap w' r) = contract (Portfolio.heap w r) →
  expired_at w' now r = expired_at w now r.
Proof.
  unfold contract, expired_at, OptionsPosition.is_expired. by intros [= _ _ _ -> _ _].
Qed.

Section EngineLoop.

Import WheelSimulator.

Variable get_price_at_date : string → option Z → Q.

(** A property of the ledger that closing an open position preserves. *)
Variable P : Portfolio.world → Prop.

Hypothesis P_closing : ∀ c w,
  closes c = true → callee c ∈ Portfolio.options_positions (Portfolio.self w) →
  well_formed w → P w → P (Py.final (perform c w)).

Lemma set_portfolio_same (s : t) : set_portfolio (portfolio s) s = s.
Proof. by destruct s. Qed.

Lemma process_position_resolves (s : t) (position : ref) (expired_events : list Event)
    (now : Z) :
  current_date s = Some now →
  process_position get_price_at_date position expired_events s
  = if expired_at (portfolio s) now position
    then Py.bind (on_portfolio (perform (resolution get_price_at_date (portfolio s) position now)))
           (λ _, Py.ret (expired_events
                         ++ [resolution_event get_price_at_date (portfolio s) position now])) s
    else Py.Return expired_events s.
Proof.
  intros Hnow. unfold process_position. unfold Py.bind at 1. unfold on_portfolio at 1, Py.zoom.
  cbn [Portfolio.deref Py.gets]. unfold Py.bind at 1, Py.gets.
  rewrite set_portfolio_same, Hnow. unfold expired_at, resolution, resolution_event.
  destruct (OptionsPosition.is_expired _ _); [|done].
  destruct (OptionsPosition.option_type _); by destruct (Qltb _ _).
Qed.

Lemma for_each_position_cons (position : ref) (rest : list ref)
    (expired_events : list Event) (s : t) :
  for_each_position get_price_at_date (position :: rest) expired_events s
  = match process_position get_price_at_date position expired_events s with
    | Py.Return events s' => for_each_position get_price_at_date rest events s'
    | Py.Raised e s' => Py.Raised e s'
    end.
Proof. reflexivity. Qed.

Lemma for_each_position_spec (now : Z) (positions : list ref) :
  ∀ (kept : list ref) (expired_events : list Event) (s : t),
  current_date s = Some now →
  Portfolio.options_positions (Portfolio.self (portfolio s)) = kept ++ positions →
  well_formed (portfolio s) → P (portfolio s) →
  let o := for_each_position get_price_at_date positions expired_events s in
  well_formed (portfolio (Py.final o)) ∧ P (portfolio (Py.final o))
  ∧ same_clock s (Py.final o)
  ∧ Portfolio.fresh (portfolio (Py.final o)) = Portfolio.fresh (portfolio s)
  ∧ (∀ r, contract (Portfolio.heap (portfolio (Py.final o)) r)
          = contract (Portfolio.heap (portfolio s) r))
  ∧ match o with
    | Py.Return events s' =>
        Portfolio.options_positions (Portfolio.self (portfolio s'))
        = kept ++ filter (λ r, negb (expired_at (portfolio s) now r)) positions
        ∧ Portfolio.closed_positions (Portfolio.self (portfolio s'))
          = Portfolio.closed_positions (Portfolio.self (portfolio s))
            ++ filter (λ r, expired_at (portfolio s) now r) positions
        ∧ events = expired_events
                   ++ ((λ r, resolution_event get_price_at_date (portfolio s) r now)
                       <$> filter (λ r, expired_at (portfolio s) now r) positions)
    | Py.Raised e _ =>
        ∃ available required, e = Py.ValueError (Py.InsufficientCash available required)
    end.
Proof.
  induction positions as [|p rest IH]; intros kept events s Hnow Hl Hwf HP o; subst o.
  { simpl. rewrite !app_nil_r. rewrite app_nil_r in Hl. by split_and!. }
  rewrite for_each_position_cons, (process_position_resolves s p events now Hnow).
  destruct (expired_at (portfolio s) now p) eqn:Hexp.
  - set (c := resolution get_price_at_date (portfolio s) p now).
    assert (closes c = true ∧ callee c = p) as [Hc Hp].
    { unfold c, resolution. destruct (OptionsPosition.option_type _); by destruct (Qltb _ _). }
    pose proof (closing_in_order c (portfolio s) kept rest Hc) as Hclose.
    rewrite Hp in Hclose. specialize (Hclose Hl Hwf).
    pose proof (P_closing c (portfolio s) Hc) as HP'.
    rewrite Hp, Hl in HP'. specialize (HP' ltac:(set_solver) Hwf HP).
    unfold Py.bind, on_portfolio, Py.zoom.
    destruct (perform c (portfolio s)) as [[] w'|e w']; cbn [Py.final] in HP'.
    + destruct Hclose as (Hwf' & Ho & Hcl & Hf & Hct). cbn [Py.ret].
      specialize (IH kept (events ++ [resolution_event get_price_at_date (portfolio s) p now])
                    (set_portfolio w' s)).
      cbn [portfolio set_portfolio current_date] in IH.
      specialize (IH Hnow Ho Hwf' HP'). cbv zeta in IH.
      destruct IH as (Hwf2 & HP2 & Hclock & Hf2 & Hct2 & Hout).
      split; [done|]. split; [done|]. split; [exact Hclock|].
      split; [by rewrite Hf2|]. split; [intros r; by rewrite Hct2, Hct|].
      destruct (for_each_position _ _ _ _) as [evs s2|e s2]; [|done].
      destruct Hout as (Ho2 & Hcl2 & Hev).
      rewrite !filter_cons, Hexp. simpl.
      rewrite (list_filter_iff _ (λ r, negb (expired_at w' now r))) by
        (intros r; by rewrite (expired_at_contract _ _ _ _ (Hct r))).
      rewrite (list_filter_iff (λ r, expired_at (portfolio s) now r)
                 (λ r, expired_at w' now r)) by
        (intros r; by rewrite (expired_at_contract _ _ _ _ (Hct r))).
      split; [done|]. split.
      * rewrite Hcl2, Hcl. by rewrite <- app_assoc.
      * rewrite Hev, <- app_assoc. simpl. do 2 f_equal.
        apply list_fmap_ext. intros _ r _. symmetry. by apply resolution_event_contract.
    + destruct Hclose as [-> Herr]. cbn [Py.final portfolio set_portfolio].
      rewrite set_portfolio_same. by split_and!.
  - specialize (IH (kept ++ [p]) events s Hnow).
    rewrite <- app_assoc in IH. specialize (IH Hl Hwf HP). cbv zeta in IH.
    destruct IH as (Hwf2 & HP2 & Hclock & Hf2 & Hct2 & Hout).
    repeat (split; [done|]).
    destruct (for_each_position _ _ _ _) as [evs s2|e s2]; [|done].
    destruct Hout as (Ho2 & Hcl2 & Hev).
    rewrite !filter_cons, Hexp. simpl. rewrite <- app_assoc in Ho2. done.
Qed.

Lemma process_expirations_unfold (s : t) :
  _process_expirations get_price_at_date s
  = for_each_position get_price_at_date
      (Portfolio.options_positions (Portfolio.self (portfolio s))) [] s.
Proof.
  unfold _process_expirations, Py.bind, on_portfolio, Py.zoom; simpl.
  by rewrite set_portfolio_same.
Qed.

Lemma advance_day_lands (s : t) (days now : Z) :
  (current_date_index s + days < Z.of_nat (length (trading_dates s)))%Z →
  Py.index (trading_dates s) (current_date_index s + days) = Some now →
  advance_day get_price_at_date days s
  = match _process_expirations get_price_at_date
            (set_current_date (Some now)
               (set_current_date_index (current_date_index s + days) s)) with
    | Py.Return events s' => Py.Return (true, events) s'
    | Py.Raised e s' => Py.Raised e s'
    end.
Proof.
  intros Hlt Hd. unfold advance_day, Py.bind, Py.modify, Py.gets; simpl.
  apply Z.leb_gt in Hlt. by rewrite Hlt, Hd.
Qed.

Lemma advance_day_below (s : t) (days : Z) :
  (current_date_index s + days < Z.of_nat (length (trading_dates s)))%Z →
  Py.index (trading_dates s) (current_date_index s + days) = None →
  advance_day get_price_at_date days s
  = Py.Raised Py.IndexError (set_current_date_index (current_date_index s + days) s).
Proof.
  intros Hlt Hd. unfold advance_day, Py.bind, Py.modify, Py.gets; simpl.
  apply Z.leb_gt in Hlt. by rewrite Hlt, Hd.
Qed.

Lemma advance_day_spec (s : t) (days : Z) :
  well_formed (portfolio s) → P (portfolio s) →
  let index := (current_date_index s + days)%Z in
  let open := Portfolio.options_positions (Portfolio.self (portfolio s)) in
  let o := advance_day get_price_at_date days s in
  well_formed (portfolio (Py.final o)) ∧ P (portfolio (Py.final o))
  ∧ trading_dates (Py.final o) = trading_dates s
  ∧ (∀ r, contract (Portfolio.heap (portfolio (Py.final o)) r)
          = contract (Portfolio.heap (portfolio s) r))
  ∧ match o with
    | Py.Return (ok, events) s' =>
        if ok then
          ∃ now,
            (index < Z.of_nat (length (trading_dates s)))%Z
            ∧ Py.index (trading_dates s) index = Some now
            ∧ current_date s' = Some now ∧ current_date_index s' = index
            ∧ Portfolio.options_positions (Portfolio.self (portfolio s'))
              = filter (λ r, negb (expired_at (portfolio s) now r)) open
            ∧ Portfolio.closed_positions (Portfolio.self (portfolio s'))
              = Portfolio.closed_positions (Portfolio.self (portfolio s))
                ++ filter (λ r, expired_at (portfolio s) now r) open
            ∧ events = (λ r, resolution_event get_price_at_date (portfolio s) r now)
                       <$> filter (λ r, expired_at (portfolio s) now r) open
        else
          (Z.of_nat (length (trading_dates s)) <= index)%Z ∧ s' = clamped s ∧ events = []
    | Py.Raised e s' =>
        current_date_index s' = index
        ∧ ((e = Py.IndexError ∧ (index < - Z.of_nat (length (trading_dates s)))%Z
            ∧ s' = set_current_date_index index s)
           ∨ ∃ now available required,
               e = Py.ValueError (Py.InsufficientCash available required)
               ∧ Py.index (trading_dates s) index = Some now
               ∧ current_date s' = Some now)
    end.
Proof.
  intros Hwf HP index open o. subst o.
  destruct (Z.le_gt_cases (Z.of_nat (length (trading_dates s))) index) as [Hover|Hlt].
  { rewrite advance_day_overshoot by done. by split_and!. }
  destruct (Py.index (trading_dates s) index) as [now|] eqn:Hd.
  - rewrite (advance_day_lands s days now Hlt Hd), process_expirations_unfold.
    set (s1 := set_current_date (Some now) (set_current_date_index index s)).
    pose proof (for_each_position_spec now open [] [] s1 eq_refl eq_refl Hwf HP) as H.
    cbv zeta in H. destruct H as (Hwf' & HP' & (Hdate & Hdates & Hidx) & _ & Hct & Hout).
    change (Portfolio.options_positions (Portfolio.self (portfolio s1))) with open.
    destruct (for_each_position _ _ _ _) as [events s'|e s']; cbn [Py.final] in *.
    + split_and!; try done. destruct Hout as (Ho & Hcl & Hev).
      exists now. by split_and!.
    + split_and!; try done. right. destruct Hout as (a & b & ->).
      exists now, a, b. by split_and!.
  - rewrite (advance_day_below s days Hlt Hd). split_and!; try done.
    left. split_and!; try done. by apply index_in_range.
Qed.

End EngineLoop.

(** ** What an advance of the clock does to the positions *)

Lemma sample_in_order (cash : Q) (holdings : gmap string StockPosition.t) :
  well_formed (Example.world cash holdings [0%nat]).
Proof.
  split_and!; simpl.
  - apply (bool_decide_unpack _). reflexivity.
  - by intros r ->%list_elem_of_singleton.
  - by intros r ?%elem_of_nil.
  - intros r ->%list_elem_of_singleton. lia.
Qed.

Section Expirations.

Import WheelSimulator.

Variable get_price_at_date : string → option Z → Q.

(** X14. An advance that returns [True] has resolved every position that
    was open and expired on the date it lands on, in the order of the open
    list: the open list keeps exactly the positions not yet expired, the
    expired ones join the end of the closed list, and one event is reported
    for each of them, a put with the price below the strike as
    [put_assigned], a call with the price above the strike as
    [call_assigned], anything else (at the money included) as
    [expired_worthless].  No position left open is expired. *)
Theorem advance_day_resolves_expired (s s' : t) (days : Z) (events : list Event) :
  well_formed (portfolio s) →
  advance_day get_price_at_date days s = Py.Return (true, events) s' →
  let open := Portfolio.options_positions (Portfolio.self (portfolio s)) in
  ∃ now,
    Py.index (trading_dates s) (current_date_index s + days) = Some now
    ∧ current_date s' = Some now
    ∧ current_date_index s' = (current_date_index s + days)%Z
    ∧ Portfolio.options_positions (Portfolio.self (portfolio s'))
      = filter (λ r, negb (expired_at (portfolio s) now r)) open
    ∧ Portfolio.closed_positions (Portfolio.self (portfolio s'))
      = Portfolio.closed_positions (Portfolio.self (portfolio s))
        ++ filter (λ r, expired_at (portfolio s) now r) open
    ∧ events = (λ r, resolution_event get_price_at_date (portfolio s) r now)
               <$> filter (λ r, expired_at (portfolio s) now r) open
    ∧ (∀ r, r ∈ Portfolio.options_positions (Portfolio.self (portfolio s')) →
         OptionsPosition.is_expired (Portfolio.heap (portfolio s') r) now = false)
    ∧ well_formed (portfolio s').
Proof.
  intros Hwf Hrun open.
  pose proof (advance_day_spec get_price_at_date (λ _, True) (λ _ _ _ _ _ _, I)
                s days Hwf I) as H.
  cbv zeta in H. rewrite Hrun in H. cbn [Py.final] in H.
  destruct H as (Hwf' & _ & _ & Hct & now & _ & Hd & Hdate & Hidx & Ho & Hcl & Hev).
  exists now. split_and!; try done.
  intros r Hr. rewrite Ho in Hr. apply list_elem_of_filter in Hr as [Hr _].
  pose proof (expired_at_contract _ _ r now (Hct r)) as E. unfold expired_at in *.
  rewrite E. by destruct (OptionsPosition.is_expired _ _).
Qed.

(** X15. On a ledger in order an advance raises for two reasons only.  An
    [IndexError] means the new index lies below [-len]; nothing but the
    index has changed.  The other error is the [ValueError] of
    [remove_cash], when the cash does not cover a put that is assigned; the
    clock has moved to the new date by then.  In particular the removal
    from the open list never fails and the current date is never missing
    when the loop runs. *)
Theorem advance_day_raises_only (s s' : t) (days : Z) (e : Py.exn) :
  well_formed (portfolio s) →
  advance_day get_price_at_date days s = Py.Raised e s' →
  current_date_index s' = (current_date_index s + days)%Z
  ∧ well_formed (portfolio s')
  ∧ ((e = Py.IndexError
      ∧ (current_date_index s + days < - Z.of_nat (length (trading_dates s)))%Z
      ∧ s' = set_current_date_index (current_date_index s + days) s)
     ∨ ∃ now available required,
         e = Py.ValueError (Py.InsufficientCash available required)
         ∧ Py.index (trading_dates s) (current_date_index s + days) = Some now
         ∧ current_date s' = Some now).
Proof.
  intros Hwf Hrun.
  pose proof (advance_day_spec get_price_at_date (λ _, True) (λ _ _ _ _ _ _, I)
                s days Hwf I) as H.
  cbv zeta in H. rewrite Hrun in H. cbn [Py.final] in H.
  destruct H as (Hwf' & _ & _ & _ & Hidx & Hcases). by split_and!.
Qed.

End Expirations.

Lemma advance_day_resolves_expired_witness :
  ∃ events s',
    WheelSimulator.advance_day Example.prices 2 (Sample.engine 10000 [0%nat])
    = Py.Return (true, events) s'
    ∧ Portfolio.options_positions (Portfolio.self (WheelSimulator.portfolio s')) = [].
Proof.
  assert (∃ events s',
            WheelSimulator.advance_day Example.prices 2 (Sample.engine 10000 [0%nat])
            = Py.Return (true, events) s') as (events & s' & Hrun).
  { eexists _, _. vm_compute. reflexivity. }
  exists events, s'. split; [exact Hrun|].
  destruct (advance_day_resolves_expired Example.prices (Sample.engine 10000 [0%nat]) s' 2
              events (sample_in_order _ _) Hrun) as (now & Hd & _ & _ & Ho & _).
  injection Hd as <-. exact Ho.
Defined.

Lemma advance_day_raises_only_witness :
  ∃ e s',
    WheelSimulator.advance_day Example.prices 2 (Sample.engine 1000 [0%nat]) = Py.Raised e s'
    ∧ WheelSimulator.current_date_index s' = 3%Z.
Proof.
  assert (∃ e s',
            WheelSimulator.advance_day Example.prices 2 (Sample.engine 1000 [0%nat])
            = Py.Raised e s') as (e & s' & Hrun).
  { eexists _, _. vm_compute. reflexivity. }
  exists e, s'. split; [exact Hrun|].
  destruct (advance_day_raises_only Example.prices (Sample.engine 1000 [0%nat]) s' 2 e
              (sample_in_order _ _) Hrun) as (Hidx & _).
  exact Hidx.
Defined.

(** ** Orders *)

Section Sales.

Import Portfolio.

Lemma sale_effect (c : ledger_call) (w : world) :
  closes c = false →
  (∃ why, perform c w = Py.Raised (Py.ValueError why) w)
  ∨ ∃ w', perform c w = Py.Return tt w'
          ∧ heap w' = heap w ∧ fresh w' = fresh w
          ∧ options_positions (self w') = options_positions (self w) ++ [callee c]
          ∧ closed_positions (self w') = closed_positions (self w)
          ∧ stock_positions (self w') = stock_positions (self w)
          ∧ cash (self w')
            = (cash (self w) + OptionsPosition.total_premium (heap w (callee c)))%Q.
Proof.
  destruct c as [p|p|p price date|p price date|p date]; try discriminate; intros _;
    cbn [perform callee];
    unfold sell_put, sell_call, add_cash, Py.bind, deref, get, upd, Py.gets, Py.modify,
      Py.raise.
  - destruct (Qltb _ _); [left; eexists; reflexivity|right].
    cbn [self heap fresh]. eexists. split; [reflexivity|]. by cbn.
  - destruct (match _ with None => true | Some _ => _ end); [left; eexists; reflexivity|right].
    cbn [self heap fresh]. eexists. split; [reflexivity|]. by cbn.
Qed.

Lemma allocate_in_order (pos : OptionsPosition.t) (w : world) :
  well_formed w → well_formed (allocate pos w).
Proof.
  intros (Hnd & Hopen & Hclosed & Hbound). unfold well_formed, allocate; simpl.
  split_and!; [done|..].
  - intros r Hr. rewrite fn_lookup_insert_ne; [by apply Hopen|].
    intros <-. assert (fresh w < fresh w)%nat; [apply Hbound; set_solver|lia].
  - intros r Hr. rewrite fn_lookup_insert_ne; [by apply Hclosed|].
    intros <-. assert (fresh w < fresh w)%nat; [apply Hbound; set_solver|lia].
  - intros r Hr. apply Hbound in Hr. lia.
Qed.

Lemma sale_in_order (c : ledger_call) (pos : OptionsPosition.t) (w : world) :
  closes c = false → callee c = fresh w → OptionsPosition.status pos = OPEN →
  well_formed w → well_formed (Py.final (perform c (allocate pos w))).
Proof.
  intros Hc Hp Hst Hwf. pose proof (allocate_in_order pos w Hwf) as Hwf1.
  destruct (sale_effect c (allocate pos w) Hc) as [[why ->]|(w' & -> & Hh & Hf & Ho & Hcl & _)];
    [done|]. cbn [Py.final].
  destruct Hwf as (_ & _ & _ & Hbound). destruct Hwf1 as (Hnd & Hopen & Hclosed & Hbound1).
  unfold well_formed. rewrite Ho, Hcl, Hh, Hf, Hp. cbn [allocate heap fresh self] in *.
  assert (fresh w ∉ options_positions (self w) ++ closed_positions (self w)) as Hnew.
  { intros Hin. apply Hbound in Hin. lia. }
  split_and!.
  - rewrite <- app_assoc, (Permutation_app_comm [fresh w]), app_assoc.
    rewrite <- Permutation_cons_append. by apply NoDup_cons.
  - intros r [Hr| ->%list_elem_of_singleton]%elem_of_app; [by apply Hopen|].
    by rewrite fn_lookup_insert.
  - done.
  - intros r Hr. destruct (decide (r = fresh w)) as [->|Hne]; [lia|].
    apply Hbound1. set_solver.
Qed.

Lemma funded_closing (c : ledger_call) (w : world) :
  closes c = true → callee c ∈ options_positions (self w) → well_formed w →
  funded w → funded (Py.final (perform c w)).
Proof.
  intros Hc Hin Hwf [Hcash Hterms].
  destruct (perform_keeps c w (Hterms _ Hin)) as [Hcash' Hsame].
  split; [by apply Hcash'|]. intros r Hr.
  assert (r ∈ options_positions (self w)) as Hr0.
  { destruct (list_elem_of_split_l _ _ Hin) as (before & after & Hl & _).
    pose proof (closing_in_order c w before after Hc Hl Hwf) as H.
    destruct (perform c w) as [[] w'|e w']; cbn [Py.final] in *.
    - destruct H as (_ & Ho & _). rewrite Ho in Hr. rewrite Hl. set_solver.
    - by destruct H as [-> _]. }
  specialize (Hterms r Hr0). specialize (Hsame r). unfold terms in Hsame.
  injection Hsame as E1 E2 E3. unfold nonneg_terms. by rewrite E1, E2, E3.
Qed.

Lemma sale_funded (c : ledger_call) (pos : OptionsPosition.t) (w : world) :
  closes c = false → callee c = fresh w → nonneg_terms pos →
  well_formed w → funded w → funded (Py.final (perform c (allocate pos w))).
Proof.
  intros Hc Hp Hpos (_ & _ & _ & Hbound) [Hcash Hterms].
  assert (∀ r, r ∈ options_positions (self w) → nonneg_terms (heap (allocate pos w) r))
    as Hterms1.
  { intros r Hr. unfold allocate; simpl. rewrite fn_lookup_insert_ne; [by apply Hterms|].
    intros <-. assert (fresh w < fresh w)%nat; [apply Hbound; set_solver|lia]. }
  assert (nonneg_terms (heap (allocate pos w) (callee c))) as Hnew.
  { rewrite Hp. unfold allocate; simpl. by rewrite fn_lookup_insert. }
  destruct (perform_keeps c (allocate pos w) Hnew) as [Hcash' _].
  split; [by apply Hcash'|].
  destruct (sale_effect c (allocate pos w) Hc) as [[why ->]|(w' & -> & Hh & _ & Ho & _)];
    cbn [Py.final]; [done|].
  rewrite Ho, Hh. intros r [Hr| ->%list_elem_of_singleton]%elem_of_app; [by apply Hterms1|done].
Qed.

End Sales.

Section Orders.

Import WheelSimulator.

Variable get_price_at_date : string → option Z → Q.
Variable calculate_historical_volatility : string → option Z → Q.
Variable get_available_dates : string → list Z.
Variables np_log np_sqrt np_exp norm_cdf : Q → Q.

Lemma sell_put_option_outcome (s : t) (symbol : string) (strike : Q)
    (days_to_expiration contracts : Z) :
  sell_put_option get_price_at_date calculate_historical_volatility
    np_log np_sqrt np_exp norm_cdf symbol strike days_to_expiration contracts s
  = match Py.index (trading_dates s) (future_index s days_to_expiration) with
    | None => Py.Raised Py.IndexError s
    | Some expiration =>
        match Portfolio.sell_put (Portfolio.fresh (portfolio s))
                (allocate (ordered_contract get_price_at_date calculate_historical_volatility
                             np_log np_sqrt np_exp norm_cdf s PUT symbol strike
                             days_to_expiration contracts expiration) (portfolio s)) with
        | Py.Return _ w => Py.Return true (set_portfolio w s)
        | Py.Raised (Py.ValueError _) w => Py.Return false (set_portfolio w s)
        | Py.Raised e w => Py.Raised e (set_portfolio w s)
        end
    end.
Proof.
  unfold sell_put_option, Py.bind, Py.gets, future_index.
  destruct (Py.index _ _) as [expiration|]; [|done].
  unfold new_position, on_portfolio, Py.zoom, Py.try_except_ValueError, Py.bind.
  cbn [portfolio set_portfolio]. fold (allocate
    (ordered_contract get_price_at_date calculate_historical_volatility
       np_log np_sqrt np_exp norm_cdf s PUT symbol strike days_to_expiration contracts
       expiration) (portfolio s)).
  by destruct (Portfolio.sell_put _ _) as [[] w|[] w].
Qed.

Lemma sell_call_option_outcome (s : t) (symbol : string) (strike : Q)
    (days_to_expiration contracts : Z) :
  sell_call_option get_price_at_date calculate_historical_volatility
    np_log np_sqrt np_exp norm_cdf symbol strike days_to_expiration contracts s
  = match Py.index (trading_dates s) (future_index s days_to_expiration) with
    | None => Py.Raised Py.IndexError s
    | Some expiration =>
        match Portfolio.sell_call (Portfolio.fresh (portfolio s))
                (allocate (ordered_contract get_price_at_date calculate_historical_volatility
                             np_log np_sqrt np_exp norm_cdf s CALL symbol strike
                             days_to_expiration contracts expiration) (portfolio s)) with
        | Py.Return _ w => Py.Return true (set_portfolio w s)
        | Py.Raised (Py.ValueError _) w => Py.Return false (set_portfolio w s)
        | Py.Raised e w => Py.Raised e (set_portfolio w s)
        end
    end.
Proof.
  unfold sell_call_option, Py.bind, Py.gets, future_index.
  destruct (Py.index _ _) as [expiration|]; [|done].
  unfold new_position, on_portfolio, Py.zoom, Py.try_except_ValueError, Py.bind.
  cbn [portfolio set_portfolio]. fold (allocate
    (ordered_contract get_price_at_date calculate_historical_volatility
       np_log np_sqrt np_exp norm_cdf s CALL symbol strike days_to_expiration contracts
       expiration) (portfolio s)).
  by destruct (Portfolio.sell_call _ _) as [[] w|[] w].
Qed.

End Orders.

(** ** Sessions keep the ledger in order and funded *)

Section Sessions.

Import WheelSimulator.

Variable get_price_at_date : string → option Z → Q.
Variable calculate_historical_volatility : string → option Z → Q.
Variable get_available_dates : string → list Z.
Variables np_log np_sqrt np_exp norm_cdf : Q → Q.

Lemma initialize_portfolio (s : t) :
  portfolio (Py.final (initialize get_available_dates s)) = portfolio s.
Proof.
  unfold initialize, Py.bind, Py.modify, Py.gets; simpl.
  by destruct (get_available_dates _).
Qed.

Lemma sell_put_option_final (s : t) (symbol : string) (strike : Q)
    (days_to_expiration contracts : Z) :
  Py.final (sell_put_option get_price_at_date calculate_historical_volatility
              np_log np_sqrt np_exp norm_cdf symbol strike days_to_expiration contracts s)
  = match Py.index (trading_dates s) (future_index s days_to_expiration) with
    | None => s
    | Some expiration =>
        set_portfolio
          (Py.final (perform (SellPut (Portfolio.fresh (portfolio s)))
                       (allocate (ordered_contract get_price_at_date
                                    calculate_historical_volatility np_log np_sqrt np_exp
                                    norm_cdf s PUT symbol strike days_to_expiration contracts
                                    expiration) (portfolio s)))) s
    end.
Proof.
  rewrite sell_put_option_outcome. destruct (Py.index _ _); [|done]. cbn [perform].
  by destruct (Portfolio.sell_put _ _) as [[] w|[] w].
Qed.

Lemma sell_call_option_final (s : t) (symbol : string) (strike : Q)
    (days_to_expiration contracts : Z) :
  Py.final (sell_call_option get_price_at_date calculate_historical_volatility
              np_log np_sqrt np_exp norm_cdf symbol strike days_to_expiration contracts s)
  = match Py.index (trading_dates s) (future_index s days_to_expiration) with
    | None => s
    | Some expiration =>
        set_portfolio
          (Py.final (perform (SellCall (Portfolio.fresh (portfolio s)))
                       (allocate (ordered_contract get_price_at_date
                                    calculate_historical_volatility np_log np_sqrt np_exp
                                    norm_cdf s CALL symbol strike days_to_expiration contracts
                                    expiration) (portfolio s)))) s
    end.
Proof.
  rewrite sell_call_option_outcome. destruct (Py.index _ _); [|done]. cbn [perform].
  by destruct (Portfolio.sell_call _ _) as [[] w|[] w].
Qed.

Lemma ordered_contract_nonneg (s : t) (option_type : OptionType) (symbol : string)
    (strike : Q) (days_to_expiration contracts expiration : Z) :
  (0 <= strike)%Q → (0 <= contracts)%Z →
  nonneg_terms (ordered_contract get_price_at_date calculate_historical_volatility
                  np_log np_sqrt np_exp norm_cdf s option_type symbol strike
                  days_to_expiration contracts expiration).
Proof.
  intros Hk Hn. unfold nonneg_terms, ordered_contract; simpl.
  split_and!; [done..|apply option_price_nonneg].
Qed.

Lemma engine_step_sound (c : engine_call) (s : t) :
  well_formed (portfolio s) →
  well_formed (portfolio (engine_step get_price_at_date calculate_historical_volatility
                            get_available_dates np_log np_sqrt np_exp norm_cdf c s))
  ∧ (sane get_price_at_date calculate_historical_volatility c s → funded (portfolio s) →
     funded (portfolio (engine_step get_price_at_date calculate_historical_volatility
                          get_available_dates np_log np_sqrt np_exp norm_cdf c s))).
Proof.
  intros Hwf. destruct c as [|days|symbol strike dte contracts|symbol strike dte contracts];
    cbn [engine_step sane].
  - by rewrite initialize_portfolio.
  - split.
    + by destruct (advance_day_spec get_price_at_date (λ _, True) (λ _ _ _ _ _ _, I)
                     s days Hwf I) as (H & _).
    + intros _ Hf.
      by destruct (advance_day_spec get_price_at_date funded funded_closing s days Hwf Hf)
        as (_ & H & _).
  - rewrite sell_put_option_final. destruct (Py.index _ _) as [expiration|]; [|done].
    cbn [portfolio set_portfolio]. split.
    + by apply sale_in_order.
    + intros (Hk & Hn & _) Hf. apply sale_funded; try done.
      by apply ordered_contract_nonneg.
  - rewrite sell_call_option_final. destruct (Py.index _ _) as [expiration|]; [|done].
    cbn [portfolio set_portfolio]. split.
    + by apply sale_in_order.
    + intros (Hk & Hn & _) Hf. apply sale_funded; try done.
      by apply ordered_contract_nonneg.
Qed.

(** X16. Whatever is called on the engine, and whether the calls return
    or raise, the ledger stays in order: no position is listed twice or in
    both lists, every position of the open list has status [OPEN] and every
    position of the closed list another status. *)
Theorem session_in_order (calls : list engine_call) (s : t) :
  well_formed (portfolio s) →
  well_formed (portfolio (session get_price_at_date calculate_historical_volatility
                            get_available_dates np_log np_sqrt np_exp norm_cdf calls s)).
Proof.
  revert s. induction calls as [|c calls IH]; intros s Hwf; [done|].
  simpl. apply IH. by apply engine_step_sound.
Qed.


End Sessions.

Lemma init_in_order (objects : ref → OptionsPosition.t) :
  well_formed (WheelSimulator.portfolio (WheelSimulator.__init__ objects)).
Proof.
  split_and!; simpl; [constructor|by intros r ?%elem_of_nil..].
Qed.

Lemma session_in_order_witness :
  well_formed
    (WheelSimulator.portfolio
       (session Example.prices Example.prices (λ _, [0; 1; 2; 10]%Z) Qinv Qinv Qinv Qinv
          [Initialize; SellPutOption "XYZ" 50 2 1; AdvanceDay 3]
          (WheelSimulator.__init__ Example.objects))).
Proof. apply session_in_order, init_in_order. Defined.


(** ** The two order methods *)

Section OrderMethods.

Import WheelSimulator.

Variable get_price_at_date : string → option Z → Q.
Variable calculate_historical_volatility : string → option Z → Q.
Variables np_log np_sqrt np_exp norm_cdf : Q → Q.



End OrderMethods.



(** ** Particular advances of the clock *)

Section Advances.

Import WheelSimulator.

Variable get_price_at_date : string → option Z → Q.

Lemma for_each_position_quiet (now : Z) (positions : list ref) (events : list Event) (s : t) :
  current_date s = Some now →
  (∀ r, r ∈ positions → expired_at (portfolio s) now r = false) →
  for_each_position get_price_at_date positions events s = Py.Return events s.
Proof.
  intros Hnow. induction positions as [|p rest IH]; intros Hquiet; [done|].
  rewrite for_each_position_cons, (process_position_resolves _ s p events now Hnow).
  rewrite Hquiet by left. apply IH. intros r Hr. apply Hquiet. by right.
Qed.

(** X20. A quiet day.  An advance that lands on a date on which no open
    position has expired returns [True] with no event; it moves the index
    and the current date and leaves the portfolio as it was. *)
Theorem advance_day_quiet (s : t) (days now : Z) :
  (current_date_index s + days < Z.of_nat (length (trading_dates s)))%Z →
  Py.index (trading_dates s) (current_date_index s + days) = Some now →
  (∀ r, r ∈ Portfolio.options_positions (Portfolio.self (portfolio s)) →
        (now < OptionsPosition.expiration (Portfolio.heap (portfolio s) r))%Z) →
  advance_day get_price_at_date days s
  = Py.Return (true, [])
      (mk (portfolio s) (Some now) (trading_dates s) (current_date_index s + days)).
Proof.
  intros Hlt Hd Hopen.
  rewrite (advance_day_lands _ s days now Hlt Hd), process_expirations_unfold.
  rewrite (for_each_position_quiet now); [done..|].
  intros r Hr. apply Z.leb_gt. by apply Hopen.
Qed.

(** X21. An assignment the cash does not cover stops the advance half
    way.  When the first open position is a put that has expired on the
    date the advance lands on, with the price below its strike and less
    cash than [strike * contracts * 100], [advance_day] raises the
    [ValueError] of [remove_cash]: the index and the current date have
    moved, the portfolio is untouched (the put is still open) and the
    positions behind it have not been looked at. *)
Theorem advance_day_uncovered_put (s : t) (days now : Z) (position : ref)
    (rest : list ref) :
  let pos := Portfolio.heap (portfolio s) position in
  let cost := (OptionsPosition.strike pos * inject_Z (OptionsPosition.contracts pos) * 100)%Q in
  (current_date_index s + days < Z.of_nat (length (trading_dates s)))%Z →
  Py.index (trading_dates s) (current_date_index s + days) = Some now →
  Portfolio.options_positions (Portfolio.self (portfolio s)) = position :: rest →
  OptionsPosition.option_type pos = PUT →
  (OptionsPosition.expiration pos <= now)%Z →
  (get_price_at_date (OptionsPosition.symbol pos) (Some now) < OptionsPosition.strike pos)%Q →
  (Portfolio.cash (Portfolio.self (portfolio s)) < cost)%Q →
  advance_day get_price_at_date days s
  = Py.Raised
      (Py.ValueError (Py.InsufficientCash (Portfolio.cash (Portfolio.self (portfolio s))) cost))
      (mk (portfolio s) (Some now) (trading_dates s) (current_date_index s + days)).
Proof.
  intros pos cost Hlt Hd Hl Hput Hexp Hitm Hcash.
  apply Z.leb_le in Hexp. apply Qltb_true in Hitm. apply Qltb_true in Hcash.
  rewrite (advance_day_lands _ s days now Hlt Hd), process_expirations_unfold.
  set (s1 := set_current_date (Some now) (set_current_date_index _ s)).
  change (portfolio s1) with (portfolio s).
  rewrite Hl, for_each_position_cons, (process_position_resolves _ s1 position [] now eq_refl).
  change (portfolio s1) with (portfolio s).
  unfold expired_at, OptionsPosition.is_expired, resolution. fold pos.
  rewrite Hexp, Hput, Hitm.
  unfold Py.bind, on_portfolio, Py.zoom. cbn [perform portfolio].
  unfold Portfolio.assign_put, Portfolio.remove_cash, Py.bind, Portfolio.deref,
    Portfolio.get, Py.gets, Py.raise.
  change (portfolio s1) with (portfolio s). fold pos. fold cost. rewrite Hcash.
  subst s1. reflexivity.
Qed.

Lemma perform_raises (c : ledger_call) (w w' : Portfolio.world) (e : Py.exn) :
  perform c w = Py.Raised e w' → ∃ why, e = Py.ValueError why.
Proof.
  destruct c as [p|p|p price date|p price date|p date]; cbn [perform];
    unfold Portfolio.sell_put, Portfolio.sell_call, Portfolio.assign_put,
      Portfolio.assign_call, Portfolio.expire_worthless, Portfolio.add_cash,
      Portfolio.remove_cash, Portfolio.remove_open, Py.bind, Portfolio.deref, Portfolio.get,
      Portfolio.upd, Portfolio.assign, Py.gets, Py.modify, Py.ret, Py.raise.
  - destruct (Qltb _ _); [|done]. intros [= <- _]. by eexists.
  - destruct (match _ with None => true | Some _ => _ end); [|done].
    intros [= <- _]. by eexists.
  - destruct (Qltb _ _); [intros [= <- _]; by eexists|]. cbn [Portfolio.self Portfolio.heap].
    destruct (Py.list_remove _ _); [done|]. intros [= <- _]. by eexists.
  - destruct (Portfolio.stock_positions _ !! _) as [sp|]; [destruct (_ =? _)%Z|];
      cbn [Portfolio.self Portfolio.heap];
      (destruct (Py.list_remove _ _); [done|]; intros [= <- _]; by eexists).
  - cbn [Portfolio.self Portfolio.heap].
    destruct (Py.list_remove _ _); [done|]. intros [= <- _]. by eexists.
Qed.

Lemma for_each_position_raises (now : Z) (positions : list ref) :
  ∀ (events : list Event) (s s' : t) (e : Py.exn),
  current_date s = Some now →
  for_each_position get_price_at_date positions events s = Py.Raised e s' →
  ∃ why, e = Py.ValueError why.
Proof.
  induction positions as [|p rest IH]; intros events s s' e Hnow; [done|].
  rewrite for_each_position_cons.
  pose proof (process_position_clock get_price_at_date p events s) as (Hdate & _).
  rewrite (process_position_resolves _ s p events now Hnow) in *.
  destruct (expired_at (portfolio s) now p); [|by apply IH].
  unfold Py.bind, on_portfolio, Py.zoom in *.
  destruct (perform _ (portfolio s)) as [[] w1|e1 w1] eqn:Hrun; cbn [Py.ret Py.final] in *.
  - apply IH. by rewrite Hdate.
  - intros [= <- _]. by apply (perform_raises _ _ _ _ Hrun).
Qed.

(** X22. Stepping back below the first date.  With [-len <= index + days
    < 0] the subscript does not raise [IndexError]: it wraps around as
    Python's negative indices do, so that the current date becomes the date
    [len + index + days] places from the start while the index stays
    negative.  The expirations of that date are then processed as on any
    advance: when no open position has expired on it the call returns
    [True] with no event and the portfolio untouched; an assignment may
    still raise its [ValueError], and the date and the index have moved
    also then. *)
Theorem advance_day_negative_index (s : t) (days : Z) :
  let index := (current_date_index s + days)%Z in
  let len := Z.of_nat (length (trading_dates s)) in
  (- len <= index < 0)%Z →
  ∃ now,
    trading_dates s !! Z.to_nat (len + index) = Some now
    ∧ current_date (Py.final (advance_day get_price_at_date days s)) = Some now
    ∧ current_date_index (Py.final (advance_day get_price_at_date days s)) = index
    ∧ (∀ e s', advance_day get_price_at_date days s = Py.Raised e s' →
               ∃ why, e = Py.ValueError why)
    ∧ ((∀ r, r ∈ Portfolio.options_positions (Portfolio.self (portfolio s)) →
             (now < OptionsPosition.expiration (Portfolio.heap (portfolio s) r))%Z) →
       advance_day get_price_at_date days s
       = Py.Return (true, []) (mk (portfolio s) (Some now) (trading_dates s) index)).
Proof.
  intros index len Hrange.
  destruct (lookup_lt_is_Some_2 (trading_dates s) (Z.to_nat (len + index))) as [now Hnow];
    [unfold len; lia|].
  exists now. split; [done|].
  assert (Py.index (trading_dates s) index = Some now) as Hd.
  { unfold Py.index. fold len.
    destruct (Z.leb_spec 0 index); [lia|]. destruct (Z.leb_spec 0 (index + len)); [|lia].
    by rewrite Z.add_comm. }
  assert (index < len)%Z as Hlt by lia.
  rewrite (advance_day_lands _ s days now Hlt Hd).
  set (s1 := set_current_date (Some now) (set_current_date_index index s)).
  pose proof (process_expirations_clock get_price_at_date s1) as (Hdate & _ & Hidx).
  split_and!.
  - by destruct (_process_expirations _ _).
  - by destruct (_process_expirations _ _).
  - intros e s'. rewrite process_expirations_unfold.
    destruct (for_each_position _ _ _ _) as [events s2|e2 s2] eqn:Hrun; [done|].
    intros [= <- _]. by apply (for_each_position_raises now _ [] s1 _ _ eq_refl Hrun).
  - intros Hquiet. rewrite process_expirations_unfold.
    rewrite (for_each_position_quiet now); [done..|].
    intros r Hr. apply Z.leb_gt. by apply Hquiet.
Qed.

End Advances.

Lemma advance_day_quiet_witness :
  WheelSimulator.advance_day Example.prices 1 (Sample.engine 10000 [0%nat])
  = Py.Return (true, [])
      (WheelSimulator.mk (Example.world 10000 ∅ [0%nat]) (Some 2%Z) [0; 1; 2; 10]%Z 2).
Proof.
  apply (advance_day_quiet Example.prices (Sample.engine 10000 [0%nat]) 1 2).
  - simpl. lia.
  - reflexivity.
  - intros r ->%list_elem_of_singleton. simpl. lia.
Defined.

Lemma advance_day_uncovered_put_witness :
  WheelSimulator.advance_day Example.prices 2 (Sample.engine 1000 [0%nat])
  = Py.Raised (Py.ValueError (Py.InsufficientCash 1000 (50 * inject_Z 1 * 100)))
      (WheelSimulator.mk (Example.world 1000 ∅ [0%nat]) (Some 10%Z) [0; 1; 2; 10]%Z 3).
Proof.
  apply (advance_day_uncovered_put Example.prices (Sample.engine 1000 [0%nat]) 2 10 0%nat []).
  - simpl. lia.
  - reflexivity.
  - reflexivity.
  - reflexivity.
  - simpl. lia.
  - reflexivity.
  - reflexivity.
Defined.

Lemma advance_day_negative_index_witness :
  WheelSimulator.advance_day Example.prices (-3) (Sample.engine 10000 [0%nat])
  = Py.Return (true, [])
      (WheelSimulator.mk (Example.world 10000 ∅ [0%nat]) (Some 2%Z) [0; 1; 2; 10]%Z (-2)).
Proof.
  destruct (advance_day_negative_index Example.prices (Sample.engine 10000 [0%nat]) (-3))
    as (now & Hnow & _ & _ & _ & Hquiet); [simpl; lia|].
  injection Hnow as <-. apply Hquiet.
  intros r ->%list_elem_of_singleton. simpl. lia.
Defined.

(** ** The price table and the value of the portfolio *)

Section Prices.

Import WheelSimulator.

Variable get_price_at_date : string → option Z → Q.

Lemma prices_fold (f : string → Q) (symbols : list string) (prices : gmap string Q)
    (symbol : string) :
  foldl (λ prices symbol, <[symbol := f symbol]> prices) prices symbols !! symbol
  = if bool_decide (symbol ∈ symbols) then Some (f symbol) else prices !! symbol.
Proof.
  revert prices. induction symbols as [|a symbols IH]; intros prices; simpl; [done|].
  rewrite IH. destruct (decide (symbol ∈ symbols)) as [Hin|Hnot].
  - rewrite !bool_decide_eq_true_2; [done|by right|done].
  - rewrite (bool_decide_eq_false_2 _ Hnot). destruct (decide (a = symbol)) as [->|Hne].
    + rewrite lookup_insert_eq, bool_decide_eq_true_2; [done|by left].
    + rewrite lookup_insert_ne, bool_decide_eq_false_2; [done| |done].
      by intros [?|?]%elem_of_cons.
Qed.

Lemma current_price_nonneg (s : t) (symbol : string) :
  (0 <= default 0 (get_current_prices get_price_at_date s !! symbol))%Q.
Proof.
  unfold get_current_prices. rewrite prices_fold.
  destruct (bool_decide _); [|by rewrite lookup_empty]. simpl.
  destruct (Qle_bool _ 0) eqn:E; [done|].
  apply Qlt_le_weak, Qnot_le_lt. intros H. apply Qle_bool_iff in H. congruence.
Qed.

(** X23. The price table has an entry for the ten configured symbols and
    for nothing else; an entry is the price of the symbol on the current
    date, or 0 when that price is not positive, so no entry is negative. *)
Theorem get_current_prices_spec (s : t) (symbol : string) :
  match get_current_prices get_price_at_date s !! symbol with
  | Some price =>
      symbol ∈ config.STOCKS
      ∧ (price == Qmax (get_price_at_date symbol (current_date s)) 0)%Q
      ∧ (0 <= price)%Q
  | None => symbol ∉ config.STOCKS
  end.
Proof.
  unfold get_current_prices. rewrite prices_fold.
  destruct (bool_decide_reflect (symbol ∈ config.STOCKS)) as [Hin|Hnot];
    [|by rewrite lookup_empty].
  split; [done|]. destruct (Qle_bool _ 0) eqn:E.
  - apply Qle_bool_iff in E. split; [|done]. symmetry. by apply Q.max_r.
  - assert (0 < get_price_at_date symbol (current_date s))%Q as Hpos.
    { apply Qnot_le_lt. intros H. apply Qle_bool_iff in H. congruence. }
    split; [|by apply Qlt_le_weak]. symmetry. apply Q.max_l. by apply Qlt_le_weak.
Qed.


(** X24. Valued at the price table of the engine, a portfolio is worth at
    least its cash as long as no holding has a negative number of shares
    (which an uncovered call assignment can produce). *)
Theorem total_value_at_least_cash (s : t) :
  (∀ symbol holding,
     Portfolio.stock_positions (Portfolio.self (portfolio s)) !! symbol = Some holding →
     (0 <= StockPosition.shares holding)%Z) →
  (Portfolio.cash (Portfolio.self (portfolio s))
   <= Portfolio.get_total_value (get_current_prices get_price_at_date s) (portfolio s))%Q.
Proof.
  intros Hshares. unfold Portfolio.get_total_value.
  enough (0 <= map_fold (λ symbol pos acc,
             (acc + StockPosition.current_value pos
                      (default 0%Q (get_current_prices get_price_at_date s !! symbol)))%Q)
            0%Q (Portfolio.stock_positions (Portfolio.self (portfolio s))))%Q by lra.
  revert Hshares. generalize (Portfolio.stock_positions (Portfolio.self (portfolio s))).
  apply (map_fold_weak_ind
           (λ r (m : gmap string StockPosition.t),
              (∀ symbol holding, m !! symbol = Some holding →
                                 (0 <= StockPosition.shares holding)%Z)
              → (0 <= r)%Q)).
  - done.
  - intros symbol holding m r Hnew IH Hm.
    assert (0 <= r)%Q as Hr.
    { apply IH. intros k h Hk. apply (Hm k h). rewrite lookup_insert_ne; [done|].
      intros ->. congruence. }
    assert (0 <= inject_Z (StockPosition.shares holding))%Q as Hs.
    { change 0%Q with (inject_Z 0). rewrite <- Zle_Qle. apply (Hm symbol).
      by rewrite lookup_insert_eq. }
    pose proof (current_price_nonneg s symbol) as Hp.
    pose proof (Qmult_le_0_compat _ _ Hs Hp). unfold StockPosition.current_value. lra.
Qed.

End Prices.

Lemma total_value_at_least_cash_witness :
  (10000 <= Portfolio.get_total_value
              (WheelSimulator.get_current_prices Example.prices
                 (WheelSimulator.mk (Example.world 10000 {[ "KO" := Example.xyz 100 40 ]} [])
                    (Some 1%Z) [0; 1; 2; 10]%Z 1))
              (Example.world 10000 {[ "KO" := Example.xyz 100 40 ]} []))%Q.
Proof.
  apply (total_value_at_least_cash Example.prices
           (WheelSimulator.mk (Example.world 10000 {[ "KO" := Example.xyz 100 40 ]} [])
              (Some 1%Z) [0; 1; 2; 10]%Z 1)).
  intros symbol holding H.
  change (({[ "KO" := Example.xyz 100 40 ]} : gmap string StockPosition.t) !! symbol
          = Some holding) in H.
  apply lookup_singleton_Some in H as [_ <-]. simpl. lia.
Defined.

(** ** Starting the clock *)

Section Initialize.

Import WheelSimulator.

Variable get_available_dates : string → list Z.

(** X25. [initialize] reads the trading dates of the first configured
    symbol, AAPL.  With at least one date it returns with the clock on the
    first date at index 0, in step, and the portfolio untouched, also when
    called again in the middle of a session.  With no date it raises
    [ValueError]; by then the stored dates have been replaced by the empty
    list, while the current date and the index keep their old values. *)
Theorem initialize_spec (s : t) :
  match get_available_dates "AAPL" with
  | first :: dates =>
      initialize get_available_dates s
      = Py.Return tt (mk (portfolio s) (Some first) (first :: dates) 0)
      ∧ in_step (mk (portfolio s) (Some first) (first :: dates) 0)
  | [] =>
      initialize get_available_dates s
      = Py.Raised (Py.ValueError Py.NoTradingDates)
          (mk (portfolio s) (current_date s) [] (current_date_index s))
  end.
Proof.
  unfold initialize, Py.bind, Py.modify, Py.gets, Py.raise.
  change (default String.EmptyString (config.STOCKS !! 0%nat)) with "AAPL".
  cbn [trading_dates set_trading_dates].
  by destruct (get_available_dates "AAPL").
Qed.

End Initialize.

(** ** Put-call parity in exact arithmetic *)

Section IdealPricing.

Import Ideal.

Local Open Scope R_scope.

Ltac lra := Lra.lra.
Ltac nra := Lra.nra.



Lemma dlim_eq (f : R -> R) (x l l' : R) :
  derivable_pt_lim f x l -> l = l' -> derivable_pt_lim f x l'.
Proof. intros H <-. exact H. Qed.

Lemma gauss_pos (t : R) : 0 < gauss t.
Proof. apply exp_pos. Qed.

Lemma dlim_gauss (x : R) : derivable_pt_lim gauss x (- x * gauss x).
Proof.
  unfold gauss.
  apply (dlim_eq (comp exp (fun t => - (t * t) / 2)) x (exp (- (x * x) / 2) * (- x))); [|ring].
  apply (derivable_pt_lim_comp (fun t => - (t * t) / 2) exp).
  - apply (dlim_eq _ x ((- (1 * x + x * 1)) * / 2)); [|field].
    apply (derivable_pt_lim_ext (fun t => (- (id t * id t)) * / 2)%R); [intros; unfold id; field|].
    apply (derivable_pt_lim_ext (mult_real_fct (/ 2) (- (id * id))%F)).
    { intros z. unfold mult_real_fct, opp_fct, mult_fct, id. ring. }
    apply (dlim_eq _ x (/ 2 * (- (1 * id x + id x * 1)))); [|unfold id; ring].
    apply derivable_pt_lim_scal. apply derivable_pt_lim_opp.
    apply derivable_pt_lim_mult; apply derivable_pt_lim_id.
  - apply derivable_pt_lim_exp.
Qed.

Lemma gauss_continuity_pt (x : R) : continuity_pt gauss x.
Proof.
  apply derivable_continuous_pt. exists (- x * gauss x). apply dlim_gauss.
Qed.

(** Consequences of the mean value theorem. *)
Lemma dlim_zero_const (f : R -> R) (a b : R) :
  (forall c, a <= c <= b -> derivable_pt_lim f c 0) ->
  forall x y, a <= x -> x <= y -> y <= b -> f y = f x.
Proof.
  intros Hd x y Hax Hxy Hyb. destruct (Req_dec x y) as [->|Hne]; [reflexivity|].
  destruct (MVT_cor2 f (fun _ => 0) x y) as (c & Hc & _); [lra| |lra].
  intros c Hc. apply Hd. lra.
Qed.

Lemma dlim_nonneg_incr (f f' : R -> R) (a b : R) :
  (forall c, a <= c <= b -> derivable_pt_lim f c (f' c)) ->
  (forall c, a <= c <= b -> 0 <= f' c) ->
  forall x y, a <= x -> x <= y -> y <= b -> f x <= f y.
Proof.
  intros Hd Hpos x y Hax Hxy Hyb. destruct (Req_dec x y) as [->|Hne]; [lra|].
  destruct (MVT_cor2 f f' x y) as (c & Hc & Hin); [lra| |].
  - intros c Hc. apply Hd. lra.
  - assert (0 <= f' c) by (apply Hpos; lra).
    assert (0 <= f' c * (y - x)) by (apply Rmult_le_pos; lra). lra.
Qed.

Lemma dlim_pos_incr (f f' : R -> R) (a b : R) :
  (forall c, a <= c <= b -> derivable_pt_lim f c (f' c)) ->
  (forall c, a <= c <= b -> 0 < f' c) ->
  forall x y, a <= x -> x < y -> y <= b -> f x < f y.
Proof.
  intros Hd Hpos x y Hax Hxy Hyb.
  destruct (MVT_cor2 f f' x y) as (c & Hc & Hin); [lra| |].
  - intros c Hc. apply Hd. lra.
  - assert (0 < f' c) by (apply Hpos; lra).
    assert (0 < f' c * (y - x)) by (apply Rmult_lt_0_compat; lra). lra.
Qed.

(** A primitive of [gauss] on the whole line, by gluing the primitives the
    fundamental theorem gives on the intervals [[-(n+1), n+1]]. *)
Section Primitive.

Let radius (n : nat) : R := INR n + 1.

Lemma radius_pos n : 0 < radius n.
Proof. unfold radius. pose proof (pos_INR n). lra. Qed.

Lemma radius_le n : - radius n <= radius n.
Proof. pose proof (radius_pos n). lra. Qed.

Lemma gauss_cont_on n : forall x, - radius n <= x <= radius n -> continuity_pt gauss x.
Proof. intros. apply gauss_continuity_pt. Qed.

Let piece (n : nat) (x : R) : R :=
  primitive (radius_le n) (FTC_P1 (radius_le n) (gauss_cont_on n)) x
  - primitive (radius_le n) (FTC_P1 (radius_le n) (gauss_cont_on n)) 0.

Lemma piece_0 n : piece n 0 = 0.
Proof. unfold piece. ring. Qed.

Lemma dlim_piece n x :
  - radius n <= x <= radius n -> derivable_pt_lim (piece n) x (gauss x).
Proof.
  intros Hx. unfold piece.
  apply (dlim_eq _ x (gauss x - 0)); [|ring].
  apply (derivable_pt_lim_minus
           (primitive (radius_le n) (FTC_P1 (radius_le n) (gauss_cont_on n)))
           (fct_cte (primitive (radius_le n) (FTC_P1 (radius_le n) (gauss_cont_on n)) 0))).
  - by apply RiemannInt_P28.
  - apply derivable_pt_lim_const.
Qed.

Lemma piece_agree n m x :
  - radius n <= x <= radius n -> - radius m <= x <= radius m -> piece n x = piece m x.
Proof.
  intros Hn Hm.
  set (r := Rmin (radius n) (radius m)).
  assert (0 < r /\ r <= radius n /\ r <= radius m /\ - r <= x <= r) as (Hr & Hrn & Hrm & Hx).
  { unfold r, Rmin. pose proof (radius_pos n). pose proof (radius_pos m).
    destruct (Rle_dec (radius n) (radius m)); lra. }
  assert (forall c, - r <= c <= r ->
            derivable_pt_lim (fun y => piece n y - piece m y) c 0) as Hd.
  { intros c Hc. apply (dlim_eq _ c (gauss c - gauss c)); [|ring].
    apply (derivable_pt_lim_minus (piece n) (piece m)); apply dlim_piece; lra. }
  assert (piece n x - piece m x = piece n 0 - piece m 0) as E.
  { destruct (Rle_dec 0 x).
    - pose proof (dlim_zero_const _ (- r) r Hd 0 x) as E. simpl in E. apply E; lra.
    - pose proof (dlim_zero_const _ (- r) r Hd x 0) as E. simpl in E.
      symmetry. apply E; lra. }
  rewrite !piece_0 in E. lra.
Qed.

Let index (x : R) : nat := Z.to_nat (up (Rabs x)).

Lemma index_bound x : Rabs x < INR (index x).
Proof.
  unfold index. destruct (archimed (Rabs x)) as [Hup _].
  pose proof (Rabs_pos x).
  assert (0 < up (Rabs x))%Z by (apply lt_IZR; lra).
  rewrite INR_IZR_INZ, Z2Nat.id by lia. lra.
Qed.

Lemma gauss_primitive_exists :
  exists G : R -> R, G 0 = 0 /\ forall x, derivable_pt_lim G x (gauss x).
Proof.
  exists (fun x => piece (index x) x). split; [apply piece_0|].
  intros x.
  apply (derivable_pt_lim_locally_ext (piece (index x)) _ x (x - 1) (x + 1)); [lra| |].
  - intros z Hz. apply piece_agree.
    + pose proof (index_bound x). unfold radius.
      assert (Rabs z < Rabs x + 1).
      { unfold Rabs. destruct (Rcase_abs z), (Rcase_abs x); lra. }
      assert (Rabs z < INR (index x) + 1) as Hb by lra.
      unfold Rabs in Hb. destruct (Rcase_abs z); lra.
    + pose proof (index_bound z) as Hb. unfold radius.
      unfold Rabs in Hb. destruct (Rcase_abs z); lra.
  - apply dlim_piece. pose proof (index_bound x) as Hb. unfold radius.
    unfold Rabs in Hb. destruct (Rcase_abs x); lra.
Qed.

End Primitive.

Lemma gauss_area_0 : gauss_area 0 = 0.
Proof. apply (epsilon_spec _ _ gauss_primitive_exists). Qed.

Lemma dlim_gauss_area (x : R) : derivable_pt_lim gauss_area x (gauss x).
Proof. apply (epsilon_spec _ _ gauss_primitive_exists). Qed.

Lemma gauss_even (x : R) : gauss (- x) = gauss x.
Proof. unfold gauss. f_equal. field. Qed.

Lemma gauss_area_incr (x y : R) : x < y -> gauss_area x < gauss_area y.
Proof.
  intros Hxy. apply (dlim_pos_incr gauss_area gauss x y); try lra.
  - intros; apply dlim_gauss_area.
  - intros; apply gauss_pos.
Qed.

Lemma gauss_area_odd (x : R) : gauss_area (- x) = - gauss_area x.
Proof.
  assert (forall c, derivable_pt_lim (fun t => gauss_area t + gauss_area (- t)) c 0) as Hd.
  { intros c. apply (dlim_eq _ c (gauss c + gauss (- c) * (- 1))); [|rewrite gauss_even; ring].
    apply (derivable_pt_lim_plus gauss_area (comp gauss_area (fun t => - t))).
    - apply dlim_gauss_area.
    - apply (derivable_pt_lim_comp (fun t => - t) gauss_area).
      + apply (derivable_pt_lim_ext (- id)%F); [reflexivity|].
        apply derivable_pt_lim_opp, derivable_pt_lim_id.
      + apply dlim_gauss_area. }
  assert (gauss_area x + gauss_area (- x) = gauss_area 0 + gauss_area (- 0)) as E.
  { destruct (Rle_dec 0 x).
    - pose proof (dlim_zero_const _ 0 x (fun c _ => Hd c) 0 x) as E. simpl in E.
      apply E; lra.
    - pose proof (dlim_zero_const _ x 0 (fun c _ => Hd c) x 0) as E. simpl in E.
      symmetry. apply E; lra. }
  rewrite Ropp_0, gauss_area_0 in E. lra.
Qed.

Lemma gauss_le_exp (x : R) : gauss x <= exp (1 / 2 - x).
Proof.
  unfold gauss.
  assert (- (x * x) / 2 <= 1 / 2 - x) as [Hlt|Heq].
  { pose proof (Rle_0_sqr (x - 1)) as H. unfold Rsqr in H. lra. }
  - left. by apply exp_increasing.
  - rewrite Heq. apply Rle_refl.
Qed.

Lemma gauss_area_bounded (x : R) : gauss_area x < exp (1 / 2).
Proof.
  pose proof (exp_pos (1 / 2)) as He.
  destruct (Rle_dec x 0) as [Hx|Hx].
  - destruct (Req_dec x 0) as [->|Hne]; [rewrite gauss_area_0; lra|].
    pose proof (gauss_area_incr x 0). rewrite gauss_area_0 in *. lra.
  - assert (forall c, 0 <= c <= x ->
              derivable_pt_lim (fun t => - exp (1 / 2 - t) - gauss_area t) c
                (exp (1 / 2 - c) - gauss c)) as Hd.
    { intros c _.
      apply (derivable_pt_lim_minus (fun t => - exp (1 / 2 - t)) gauss_area);
        [|apply dlim_gauss_area].
      apply (dlim_eq _ c (- (exp (1 / 2 - c) * (0 - 1)))); [|ring].
      apply (derivable_pt_lim_opp (comp exp (fun t => 1 / 2 - t))).
      apply (derivable_pt_lim_comp (fun t => 1 / 2 - t) exp); [|apply derivable_pt_lim_exp].
      apply (derivable_pt_lim_minus (fct_cte (1 / 2)) id);
        [apply derivable_pt_lim_const|apply derivable_pt_lim_id]. }
    assert (forall c, 0 <= c <= x -> 0 <= exp (1 / 2 - c) - gauss c) as Hpos.
    { intros c _. pose proof (gauss_le_exp c). lra. }
    pose proof (dlim_nonneg_incr _ _ 0 x Hd Hpos 0 x) as Hm. cbv beta in Hm.
    rewrite gauss_area_0 in Hm. replace (1 / 2 - 0) with (1 / 2) in Hm by ring.
    pose proof (exp_pos (1 / 2 - x)). lra.
Qed.

Lemma gauss_half_mass_lub : is_lub (fun y => exists x, y = gauss_area x) gauss_half_mass.
Proof.
  unfold gauss_half_mass. apply epsilon_spec.
  destruct (completeness (fun y => exists x, y = gauss_area x)) as [m Hm].
  - exists (exp (1 / 2)). intros y [x ->]. left. apply gauss_area_bounded.
  - exists (gauss_area 0), 0. reflexivity.
  - by exists m.
Qed.

Lemma gauss_area_below (x : R) : gauss_area x < gauss_half_mass.
Proof.
  destruct gauss_half_mass_lub as [Hub _].
  assert (gauss_area (x + 1) <= gauss_half_mass) by (apply Hub; by exists (x + 1)).
  pose proof (gauss_area_incr x (x + 1)). lra.
Qed.

Lemma gauss_half_mass_pos : 0 < gauss_half_mass.
Proof. pose proof (gauss_area_below 0). rewrite gauss_area_0 in *. lra. Qed.

Lemma gauss_area_approaches (eps : R) :
  0 < eps -> exists x, gauss_half_mass - eps < gauss_area x.
Proof.
  intros Heps. destruct gauss_half_mass_lub as [_ Hleast].
  destruct (classic (exists x, gauss_half_mass - eps < gauss_area x)) as [|Hno]; [done|].
  exfalso. assert (gauss_half_mass <= gauss_half_mass - eps); [|lra].
  apply Hleast. intros y [x ->]. apply Rnot_lt_le. intros Hlt. apply Hno. by exists x.
Qed.

Lemma Phi_symmetric (x : R) : Phi x + Phi (- x) = 1.
Proof.
  unfold Phi. rewrite gauss_area_odd. pose proof gauss_half_mass_pos. field. lra.
Qed.

Lemma Phi_pos (x : R) : 0 < Phi x.
Proof.
  unfold Phi. pose proof gauss_half_mass_pos as Hm.
  pose proof (gauss_area_below (- x)) as Hb. rewrite gauss_area_odd in Hb.
  assert (- 1 / 2 < gauss_area x / (2 * gauss_half_mass)); [|lra].
  apply (Rmult_lt_reg_r (2 * gauss_half_mass)); [lra|]. field_simplify; lra.
Qed.

Lemma phi_pos (x : R) : 0 < phi x.
Proof.
  unfold phi. pose proof gauss_half_mass_pos. pose proof (gauss_pos x).
  apply Rdiv_lt_0_compat; lra.
Qed.

Lemma dlim_Phi (x : R) : derivable_pt_lim Phi x (phi x).
Proof.
  unfold Phi, phi.
  apply (derivable_pt_lim_ext
           (fct_cte (1 / 2) + mult_real_fct (/ (2 * gauss_half_mass)) gauss_area)%F).
  { intros z. unfold plus_fct, fct_cte, mult_real_fct. unfold Rdiv. ring. }
  apply (dlim_eq _ x (0 + / (2 * gauss_half_mass) * gauss x)); [|unfold Rdiv; ring].
  apply derivable_pt_lim_plus; [apply derivable_pt_lim_const|].
  apply derivable_pt_lim_scal, dlim_gauss_area.
Qed.

Lemma dlim_phi (x : R) : derivable_pt_lim phi x (- x * phi x).
Proof.
  unfold phi.
  apply (derivable_pt_lim_ext (mult_real_fct (/ (2 * gauss_half_mass)) gauss)).
  { intros z. unfold mult_real_fct, Rdiv. ring. }
  apply (dlim_eq _ x (/ (2 * gauss_half_mass) * (- x * gauss x))); [|unfold Rdiv; ring].
  apply derivable_pt_lim_scal, dlim_gauss.
Qed.

Lemma Phi_incr (x y : R) : x <= y -> Phi x <= Phi y.
Proof.
  intros Hxy. apply (dlim_nonneg_incr Phi phi x y); try lra.
  - intros; apply dlim_Phi.
  - intros c _. left. apply phi_pos.
Qed.

(** [Phi] vanishes at minus infinity. *)
Lemma Phi_tail (eps : R) : 0 < eps -> exists x0, forall x, x <= x0 -> Phi x < eps.
Proof.
  intros Heps. pose proof gauss_half_mass_pos as Hm.
  destruct (gauss_area_approaches (2 * gauss_half_mass * eps)) as [y Hy].
  { apply Rmult_lt_0_compat; lra. }
  exists (- y). intros x Hx.
  apply Rle_lt_trans with (Phi (- y)); [by apply Phi_incr|].
  unfold Phi. rewrite gauss_area_odd.
  apply (Rmult_lt_reg_r (2 * gauss_half_mass)); [lra|]. field_simplify; lra.
Qed.

(** The bound on the lower tail: [Phi x <= phi x / (- x)] for [x < 0],
    written without the division. *)
Lemma Phi_tail_bound (x : R) : 0 <= x * Phi x + phi x.
Proof.
  destruct (Rle_dec 0 x) as [Hx|Hx].
  { pose proof (Phi_pos x). pose proof (phi_pos x).
    assert (0 <= x * Phi x) by (apply Rmult_le_pos; lra). lra. }
  apply Rnot_le_lt in Hx.
  set (q := fun t => - (phi t / t) - Phi t).
  assert (forall t, t < 0 -> derivable_pt_lim q t (phi t / (t * t))) as Hq.
  { intros t Ht. unfold q.
    apply (dlim_eq _ t (- ((- t * phi t * id t - 1 * phi t) / Rsqr (id t)) - phi t));
      [|unfold id, Rsqr; field; lra].
    apply (derivable_pt_lim_minus (- (phi / id))%F Phi); [|apply dlim_Phi].
    apply derivable_pt_lim_opp.
    apply (derivable_pt_lim_div phi id); [apply dlim_phi|apply derivable_pt_lim_id|].
    unfold id. lra. }
  assert (forall eps, 0 < eps -> - eps < q x) as Hlim.
  { intros eps Heps. destruct (Phi_tail eps Heps) as [x0 Hx0].
    set (t := Rmin x x0 - 1).
    assert (t < x /\ t <= x0) as [Htx Htx0].
    { unfold t, Rmin. destruct (Rle_dec x x0); lra. }
    assert (q t <= q x).
    { apply (dlim_nonneg_incr q (fun c => phi c / (c * c)) t x); try lra.
      - intros c Hc. apply Hq. lra.
      - intros c Hc. left. apply Rdiv_lt_0_compat; [apply phi_pos|nra]. }
    assert (- eps < q t); [|lra].
    unfold q. pose proof (Hx0 t Htx0). pose proof (phi_pos t).
    assert (/ t < 0) by (apply Rinv_lt_0_compat; lra).
    assert (0 < - (phi t / t)); [|lra].
    unfold Rdiv. nra. }
  assert (0 <= q x) as Hqx.
  { apply Rnot_lt_le. intros Hneg. specialize (Hlim (- q x / 2)). lra. }
  unfold q in Hqx.
  replace (x * Phi x + phi x) with ((- x) * (- (phi x / x) - Phi x)) by (field; lra).
  apply Rmult_le_pos; lra.
Qed.

(** The inequality behind the positivity of both option values. *)
Lemma Phi_shift (d v : R) : 0 <= v -> Phi d <= exp (d * v + v * v / 2) * Phi (d + v).
Proof.
  intros Hv.
  set (h := fun u => exp (d * u + u * u / 2) * Phi (d + u)).
  assert (forall u, derivable_pt_lim h u
            (exp (d * u + u * u / 2) * ((d + u) * Phi (d + u) + phi (d + u)))) as Hh.
  { intros u. unfold h.
    apply (dlim_eq _ u (exp (d * u + u * u / 2) * (d + u) * Phi (d + u)
                        + exp (d * u + u * u / 2) * (phi (d + u) * (0 + 1)))); [|ring].
    apply (derivable_pt_lim_mult (comp exp (fun u => d * u + u * u / 2))
                                 (comp Phi (fun u => d + u))).
    - apply (derivable_pt_lim_comp (fun u => d * u + u * u / 2) exp);
        [|apply derivable_pt_lim_exp].
      apply (derivable_pt_lim_ext
               (mult_real_fct d id + mult_real_fct (/ 2) (id * id))%F).
      { intros z. unfold plus_fct, mult_real_fct, mult_fct, id. field. }
      apply (dlim_eq _ u (d * 1 + / 2 * (1 * id u + id u * 1))); [|unfold id; field].
      apply derivable_pt_lim_plus.
      + apply derivable_pt_lim_scal, derivable_pt_lim_id.
      + apply derivable_pt_lim_scal.
        apply derivable_pt_lim_mult; apply derivable_pt_lim_id.
    - apply (derivable_pt_lim_comp (fun u => d + u) Phi); [|apply dlim_Phi].
      apply (derivable_pt_lim_plus (fct_cte d) id);
        [apply derivable_pt_lim_const|apply derivable_pt_lim_id]. }
  assert (h 0 <= h v) as H.
  { apply (dlim_nonneg_incr h _ 0 v (fun c _ => Hh c)); try lra.
    intros c _. apply Rmult_le_pos; [left; apply exp_pos|apply Phi_tail_bound]. }
  unfold h in H.
  replace (d * 0 + 0 * 0 / 2) with 0 in H by field.
  rewrite exp_0, Rplus_0_r, Rmult_1_l in H. exact H.
Qed.

Section Parity.

Variables S K T r sigma : R.

Hypothesis S_pos : 0 < S.

Hypothesis K_pos : 0 < K.

Hypothesis T_pos : 0 < T.

Hypothesis sigma_pos : 0 < sigma.

Let v : R := sigma * sqrt T.

Let d1 : R := calculate_d1 S K T r sigma.

Let d2 : R := calculate_d2 d1 sigma T.

Lemma v_pos : 0 < v.
Proof. apply Rmult_lt_0_compat; [done|by apply sqrt_lt_R0]. Qed.

Lemma d1_d2 : d1 = d2 + v.
Proof. unfold d2, calculate_d2, v. ring. Qed.

(** [S = K * exp (- r T) * exp (d2 v + v^2 / 2)] *)
Lemma forward_ratio : S = K * exp (- r * T) * exp (d2 * v + v * v / 2).
Proof.
  pose proof v_pos as Hv.
  assert (v * v = sigma * sigma * T) as Hvv.
  { unfold v. replace (sigma * sqrt T * (sigma * sqrt T))
      with (sigma * sigma * (sqrt T * sqrt T)) by ring.
    rewrite sqrt_sqrt; lra. }
  assert (d2 * v + v * v / 2 = ln (S / K) + r * T) as ->.
  { replace (d2 * v + v * v / 2) with (d1 * v - v * v / 2) by (rewrite d1_d2; field).
    unfold d1, calculate_d1. fold v.
    replace ((ln (S / K) + (r + 1 / 2 * sigma ^ 2) * T) / v * v)
      with (ln (S / K) + (r + 1 / 2 * sigma ^ 2) * T) by (field; lra).
    rewrite Hvv. simpl. field. }
  rewrite exp_plus, exp_ln by (apply Rdiv_lt_0_compat; lra).
  replace (K * exp (- r * T) * (S / K * exp (r * T)))
    with (S * (exp (- r * T) * exp (r * T))) by (field; lra).
  rewrite <- exp_plus. replace (- r * T + r * T) with 0 by ring.
  rewrite exp_0. ring.
Qed.

Lemma call_nonneg : 0 <= S * Phi d1 - K * exp (- r * T) * Phi d2.
Proof.
  pose proof v_pos as Hv. pose proof (exp_pos (- r * T)) as He.
  pose proof (Phi_shift d2 v) as H. rewrite <- d1_d2 in H.
  rewrite forward_ratio at 1.
  assert (0 <= K * exp (- r * T) * (exp (d2 * v + v * v / 2) * Phi d1 - Phi d2)); [|lra].
  apply Rmult_le_pos; [|lra]. apply Rmult_le_pos; lra.
Qed.

Lemma put_nonneg : 0 <= K * exp (- r * T) * Phi (- d2) - S * Phi (- d1).
Proof.
  pose proof v_pos as Hv. pose proof (exp_pos (- r * T)) as He.
  pose proof (Phi_shift (- d1) v) as H.
  replace (- d1 + v) with (- d2) in H by (rewrite d1_d2; ring).
  pose proof (exp_pos (d2 * v + v * v / 2)) as He2.
  assert (exp (d2 * v + v * v / 2) * exp (- d1 * v + v * v / 2) = 1) as Hinv.
  { rewrite <- exp_plus. rewrite d1_d2.
    replace (d2 * v + v * v / 2 + (- (d2 + v) * v + v * v / 2)) with 0 by field.
    apply exp_0. }
  rewrite forward_ratio at 1.
  assert (0 <= K * exp (- r * T) * (Phi (- d2) - exp (d2 * v + v * v / 2) * Phi (- d1)));
    [|lra].
  apply Rmult_le_pos; [apply Rmult_le_pos; lra|].
  assert (exp (d2 * v + v * v / 2) * Phi (- d1)
          <= exp (d2 * v + v * v / 2) * (exp (- d1 * v + v * v / 2) * Phi (- d2))).
  { apply Rmult_le_compat_l; lra. }
  rewrite <- Rmult_assoc, Hinv in H0. lra.
Qed.

(** C5. For [S > 0], [K > 0], [sigma > 0] and [T > 0] the call price
    minus the put price is [S - K * exp (- r * T)].  The prices are the
    formulas of the pricing model evaluated in the real numbers, where the
    equality is exact: both floors at zero are idle because both values
    are non-negative.  The rounding of the floating-point evaluation, which
    the tolerance of a test absorbs, is outside this model. *)
Theorem put_call_parity :
  call_price S K T r sigma - put_price S K T r sigma = S - K * exp (- r * T).
Proof.
  unfold call_price, put_price.
  destruct (Rle_dec T 0) as [HT|_]; [lra|].
  fold d1. fold d2.
  rewrite !Rmax_left by (apply call_nonneg || apply put_nonneg).
  pose proof (Phi_symmetric d1). pose proof (Phi_symmetric d2).
  replace (Phi (- d1)) with (1 - Phi d1) by lra.
  replace (Phi (- d2)) with (1 - Phi d2) by lra.
  ring.
Qed.

End Parity.

(** ** No-arbitrage bounds of the prices in exact arithmetic *)

Section PriceBounds.

Variables S K T r sigma : R.

Hypothesis HS : 0 < S.

Hypothesis HK : 0 < K.

Hypothesis HT : 0 < T.

Hypothesis Hsigma : 0 < sigma.

(** X26. Before expiry a call is worth at least its discounted intrinsic
    value [max (S - K * exp (- r * T)) 0] and at most the stock, a put at
    least [max (K * exp (- r * T) - S) 0] and at most the discounted
    strike (prices evaluated in the real numbers, as for the parity). *)
Theorem option_price_bounds :
  (Rmax (S - K * exp (- r * T)) 0 <= call_price S K T r sigma
   /\ call_price S K T r sigma <= S)
  /\ (Rmax (K * exp (- r * T) - S) 0 <= put_price S K T r sigma
      /\ put_price S K T r sigma <= K * exp (- r * T)).
Proof.
  pose proof (call_nonneg S K T r sigma HS HK HT Hsigma) as Hc.
  pose proof (put_nonneg S K T r sigma HS HK HT Hsigma) as Hp.
  unfold call_price, put_price. destruct (Rle_dec T 0) as [?|_]; [lra|].
  revert Hc Hp.
  generalize (calculate_d2 (calculate_d1 S K T r sigma) sigma T).
  generalize (calculate_d1 S K T r sigma). intros d1 d2 Hc Hp.
  rewrite (Rmax_left _ 0 Hc), (Rmax_left _ 0 Hp).
  pose proof (Phi_symmetric d1) as H1. pose proof (Phi_symmetric d2) as H2.
  pose proof (Phi_pos d1). pose proof (Phi_pos d2).
  pose proof (Phi_pos (- d1)). pose proof (Phi_pos (- d2)).
  pose proof (exp_pos (- r * T)) as He.
  assert (0 < K * exp (- r * T)) as HE by (apply Rmult_lt_0_compat; lra).
  revert Hc Hp HE. generalize (K * exp (- r * T)). intros E Hc Hp HE.
  replace (Phi (- d1)) with (1 - Phi d1) in * by lra.
  replace (Phi (- d2)) with (1 - Phi d2) in * by lra.
  assert (0 <= E * Phi d2) by (apply Rmult_le_pos; lra).
  assert (0 <= S * (1 - Phi d1)) by (apply Rmult_le_pos; lra).
  assert (0 <= E * (1 - Phi d2)) by (apply Rmult_le_pos; lra).
  assert (0 <= S * Phi d1) by (apply Rmult_le_pos; lra).
  repeat split; try apply Rmax_lub; lra.
Qed.

End PriceBounds.

Lemma option_price_bounds_witness :
  Ideal.call_price 100 100 1 0 1 <= 100 /\ Ideal.put_price 100 100 1 0 1 <= 100 * exp (- 0 * 1).
Proof.
  destruct (option_price_bounds 100 100 1 0 1) as ((_ & Hc) & (_ & Hp));
    [Lra.lra | Lra.lra | Lra.lra | Lra.lra | split; [exact Hc | exact Hp]].
Defined.

End IdealPricing.

Lemma put_call_parity_witness :
  (Ideal.call_price 100 100 1 0 1 - Ideal.put_price 100 100 1 0 1
   = 100 - 100 * exp (- 0 * 1))%R.
Proof. apply put_call_parity; Lra.lra. Defined.
